(** * Maze analysis: multi-source flood and path reconstruction

    A shallow embedding of the grid-analysis engine of the repository
    ([src/maze/analysis.pyx], and the earlier drafts [src/maze.pyx],
    [src/unnamed/part_000], [src/unnamed/part_001],
    [src/unnamed/part_002]) together with the properties the
    specification states about it.

    Conventions.
    - A two-dimensional numpy array is a list of rows ([matrix A]); the
      index pair [(x, y)] is (row, column), as in [maze[x, y]].
    - C and numpy fixed-width integers are [Z] with the wrap-around
      written out ([int8], [int16], [int32]).
    - The direction field holds the characters the source writes
      (['#'], ['X'], [' '], ['^'], ['v'], ['<'], ['>']).
    - The two [while] loops take a fuel argument; the theorems show how
      much fuel is enough. *)

From Stdlib Require Import ZArith Ascii List Lia Bool.
From stdpp Require Import base tactics option list list_numbers numbers strings sorting.

Open Scope Z_scope.

(** ** Fixed-width integers *)

Definition wrap (bits : Z) (z : Z) : Z :=
  (z + 2 ^ (bits - 1)) mod 2 ^ bits - 2 ^ (bits - 1).

Definition int8 : Z → Z := wrap 8.
Definition int16 : Z → Z := wrap 16.
Definition int32 : Z → Z := wrap 32.

(** ** Two-dimensional arrays *)

Abbreviation matrix A := (list (list A)).

(** [np.full((w, h), v)] *)
Definition np_full {A} (w h : Z) (v : A) : matrix A :=
  replicate (Z.to_nat w) (replicate (Z.to_nat h) v).

(** [a.shape] of a two-dimensional array. *)
Definition shape {A} (a : matrix A) : Z * Z :=
  (Z.of_nat (length a), Z.of_nat (length (hd [] a))).

(** [a.astype('int8')]: numpy's unsafe cast keeps the low eight bits. *)
Definition astype_int8 (a : matrix Z) : matrix Z := map (map int8) a.

(** An element read with [boundscheck(False)] and [wraparound(False)]:
    the read is defined only inside the buffer. *)
Definition read2 {A} (a : matrix A) (x y : Z) : option A :=
  if (0 <=? x) && (0 <=? y)
  then a !! Z.to_nat x ≫= λ row, row !! Z.to_nat y
  else None.

(** A read that the code guards by [0 <= x < w and 0 <= y < h]; [d] stands
    for whatever a read outside the buffer would find. *)
Definition get2 {A} (d : A) (a : matrix A) (x y : Z) : A :=
  default d (read2 a x y).

(** [a[x, y] = v] *)
Definition set2 {A} (a : matrix A) (x y : Z) (v : A) : matrix A :=
  alter (λ row, <[Z.to_nat y := v]> row) (Z.to_nat x) a.

(** Python-level indexing [l[i]]: a negative index counts from the end,
    an index outside the list raises [IndexError] (here [None]). *)
Definition py_item {A} (l : list A) (i : Z) : option A :=
  let n := Z.of_nat (length l) in
  if i <? 0
  then if 0 <=? n + i then l !! Z.to_nat (n + i) else None
  else l !! Z.to_nat i.

(** Coordinates of a [w] by [h] array in row-major order, the order of
    [for x in range(w): for y in range(h)] and of [np.where]. *)
Definition cells (w h : Z) : list (Z * Z) :=
  x ← seqZ 0 w; y ← seqZ 0 h; [(x, y)].

(** [np.place(arr, mask, v)] *)
Definition np_place {A} (arr : matrix A) (mask : matrix bool) (v : A) : matrix A :=
  zip_with (zip_with (λ a (m : bool), if m then v else a)) arr mask.

(** [np.asarray(np.where(mask)).T]: the coordinates at which [mask] holds,
    in row-major order. *)
Definition np_where (mask : matrix bool) : list (Z * Z) :=
  filter (λ c, get2 false mask c.1 c.2 = true) (cells (shape mask).1 (shape mask).2).

(** [v not in a] on a two-dimensional character array. *)
Definition not_in (v : ascii) (a : matrix ascii) : bool :=
  negb (existsb (existsb (Ascii.eqb v)) a).

(** ** Structs, errors and results *)

Module coords.
Record t := make { x : Z; y : Z }.
End coords.

Module qitem.
Record t := make { x : Z; y : Z; distance : Z }.
End qitem.

Inductive exception :=
  | NoPathExistsException
  | IndexError
  | KeyError
  | OverflowError.

(** What a call can do: return a value, raise, read outside a buffer
    (undefined in the compiled code), or exhaust the fuel of the model. *)
Inductive outcome (A : Type) :=
  | Return (a : A)
  | Raise (e : exception)
  | Undefined
  | OutOfFuel.
Arguments Return {A} a.
Arguments Raise {A} e.
Arguments Undefined {A}.
Arguments OutOfFuel {A}.

(** ** The flood

    The breadth-first loop is the same text in all the files; they differ
    in the integer type of the distance field ([store]) and of the
    distance kept in a queue item ([qd]). *)

(** The local variables [distances], [directions] and [q] of the flood. *)
Module locals.
Record t := make {
  distances : matrix Z;
  directions : matrix ascii;
  q : list qitem.t
}.
End locals.

Definition dir_offsets : list coords.t :=
  [coords.make 1 0; coords.make (-1) 0; coords.make 0 1; coords.make 0 (-1)].

Definition dir_chars : list ascii := ["^"; "v"; "<"; ">"]%char.

(** One pass of the body of [for i in range(4)]. *)
Definition visit (store qd : Z → Z) (maze : matrix Z) (w h : Z)
    (item : qitem.t) (st : locals.t) (i : nat) : locals.t :=
  let offset := nth i dir_offsets (coords.make 0 0) in
  let x := qitem.x item + coords.x offset in
  let y := qitem.y item + coords.y offset in
  if (0 <=? x) && (x <? w) && (0 <=? y) && (y <? h) then
    if (0 <=? get2 0 maze x y) && (get2 0 (locals.distances st) x y =? -1) then
      locals.make
        (set2 (locals.distances st) x y (store (qitem.distance item + 1)))
        (set2 (locals.directions st) x y (nth i dir_chars " "%char))
        (locals.q st ++ [qitem.make x y (qd (qitem.distance item + 1))])
    else st
  else st.

(** [while not q.empty(): item = q.front(); q.pop(); for i in range(4): ...] *)
Fixpoint bfs (store qd : Z → Z) (maze : matrix Z) (w h : Z)
    (fuel : nat) (st : locals.t) : outcome locals.t :=
  match fuel with
  | O => OutOfFuel
  | S fuel' =>
    match locals.q st with
    | [] => Return st
    | item :: rest =>
      bfs store qd maze w h fuel'
        (foldl (visit store qd maze w h item)
               (locals.make (locals.distances st) (locals.directions st) rest)
               (seq 0 4))
    end
  end.

(** The items [q.front()] yields during the loop, in order: every item
    ever pushed, once the queue is empty. *)
Fixpoint dequeued (store qd : Z → Z) (maze : matrix Z) (w h : Z)
    (fuel : nat) (st : locals.t) : list qitem.t :=
  match fuel with
  | O => []
  | S fuel' =>
    match locals.q st with
    | [] => []
    | item :: rest =>
      item :: dequeued store qd maze w h fuel'
        (foldl (visit store qd maze w h item)
               (locals.make (locals.distances st) (locals.directions st) rest)
               (seq 0 4))
    end
  end.

(** The body of the two scanning loops of [flood] in [analysis.pyx] and
    [maze.pyx], at cell [(x, y)]. *)
Definition scan_cell (maze : matrix Z) (st : locals.t) (x y : Z) : locals.t :=
  if get2 0 maze x y <? 0 then
    locals.make (locals.distances st)
                (set2 (locals.directions st) x y "#"%char)
                (locals.q st)
  else if get2 0 maze x y =? 1 then
    locals.make (set2 (locals.distances st) x y 0)
                (set2 (locals.directions st) x y "X"%char)
                (locals.q st ++ [qitem.make x y 0])
  else st.

(** [for x in range(w): for y in range(h): ...] over fresh arrays. *)
Definition scan (maze : matrix Z) (w h : Z) : locals.t :=
  foldl (λ st x, foldl (λ st y, scan_cell maze st x y) st (seqZ 0 h))
        (locals.make (np_full w h (-1)) (np_full w h " "%char) [])
        (seqZ 0 w).

(** The seeding of the drafts [part_000] and [part_002]: [np.place] marks
    the walls, [np.where] lists the goals, one loop queues them. *)
Definition mark_goal (st : locals.t) (g : Z * Z) : locals.t :=
  locals.make (set2 (locals.distances st) g.1 g.2 0)
              (set2 (locals.directions st) g.1 g.2 "X"%char)
              (locals.q st ++ [qitem.make g.1 g.2 0]).

Definition seed (maze : matrix Z) : locals.t :=
  let w := (shape maze).1 in
  let h := (shape maze).2 in
  let distances := np_full w h (-1) in
  let directions :=
    np_place (np_full w h " "%char) (map (map (λ v, v <? 0)) maze) "#"%char in
  let goals := np_where (map (map (λ v, v =? 1)) maze) in
  foldl mark_goal (locals.make distances directions []) goals.

(** The attributes of a [MazeAnalysis] object. *)
Record MazeAnalysis := {
  distances : matrix Z;
  directions : matrix ascii;
  is_reachable : bool
}.

(** ** [src/maze/analysis.pyx] *)

Module Analysis.

Definition directions2reachable (directions : matrix ascii) (w h : Z) : bool :=
  forallb (λ x,
    forallb (λ y, negb (Ascii.eqb (get2 "000"%char directions x y) " "%char))
            (seqZ 0 h))
    (seqZ 0 w).

Definition flood (fuel : nat) (maze : matrix Z) (w h : Z)
    : outcome (matrix Z * matrix ascii * bool) :=
  match bfs int32 int32 maze w h fuel (scan maze w h) with
  | Return st =>
    Return (locals.distances st, locals.directions st,
            directions2reachable (locals.directions st) w h)
  | Raise e => Raise e
  | Undefined => Undefined
  | OutOfFuel => OutOfFuel
  end.

(** The [std::map] of [build_path]; [operator[]] yields a
    value-initialised [coords] for a key that is not in the map. *)
Definition dirs (c : ascii) : coords.t :=
  if Ascii.eqb c "v" then coords.make 1 0
  else if Ascii.eqb c "^" then coords.make (-1) 0
  else if Ascii.eqb c ">" then coords.make 0 1
  else if Ascii.eqb c "<" then coords.make 0 (-1)
  else coords.make 0 0.

(** The [while directions[row, column] != b'X'] loop of [build_path]. *)
Fixpoint follow (fuel : nat) (directions : matrix ascii) (row column : Z)
    (path : list (Z * Z)) : outcome (list (Z * Z)) :=
  match fuel with
  | O => OutOfFuel
  | S fuel' =>
    match read2 directions row column with
    | None => Undefined
    | Some c =>
      if Ascii.eqb c "X" then Return path
      else
        let d := dirs c in
        let row' := row + coords.x d in
        let column' := column + coords.y d in
        follow fuel' directions row' column' (path ++ [(row', column')])
    end
  end.

Definition build_path (fuel : nat) (directions : matrix ascii) (row column : Z)
    : outcome (list (Z * Z)) :=
  match read2 directions row column with
  | None => Undefined
  | Some c =>
    if Ascii.eqb c "#" || Ascii.eqb c " " then Raise NoPathExistsException
    else follow fuel directions row column [(row, column)]
  end.

(** [MazeAnalysis.__init__]; [np.atleast_2d] leaves a two-dimensional
    array as it is. *)
Definition init (fuel : nat) (maze : matrix Z) : outcome MazeAnalysis :=
  let maze := astype_int8 maze in
  match flood fuel maze (shape maze).1 (shape maze).2 with
  | Return (dist, dir, reach) => Return (Build_MazeAnalysis dist dir reach)
  | Raise e => Raise e
  | Undefined => Undefined
  | OutOfFuel => OutOfFuel
  end.

Definition path (fuel : nat) (self : MazeAnalysis) (row column : Z)
    : outcome (list (Z * Z)) :=
  build_path fuel (directions self) row column.

Definition analyze := init.

End Analysis.

(** ** [build_path] of [analysis.pyx] as it is compiled

    [build_path] is declared with [int row, int column] and reads the
    direction field under [boundscheck(False)] and [wraparound(False)]. A
    Python integer that does not fit a C [int] raises [OverflowError] at
    the call. [directions[row, column]] is the byte at
    [row * strides[0] + column * strides[1]] from the start of the data,
    with no test of the indices. The array that [np.full] makes and
    [flood] returns is C-contiguous: its strides are [(h, 1)] and its data
    are the rows one after the other, so an index pair outside the field
    reads another cell of the field as long as the address stays inside
    the data, and is undefined beyond. Overflow of the C [int]s [row] and
    [column] is undefined as well. The [vector] grows without bound here:
    the [MemoryError] of a [push_back] that fails is not modelled. *)

Module Compiled.

Definition fits_int (z : Z) : bool := (- 2 ^ 31 <=? z) && (z <? 2 ^ 31).

(** The data of a C-contiguous array. *)
Definition data {A} (a : matrix A) : list A := concat a.

(** [a[row, column]] without a test of the indices. *)
Definition peek {A} (a : matrix A) (row column : Z) : option A :=
  let offset := row * (shape a).2 + column in
  if 0 <=? offset then data a !! Z.to_nat offset else None.

Fixpoint follow (fuel : nat) (directions : matrix ascii) (row column : Z)
    (path : list (Z * Z)) : outcome (list (Z * Z)) :=
  match fuel with
  | O => OutOfFuel
  | S fuel' =>
    match peek directions row column with
    | None => Undefined
    | Some c =>
      if Ascii.eqb c "X" then Return path
      else
        let d := Analysis.dirs c in
        let row' := row + coords.x d in
        let column' := column + coords.y d in
        if fits_int row' && fits_int column'
        then follow fuel' directions row' column' (path ++ [(row', column')])
        else Undefined
    end
  end.

Definition build_path (fuel : nat) (directions : matrix ascii) (row column : Z)
    : outcome (list (Z * Z)) :=
  if fits_int row && fits_int column then
    match peek directions row column with
    | None => Undefined
    | Some c =>
      if Ascii.eqb c "#" || Ascii.eqb c " " then Raise NoPathExistsException
      else follow fuel directions row column [(row, column)]
    end
  else Raise OverflowError.

End Compiled.

(** ** [src/maze.pyx]

    The grid and the distance field are [int16] buffers; reachability is
    computed by the caller of [flood]. [build_path] is the text of
    [analysis.pyx]. *)

Module MazePyx.

Definition flood (fuel : nat) (maze : matrix Z) (w h : Z)
    : outcome (matrix Z * matrix ascii) :=
  match bfs int16 int32 maze w h fuel (scan maze w h) with
  | Return st => Return (locals.distances st, locals.directions st)
  | Raise e => Raise e
  | Undefined => Undefined
  | OutOfFuel => OutOfFuel
  end.

Definition init (fuel : nat) (maze : matrix Z) : outcome MazeAnalysis :=
  match flood fuel maze (shape maze).1 (shape maze).2 with
  | Return (dist, dir) => Return (Build_MazeAnalysis dist dir (not_in " "%char dir))
  | Raise e => Raise e
  | Undefined => Undefined
  | OutOfFuel => OutOfFuel
  end.

Definition path (fuel : nat) (self : MazeAnalysis) (row column : Z)
    : outcome (list (Z * Z)) :=
  Analysis.build_path fuel (directions self) row column.

End MazePyx.

(** ** [src/unnamed/part_001]

    [flood(maze)] takes the shape from the array, seeds with [np.place] and
    [np.where] and runs the loop over a C++ queue and an [int16] distance
    field; [build_path] is the text of [analysis.pyx]. *)

Module Part001.

Definition flood (fuel : nat) (maze : matrix Z)
    : outcome (matrix Z * matrix ascii) :=
  match bfs int16 int32 maze (shape maze).1 (shape maze).2 fuel (seed maze) with
  | Return st => Return (locals.distances st, locals.directions st)
  | Raise e => Raise e
  | Undefined => Undefined
  | OutOfFuel => OutOfFuel
  end.

Definition init (fuel : nat) (maze : matrix Z) : outcome MazeAnalysis :=
  match flood fuel maze with
  | Return (dist, dir) => Return (Build_MazeAnalysis dist dir (not_in " "%char dir))
  | Raise e => Raise e
  | Undefined => Undefined
  | OutOfFuel => OutOfFuel
  end.

Definition path (fuel : nat) (self : MazeAnalysis) (row column : Z)
    : outcome (list (Z * Z)) :=
  Analysis.build_path fuel (directions self) row column.

End Part001.

(** ** The [path] method of [part_000] and [part_002]

    Python-level code: indices are checked and may be negative, the
    directions are looked up in a [dict]. *)

Definition py_dirs (c : ascii) : option (Z * Z) :=
  if Ascii.eqb c "v" then Some (1, 0)
  else if Ascii.eqb c "^" then Some (-1, 0)
  else if Ascii.eqb c ">" then Some (0, 1)
  else if Ascii.eqb c "<" then Some (0, -1)
  else None.

(** [a[row][column]] *)
Definition py_item2 {A} (a : matrix A) (row column : Z) : option A :=
  py_item a row ≫= λ r, py_item r column.

Fixpoint py_follow (fuel : nat) (directions : matrix ascii) (row column : Z)
    (path : list (Z * Z)) : outcome (list (Z * Z)) :=
  match fuel with
  | O => OutOfFuel
  | S fuel' =>
    match py_item2 directions row column with
    | None => Raise IndexError
    | Some c =>
      if Ascii.eqb c "X" then Return path
      else
        match py_dirs c with
        | None => Raise KeyError
        | Some (x, y) =>
          py_follow fuel' directions (row + x) (column + y)
                    (path ++ [(row + x, column + y)])
        end
    end
  end.

Definition py_path (fuel : nat) (self : MazeAnalysis) (row column : Z)
    : outcome (list (Z * Z)) :=
  match py_item2 (distances self) row column with
  | None => Raise IndexError
  | Some d =>
    if d <? 0 then Raise NoPathExistsException
    else py_follow fuel (directions self) row column [(row, column)]
  end.

(** ** [src/unnamed/part_000]: C++ queue of [qitem], [int16] distance field *)

Module Part000.

Definition init (fuel : nat) (maze : matrix Z) : outcome MazeAnalysis :=
  match bfs int16 int32 maze (shape maze).1 (shape maze).2 fuel (seed maze) with
  | Return st =>
    Return (Build_MazeAnalysis (locals.distances st) (locals.directions st)
              (not_in " "%char (locals.directions st)))
  | Raise e => Raise e
  | Undefined => Undefined
  | OutOfFuel => OutOfFuel
  end.

Definition path := py_path.

End Part000.

(** ** [src/unnamed/part_002]: [deque] of Python integers, [int16] distance field *)

Module Part002.

Definition init (fuel : nat) (maze : matrix Z) : outcome MazeAnalysis :=
  match bfs int16 id maze (shape maze).1 (shape maze).2 fuel (seed maze) with
  | Return st =>
    Return (Build_MazeAnalysis (locals.distances st) (locals.directions st)
              (not_in " "%char (locals.directions st)))
  | Raise e => Raise e
  | Undefined => Undefined
  | OutOfFuel => OutOfFuel
  end.

Definition path := py_path.

End Part002.


(** ** Vocabulary of the specification *)

(** [(x, y)] is a coordinate of a [w] by [h] array. *)
Definition inb (w h x y : Z) : Prop := 0 ≤ x < w ∧ 0 ≤ y < h.

(** [a] has [w] rows of [h] entries each. *)
Definition shaped {A} (w h : Z) (a : matrix A) : Prop :=
  length a = Z.to_nat w ∧ Forall (λ row, length row = Z.to_nat h) a.

(** Every value of the grid lies in the range of [int16]: the array can
    be passed as the [np.int16_t] buffer that [flood] of [maze.pyx]
    demands. *)
Definition int16_values (maze : matrix Z) : Prop :=
  Forall (Forall (λ v, - 2 ^ 15 ≤ v < 2 ^ 15)) maze.

(** A valid grid: rectangular, at least one row and one column, and with
    fewer than [2 ^ 31] cells, so that every count of cells fits the C
    [int] of [qitem.distance] and the [int32] distance field. *)
Definition valid_grid (maze : matrix Z) (w h : Z) : Prop :=
  1 ≤ w ∧ 1 ≤ h ∧ shaped w h maze ∧ w * h < 2 ^ 31.

(** Two coordinates one cardinal step apart. *)
Definition adjacent (a b : Z * Z) : Prop :=
  Z.abs (a.1 - b.1) + Z.abs (a.2 - b.2) = 1.

(** A cell one may stand on: inside the grid and not a wall. *)
Definition passable (maze : matrix Z) (w h : Z) (c : Z * Z) : Prop :=
  inb w h c.1 c.2 ∧ 0 ≤ get2 0 maze c.1 c.2.

Definition is_goal (maze : matrix Z) (c : Z * Z) : Prop :=
  get2 0 maze c.1 c.2 = 1.

(** [c :: rest] is a walk over passable cells, by cardinal steps, that
    ends on a goal; it has [length rest] hops. *)
Fixpoint path_to_goal (maze : matrix Z) (w h : Z) (c : Z * Z)
    (rest : list (Z * Z)) : Prop :=
  passable maze w h c ∧
  match rest with
  | [] => is_goal maze c
  | c' :: rest' => adjacent c c' ∧ path_to_goal maze w h c' rest'
  end.

(** Every consecutive pair of [p] is one cardinal step apart. *)
Fixpoint cardinal_steps (p : list (Z * Z)) : Prop :=
  match p with
  | a :: ((b :: _) as p') => adjacent a b ∧ cardinal_steps p'
  | _ => True
  end.

Definition is_arrow (c : ascii) : Prop :=
  c = "^"%char ∨ c = "v"%char ∨ c = "<"%char ∨ c = ">"%char.

(** [p] is what the loop of [build_path] walks on the data of
    [directions]: every entry but the last reads an arrow and the next
    entry is the one the arrow names; the last entry reads ['X']. *)
Fixpoint follows_arrows (directions : matrix ascii) (p : list (Z * Z)) : Prop :=
  match p with
  | [] => False
  | [g] => Compiled.peek directions g.1 g.2 = Some "X"%char
  | a :: ((b :: _) as p') =>
    (∃ c, Compiled.peek directions a.1 a.2 = Some c ∧ is_arrow c ∧
          b = (a.1 + coords.x (Analysis.dirs c), a.2 + coords.y (Analysis.dirs c))) ∧
    follows_arrows directions p'
  end.

(** [c] has a walk to some goal. *)
Definition reachable (maze : matrix Z) (w h : Z) (c : Z * Z) : Prop :=
  ∃ p, path_to_goal maze w h c p.

(** [n] is the number of hops of a shortest walk from [c] to a goal. *)
Definition shortest_hops (maze : matrix Z) (w h : Z) (c : Z * Z) (n : Z) : Prop :=
  (∃ p, path_to_goal maze w h c p ∧ Z.of_nat (length p) = n) ∧
  ∀ p, path_to_goal maze w h c p → n ≤ Z.of_nat (length p).

(** The grid of the usage example of the README. *)
Definition example_grid : matrix Z := [[5; -1; 1]; [7; -1; 7]; [3; 3; 3]].

(** Its analysis, as the README prints it. *)
Definition example_analysis : MazeAnalysis := {|
  distances := [[6; -1; 0]; [5; -1; 1]; [4; 3; 2]];
  directions := [["v"; "#"; "X"]; ["v"; "#"; "^"]; [">"; ">"; "^"]]%char;
  is_reachable := true
|}.

(** A corridor of one row: a goal followed by [n] open cells. *)
Definition corridor (n : nat) : matrix Z := [1 :: replicate n 0].

(** ** Invariants of the flood *)

(** Number of cells of the distance field that still hold [-1]. *)
Definition unassigned (w h : Z) (dist : matrix Z) : nat :=
  length (filter (λ c, get2 0 dist c.1 c.2 = -1) (cells w h)).

(** What the three arrays say about one cell. *)
Definition cell_ok (maze : matrix Z) (w h : Z) (dist : matrix Z)
    (dirs : matrix ascii) (x y : Z) : Prop :=
  let d := get2 0 dist x y in
  let c := get2 "000"%char dirs x y in
  let m := get2 0 maze x y in
  (d = -1 ∧ ((m < 0 ∧ c = "#"%char) ∨ (0 ≤ m ∧ m ≠ 1 ∧ c = " "%char)))
  ∨ (d = 0 ∧ m = 1 ∧ c = "X"%char)
  ∨ (0 < d ∧ 0 ≤ m ∧ m ≠ 1 ∧ is_arrow c ∧
     let o := Analysis.dirs c in
     inb w h (x + coords.x o) (y + coords.y o) ∧
     get2 0 dist (x + coords.x o) (y + coords.y o) = d - 1).

(** The cell [(x, y)] has been expanded: each passable neighbour has a
    distance, at most one more than its own. *)
Definition expanded (maze : matrix Z) (w h : Z) (dist : matrix Z) (x y : Z) : Prop :=
  ∀ x' y', adjacent (x, y) (x', y') → passable maze w h (x', y') →
    get2 0 dist x' y' ≠ -1 ∧ get2 0 dist x' y' ≤ get2 0 dist x y + 1.

(** The cell a queue item stands for. *)
Definition cell_of (it : qitem.t) : Z * Z := (qitem.x it, qitem.y it).

(** The loop invariant; [lq] is the queue, with the item being expanded
    still at its front. *)
Record Inv (maze : matrix Z) (w h : Z) (dist : matrix Z) (dirs : matrix ascii)
    (lq : list qitem.t) : Prop := {
  inv_dist_shape : shaped w h dist;
  inv_dirs_shape : shaped w h dirs;
  inv_cell : ∀ x y, inb w h x y → cell_ok maze w h dist dirs x y;
  inv_bound : ∀ x y, inb w h x y → get2 0 dist x y ≠ -1 →
    get2 0 dist x y + Z.of_nat (unassigned w h dist) < w * h;
  inv_queue : Forall (λ it,
    inb w h (qitem.x it) (qitem.y it) ∧
    get2 0 dist (qitem.x it) (qitem.y it) = qitem.distance it ∧
    0 ≤ qitem.distance it) lq;
  inv_sorted : StronglySorted (λ a b, qitem.distance a ≤ qitem.distance b) lq;
  inv_nodup : NoDup (cell_of <$> lq);
  inv_level : ∀ x y it, inb w h x y → get2 0 dist x y ≠ -1 → it ∈ lq →
    get2 0 dist x y ≤ qitem.distance it + 1;
  inv_closed : ∀ x y, inb w h x y → get2 0 dist x y ≠ -1 →
    (∃ it, it ∈ lq ∧ qitem.x it = x ∧ qitem.y it = y) ∨ expanded maze w h dist x y
}.

(** What the seeding writes for a cell of value [m]. *)
Definition seed_distance (m : Z) : Z := if m =? 1 then 0 else -1.

Definition seed_direction (m : Z) : ascii :=
  if m <? 0 then "#"%char else if m =? 1 then "X"%char else " "%char.

(** The state in which the loop starts: every goal has distance [0] and
    is queued, in row-major order; walls are marked. *)
Definition seeded (maze : matrix Z) (w h : Z) (st : locals.t) : Prop :=
  shaped w h (locals.distances st) ∧ shaped w h (locals.directions st) ∧
  (∀ x y, inb w h x y →
     get2 0 (locals.distances st) x y = seed_distance (get2 0 maze x y) ∧
     get2 "000"%char (locals.directions st) x y = seed_direction (get2 0 maze x y)) ∧
  locals.q st =
    (λ c, qitem.make c.1 c.2 0) <$> filter (λ c, get2 0 maze c.1 c.2 = 1) (cells w h).

(** The arrays of a flood of [corridor n] once the cells up to column
    [j] have their distance. *)
Definition corridor_state (store : Z → Z) (n j : nat) (q : list qitem.t) : locals.t :=
  locals.make
    [((λ k, store (Z.of_nat k)) <$> seq 0 (S j)) ++ replicate (n - j) (-1)]
    [("X"%char :: replicate j "<"%char) ++ replicate (n - j) " "%char]
    q.

(** ** Arrays *)

Lemma wrap_small bits z :
  0 < bits → - 2 ^ (bits - 1) ≤ z < 2 ^ (bits - 1) → wrap bits z = z.
Proof.
  intros Hb Hz. unfold wrap.
  assert (2 ^ bits = 2 * 2 ^ (bits - 1)) as ->.
  { rewrite <- Z.pow_succ_r by lia. f_equal. lia. }
  rewrite Z.mod_small; lia.
Qed.

Lemma read2_Some {A} w h (a : matrix A) x y v :
  shaped w h a → read2 a x y = Some v → inb w h x y.
Proof.
  intros [Hlen Hrows]. unfold read2.
  destruct (0 <=? x) eqn:Hx; [|done]. destruct (0 <=? y) eqn:Hy; [|done]. simpl.
  destruct (a !! Z.to_nat x) as [row|] eqn:Hrow; [|done]. simpl. intros Hv.
  apply lookup_lt_Some in Hv.
  rewrite (Forall_lookup_1 _ _ _ _ Hrows Hrow) in Hv.
  apply lookup_lt_Some in Hrow. unfold inb. lia.
Qed.

Lemma read2_inb {A} w h (a : matrix A) x y :
  shaped w h a → inb w h x y → is_Some (read2 a x y).
Proof.
  intros [Hlen Hrows] [Hx Hy]. unfold read2.
  rewrite !(proj2 (Z.leb_le _ _)) by lia. simpl.
  destruct (lookup_lt_is_Some_2 a (Z.to_nat x)) as [row Hrow]; [lia|].
  rewrite Hrow. simpl. apply lookup_lt_is_Some_2.
  rewrite (Forall_lookup_1 _ _ _ _ Hrows Hrow). lia.
Qed.

Lemma get2_read2 {A} (d : A) a x y v : read2 a x y = Some v → get2 d a x y = v.
Proof. unfold get2. by intros ->. Qed.

Lemma shaped_set2 {A} w h (a : matrix A) x y v :
  shaped w h a → shaped w h (set2 a x y v).
Proof.
  intros [Hlen Hrows]. split.
  - unfold set2. by rewrite length_alter.
  - unfold set2. apply Forall_alter; [done|].
    intros row _ Hrow. by rewrite length_insert.
Qed.

Lemma read2_set2_eq {A} w h (a : matrix A) x y v :
  shaped w h a → inb w h x y → read2 (set2 a x y v) x y = Some v.
Proof.
  intros [Hlen Hrows] [Hx Hy]. unfold read2, set2.
  rewrite !(proj2 (Z.leb_le _ _)) by lia. simpl.
  rewrite list_lookup_alter_eq.
  destruct (lookup_lt_is_Some_2 a (Z.to_nat x)) as [row Hrow]; [lia|].
  rewrite Hrow. simpl. apply list_lookup_insert_eq.
  rewrite (Forall_lookup_1 _ _ _ _ Hrows Hrow). lia.
Qed.

Lemma read2_set2_ne {A} (a : matrix A) x y v x' y' :
  0 ≤ x → 0 ≤ y → (x, y) ≠ (x', y') →
  read2 (set2 a x y v) x' y' = read2 a x' y'.
Proof.
  intros Hx Hy Hne. unfold read2, set2.
  destruct (0 <=? x') eqn:Hx'; [|done]. destruct (0 <=? y') eqn:Hy'; [|done]. simpl.
  apply Z.leb_le in Hx', Hy'.
  destruct (decide (Z.to_nat x = Z.to_nat x')) as [Hxx|Hxx].
  - rewrite <- Hxx, list_lookup_alter_eq.
    destruct (a !! Z.to_nat x) as [row|]; [|done]. simpl.
    apply list_lookup_insert_ne. intros Hyy.
    apply Hne. f_equal; lia.
  - by rewrite list_lookup_alter_ne.
Qed.

Lemma get2_set2_eq {A} (d : A) w h (a : matrix A) x y v :
  shaped w h a → inb w h x y → get2 d (set2 a x y v) x y = v.
Proof. intros Hs Hi. unfold get2. by rewrite (read2_set2_eq w h). Qed.

Lemma get2_set2_ne {A} (d : A) (a : matrix A) x y v x' y' :
  0 ≤ x → 0 ≤ y → (x, y) ≠ (x', y') →
  get2 d (set2 a x y v) x' y' = get2 d a x' y'.
Proof. intros Hx Hy Hne. unfold get2. by rewrite read2_set2_ne. Qed.

Lemma shaped_np_full {A} w h (v : A) : shaped w h (np_full w h v).
Proof.
  split.
  - unfold np_full. by rewrite length_replicate.
  - unfold np_full. apply Forall_replicate. by rewrite length_replicate.
Qed.

Lemma read2_np_full {A} w h (v : A) x y :
  inb w h x y → read2 (np_full w h v) x y = Some v.
Proof.
  intros [Hx Hy]. unfold read2, np_full.
  rewrite !(proj2 (Z.leb_le _ _)) by lia. simpl.
  rewrite lookup_replicate_2 by lia. simpl.
  apply lookup_replicate_2. lia.
Qed.

Lemma get2_np_full {A} (d : A) w h v x y :
  inb w h x y → get2 d (np_full w h v) x y = v.
Proof. intros Hi. unfold get2. by rewrite read2_np_full. Qed.

(** Two arrays of one shape that agree at every coordinate are equal. *)
Lemma matrix_ext {A} w h (a b : matrix A) :
  shaped w h a → shaped w h b →
  (∀ x y, inb w h x y → read2 a x y = read2 b x y) → a = b.
Proof.
  intros [Hla Hra] [Hlb Hrb] Hext.
  apply list_eq_same_length with (Z.to_nat w); [done..|].
  intros i ra rb Hi Ha Hb.
  pose proof (Forall_lookup_1 _ _ _ _ Hra Ha) as Hlra.
  pose proof (Forall_lookup_1 _ _ _ _ Hrb Hb) as Hlrb.
  apply list_eq_same_length with (Z.to_nat h); [done..|].
  intros j va vb Hj Hva Hvb.
  specialize (Hext (Z.of_nat i) (Z.of_nat j)).
  unfold read2 in Hext.
  rewrite !(proj2 (Z.leb_le _ _)), !Nat2Z.id in Hext by lia. simpl in Hext.
  rewrite Ha, Hb in Hext. simpl in Hext. rewrite Hva, Hvb in Hext.
  assert (Some va = Some vb) by (apply Hext; unfold inb; lia). congruence.
Qed.

(** ** The coordinates of a grid *)

Lemma elem_of_cells w h x y : (x, y) ∈ cells w h ↔ inb w h x y.
Proof.
  unfold cells, inb. rewrite list_elem_of_bind. split.
  - intros (x' & Hy & Hx). apply list_elem_of_bind in Hy as (y' & Hxy & Hy).
    apply list_elem_of_singleton in Hxy. simplify_eq.
    apply elem_of_seqZ in Hx, Hy. lia.
  - intros [Hx Hy]. exists x. split; [|apply elem_of_seqZ; lia].
    apply list_elem_of_bind. exists y. split; [|apply elem_of_seqZ; lia].
    by apply list_elem_of_singleton.
Qed.

Lemma NoDup_cells w h : NoDup (cells w h).
Proof.
  unfold cells. apply NoDup_bind; [| |apply NoDup_seqZ].
  - intros x1 x2 c _ _ H1 H2.
    apply list_elem_of_bind in H1 as (y1 & H1 & _).
    apply list_elem_of_bind in H2 as (y2 & H2 & _).
    apply list_elem_of_singleton in H1, H2. congruence.
  - intros x _. apply NoDup_bind; [| |apply NoDup_seqZ].
    + intros y1 y2 c _ _ H1 H2.
      apply list_elem_of_singleton in H1, H2. congruence.
    + intros y _. apply NoDup_singleton.
Qed.

Lemma length_cells w h : length (cells w h) = (Z.to_nat w * Z.to_nat h)%nat.
Proof.
  unfold cells. rewrite <- (length_seqZ 0 w), <- (length_seqZ 0 h).
  generalize (seqZ 0 w) (seqZ 0 h). intros xs ys.
  induction xs as [|x xs IH]; [done|].
  rewrite bind_cons, length_app, IH. simpl. f_equal.
  clear IH. induction ys as [|y ys IHy]; [done|].
  rewrite bind_cons. simpl. by rewrite IHy.
Qed.

(** ** Counting the cells without a distance *)

Lemma filter_ext_in {A} (P Q : A → Prop)
    `{∀ x, Decision (P x)} `{∀ x, Decision (Q x)} (l : list A) :
  (∀ x, x ∈ l → P x ↔ Q x) → filter P l = filter Q l.
Proof.
  induction l as [|a l IH]; [done|]. intros Hiff.
  rewrite !filter_cons.
  assert (P a ↔ Q a) as Ha by (apply Hiff; left).
  assert (filter P l = filter Q l) as ->.
  { apply IH. intros x Hx. apply Hiff. by right. }
  destruct (decide (P a)), (decide (Q a)); tauto.
Qed.

Lemma filter_length_remove {A} (P Q : A → Prop)
    `{∀ x, Decision (P x)} `{∀ x, Decision (Q x)} (l : list A) (c : A) :
  NoDup l → c ∈ l → P c → ¬ Q c → (∀ c', c' ≠ c → P c' ↔ Q c') →
  length (filter P l) = S (length (filter Q l)).
Proof.
  intros Hnd Hc HP HQ Hiff.
  induction Hnd as [|a l Hnotin Hnd IH]; [by apply elem_of_nil in Hc|].
  rewrite !filter_cons.
  apply elem_of_cons in Hc as [<-|Hc].
  - rewrite decide_True, decide_False by done. simpl. f_equal.
    f_equal. apply filter_ext_in.
    intros c' Hc'. apply Hiff. by intros ->.
  - assert (a ≠ c) as Hne by (by intros ->).
    specialize (Hiff a Hne).
    destruct (decide (P a)), (decide (Q a)); simpl; try tauto; by rewrite IH.
Qed.

Lemma unassigned_set2 w h (a : matrix Z) x y v :
  shaped w h a → inb w h x y → get2 0 a x y = -1 → v ≠ -1 →
  unassigned w h a = S (unassigned w h (set2 a x y v)).
Proof.
  intros Hs Hi Hold Hv. unfold unassigned.
  apply (filter_length_remove _ _ _ (x, y)).
  - apply NoDup_cells.
  - by apply elem_of_cells.
  - done.
  - simpl. by rewrite (get2_set2_eq _ w h).
  - intros [x' y'] Hne. simpl.
    rewrite get2_set2_ne; [done|apply Hi|apply Hi|congruence].
Qed.

Lemma unassigned_pos w h (a : matrix Z) x y :
  inb w h x y → get2 0 a x y = -1 → (0 < unassigned w h a)%nat.
Proof.
  intros Hi Hold. unfold unassigned.
  assert ((x, y) ∈ filter (λ c, get2 0 a c.1 c.2 = -1) (cells w h)) as Hin.
  { apply list_elem_of_filter. split; [done|by apply elem_of_cells]. }
  destruct (filter _ _); [by apply elem_of_nil in Hin|simpl; lia].
Qed.

Lemma unassigned_le w h (a : matrix Z) :
  (unassigned w h a ≤ Z.to_nat w * Z.to_nat h)%nat.
Proof. unfold unassigned. rewrite <- length_cells. apply length_filter. Qed.

(** ** Queues sorted by distance *)

Lemma StronglySorted_snoc {A} (R : A → A → Prop) l x :
  StronglySorted R l → Forall (λ a, R a x) l → StronglySorted R (l ++ [x]).
Proof.
  intros Hs Hall. induction Hs as [|a l Hs IH Ha]; simpl.
  - repeat constructor.
  - apply Forall_cons in Hall as [Hax Hall]. constructor; [by apply IH|].
    apply Forall_app. split; [done|]. by constructor.
Qed.

(** ** Directions and offsets *)

(** The character written for neighbour [i] leads back to the expanded cell. *)
Lemma dirs_dir_chars i :
  (i < 4)%nat →
  let c := nth i dir_chars " "%char in
  let o := nth i dir_offsets (coords.make 0 0) in
  is_arrow c ∧
  coords.x (Analysis.dirs c) = - coords.x o ∧
  coords.y (Analysis.dirs c) = - coords.y o.
Proof.
  intros Hi. unfold is_arrow.
  destruct i as [|[|[|[|i]]]]; [simpl; tauto..|lia].
Qed.

Lemma adjacent_offset x y x' y' :
  adjacent (x, y) (x', y') →
  ∃ i, (i < 4)%nat ∧
    x' = x + coords.x (nth i dir_offsets (coords.make 0 0)) ∧
    y' = y + coords.y (nth i dir_offsets (coords.make 0 0)).
Proof.
  unfold adjacent. simpl. intros Hadj.
  assert ((x' = x + 1 ∧ y' = y) ∨ (x' = x - 1 ∧ y' = y) ∨
          (x' = x ∧ y' = y + 1) ∨ (x' = x ∧ y' = y - 1)) as Hc by lia.
  destruct Hc as [[-> ->] | [[-> ->] | [[-> ->] | [-> ->]]]].
  - exists 0%nat. simpl. split; [lia|]. split; lia.
  - exists 1%nat. simpl. split; [lia|]. split; lia.
  - exists 2%nat. simpl. split; [lia|]. split; lia.
  - exists 3%nat. simpl. split; [lia|]. split; lia.
Qed.

Lemma offset_adjacent x y i :
  (i < 4)%nat →
  adjacent (x, y) (x + coords.x (nth i dir_offsets (coords.make 0 0)),
                   y + coords.y (nth i dir_offsets (coords.make 0 0))).
Proof.
  intros Hi. unfold adjacent.
  destruct i as [|[|[|[|i]]]]; [simpl; lia..|lia].
Qed.

Lemma arrow_adjacent x y c :
  is_arrow c →
  adjacent (x, y) (x + coords.x (Analysis.dirs c), y + coords.y (Analysis.dirs c)).
Proof.
  unfold adjacent. intros [-> | [-> | [-> | ->]]]; simpl; lia.
Qed.

(** ** One neighbour *)

Lemma Inv_head maze w h dist dirs item q :
  Inv maze w h dist dirs (item :: q) →
  inb w h (qitem.x item) (qitem.y item) ∧
  get2 0 dist (qitem.x item) (qitem.y item) = qitem.distance item ∧
  0 ≤ qitem.distance item ∧
  qitem.distance item + Z.of_nat (unassigned w h dist) < w * h.
Proof.
  intros HInv. pose proof (inv_queue _ _ _ _ _ _ HInv) as Hq.
  apply Forall_cons in Hq as [(Hb & Hd & H0) _].
  repeat split; try done; try apply Hb.
  rewrite <- Hd. apply (inv_bound _ _ _ _ _ _ HInv); [done|lia].
Qed.

(** Under the invariant no stored distance leaves the range on which
    [store] and [qd] are the identity, so the loop with fixed-width
    integers takes the same step as the loop over [Z]. *)
Lemma visit_pure store qd maze w h item dist dirs q i :
  (∀ z, 0 ≤ z < w * h → store z = z) →
  (∀ z, 0 ≤ z < w * h → qd z = z) →
  Inv maze w h dist dirs (item :: q) →
  visit store qd maze w h item (locals.make dist dirs q) i =
  visit id id maze w h item (locals.make dist dirs q) i.
Proof.
  intros Hstore Hqd HInv.
  destruct (Inv_head _ _ _ _ _ _ _ HInv) as (Hb & Hd & H0 & Hlt).
  unfold visit. cbn [locals.distances locals.directions locals.q].
  set (x' := qitem.x item + _). set (y' := qitem.y item + _).
  destruct ((0 <=? x') && (x' <? w) && (0 <=? y') && (y' <? h)) eqn:Hchk; [|done].
  destruct ((0 <=? get2 0 maze x' y') && (get2 0 dist x' y' =? -1)) eqn:Hc; [|done].
  apply andb_prop in Hc as [_ Hc]. apply Z.eqb_eq in Hc.
  assert (inb w h x' y') as Hb'.
  { unfold inb. repeat (apply andb_prop in Hchk as [Hchk ?]). lia. }
  pose proof (unassigned_pos w h dist x' y' Hb' Hc).
  unfold id. rewrite Hstore, Hqd by lia. done.
Qed.

Lemma visit_inv maze w h item dist dirs q i :
  (i < 4)%nat →
  Inv maze w h dist dirs (item :: q) →
  let st' := visit id id maze w h item (locals.make dist dirs q) i in
  let x' := qitem.x item + coords.x (nth i dir_offsets (coords.make 0 0)) in
  let y' := qitem.y item + coords.y (nth i dir_offsets (coords.make 0 0)) in
  Inv maze w h (locals.distances st') (locals.directions st') (item :: locals.q st')
  ∧ (length (locals.q st') + unassigned w h (locals.distances st')
     = length q + unassigned w h dist)%nat
  ∧ (∀ x y, get2 0 dist x y ≠ -1 →
       get2 0 (locals.distances st') x y = get2 0 dist x y)
  ∧ (passable maze w h (x', y') → get2 0 (locals.distances st') x' y' ≠ -1)
  ∧ (∀ it, it ∈ locals.q st' →
       it ∈ q ∨ get2 0 dist (qitem.x it) (qitem.y it) = -1).
Proof.
  intros Hi HInv.
  destruct (Inv_head _ _ _ _ _ _ _ HInv) as (Hb & Hd & H0 & Hlt).
  destruct (dirs_dir_chars i Hi) as (Harrow & Hdx & Hdy).
  unfold visit. cbn [locals.distances locals.directions locals.q].
  set (x' := qitem.x item + _). set (y' := qitem.y item + _).
  set (k := qitem.distance item) in *.
  set (ch := nth i dir_chars " "%char) in *.
  cbv zeta.
  destruct ((0 <=? x') && (x' <? w) && (0 <=? y') && (y' <? h)) eqn:Hchk; cycle 1.
  { cbn [locals.distances locals.directions locals.q].
    split; [done|]. split; [done|]. split; [done|]. split; [|by left].
    intros [[Hx Hy] _]. simpl in Hx, Hy.
    apply not_true_iff_false in Hchk. exfalso. apply Hchk.
    rewrite !andb_true_iff, !Z.leb_le, !Z.ltb_lt. lia. }
  assert (inb w h x' y') as Hb'.
  { unfold inb. repeat (apply andb_prop in Hchk as [Hchk ?]). lia. }
  destruct ((0 <=? get2 0 maze x' y') && (get2 0 dist x' y' =? -1)) eqn:Hc; cycle 1.
  { cbn [locals.distances locals.directions locals.q].
    split; [done|]. split; [done|]. split; [done|]. split; [|by left].
    intros [_ Hm]. simpl in Hm. intros Hun.
    apply not_true_iff_false in Hc. apply Hc.
    rewrite andb_true_iff, Z.leb_le, Z.eqb_eq. done. }
  apply andb_prop in Hc as [Hm Hun]. apply Z.leb_le in Hm. apply Z.eqb_eq in Hun.
  cbn [locals.distances locals.directions locals.q]. unfold id.
  destruct HInv as [Hsd Hsr Hcell Hbound Hq Hsorted Hnodup Hlevel Hclosed].
  pose proof (unassigned_set2 w h dist x' y' (k + 1) Hsd Hb' Hun ltac:(lia)) as HU.
  assert (∀ x y, get2 0 dist x y ≠ -1 → (x', y') ≠ (x, y)) as Hfresh.
  { intros x y Hxy Heq. injection Heq as <- <-. done. }
  assert (∀ x y, get2 0 dist x y ≠ -1 →
            get2 0 (set2 dist x' y' (k + 1)) x y = get2 0 dist x y) as Hframe.
  { intros x y Hxy. apply get2_set2_ne; [apply Hb'..|by apply Hfresh]. }
  assert (get2 0 (set2 dist x' y' (k + 1)) x' y' = k + 1) as Hnew.
  { by apply (get2_set2_eq _ w h). }
  split; [|split; [|split; [|split]]].
  - split.
    + by apply shaped_set2.
    + by apply shaped_set2.
    + intros x y Hxy. unfold cell_ok.
      destruct (decide ((x', y') = (x, y))) as [Heq|Hne].
      * injection Heq as <- <-. rewrite Hnew, (get2_set2_eq _ w h) by done.
        right. right.
        destruct (Hcell x' y' Hxy) as [(_ & [[? _]|(_ & Hm1 & _)])|[(? & _)|(? & _)]];
          try lia.
        split; [lia|]. split; [done|]. split; [done|]. split; [done|].
        cbv zeta. fold ch. rewrite Hdx, Hdy.
        replace (x' + - _) with (qitem.x item) by (subst x'; lia).
        replace (y' + - _) with (qitem.y item) by (subst y'; lia).
        split; [done|]. rewrite Hframe by lia. lia.
      * rewrite !get2_set2_ne by (try apply Hb'; done).
        destruct (Hcell x y Hxy) as [?|[?|(Hd0 & ? & ? & ? & Hbo & Hdo)]];
          [by left|by right; left|].
        right. right. repeat (split; [done|]). cbv zeta in *.
        rewrite Hframe; [done|lia].
    + intros x y Hxy Hass.
      destruct (decide ((x', y') = (x, y))) as [Heq|Hne].
      * injection Heq as <- <-. rewrite Hnew. lia.
      * rewrite get2_set2_ne in Hass |- * by (try apply Hb'; done).
        specialize (Hbound x y Hxy Hass). lia.
    + apply Forall_cons. split.
      { rewrite Hframe by lia. done. }
      apply Forall_app. split.
      * eapply Forall_impl; [exact (proj2 (proj1 (Forall_cons _ _ _) Hq))|].
        intros it (? & ? & ?). rewrite Hframe by lia. done.
      * constructor; [|constructor]. simpl. rewrite Hnew. split; [done|]. lia.
    + apply (StronglySorted_snoc _ (item :: q)); [done|].
      apply Forall_forall. intros it Hit. simpl.
      pose proof (proj1 (Forall_forall _ _) Hq it Hit) as (Hib & Hid & Hi0).
      rewrite <- Hid. apply (Hlevel _ _ item); [done|lia|by left].
    + change (item :: q ++ [qitem.make x' y' (k + 1)])
        with ((item :: q) ++ [qitem.make x' y' (k + 1)]).
      rewrite fmap_app. apply NoDup_app. split; [done|]. split; [|apply NoDup_singleton].
      intros c Hc Hc'. apply list_elem_of_singleton in Hc'. subst c.
      apply list_elem_of_fmap in Hc as (it & Heq & Hit).
      pose proof (proj1 (Forall_forall _ _) Hq it Hit) as (_ & Hid & Hi0).
      unfold cell_of in Heq. simpl in Heq. injection Heq as Hx Hy.
      rewrite <- Hx, <- Hy in Hid. lia.
    + intros x y it Hxy Hass Hit.
      assert (k ≤ qitem.distance it ∨ qitem.distance it = k + 1) as Hkit.
      { change (item :: q ++ [qitem.make x' y' (k + 1)])
          with ((item :: q) ++ [qitem.make x' y' (k + 1)]) in Hit.
        apply elem_of_app in Hit as [Hit|Hit].
        - left. apply elem_of_cons in Hit as [->|Hit]; [done|].
          apply StronglySorted_inv in Hsorted as [_ Hall].
          by apply (proj1 (Forall_forall _ _) Hall).
        - right. apply list_elem_of_singleton in Hit. by subst it. }
      destruct (decide ((x', y') = (x, y))) as [Heq|Hne].
      * injection Heq as <- <-. rewrite Hnew. lia.
      * rewrite get2_set2_ne in Hass |- * by (try apply Hb'; done).
        pose proof (Hlevel x y item Hxy Hass ltac:(by left)). fold k in H. lia.
    + intros x y Hxy Hass.
      destruct (decide ((x', y') = (x, y))) as [Heq|Hne].
      * injection Heq as <- <-. left. exists (qitem.make x' y' (k + 1)).
        split; [|done]. right. apply elem_of_app. right. by left.
      * rewrite get2_set2_ne in Hass by (try apply Hb'; done).
        destruct (Hclosed x y Hxy Hass) as [(it & Hit & ? & ?)|Hexp].
        -- left. exists it. split; [|done].
           apply elem_of_cons in Hit as [->|Hit]; [by left|].
           right. apply elem_of_app. by left.
        -- right. intros x2 y2 Hadj Hpass.
           destruct (Hexp x2 y2 Hadj Hpass) as [Hn2 Hle].
           rewrite !Hframe by done. done.
  - rewrite length_app. simpl. lia.
  - exact Hframe.
  - intros _. rewrite Hnew. lia.
  - intros it Hit. apply elem_of_app in Hit as [Hit|Hit]; [by left|].
    apply list_elem_of_singleton in Hit. subst it. by right.
Qed.

(** ** One iteration of the loop *)

Lemma visits_inv maze w h item (l : list nat) st :
  Forall (λ i, (i < 4)%nat) l →
  Inv maze w h (locals.distances st) (locals.directions st) (item :: locals.q st) →
  let st' := foldl (visit id id maze w h item) st l in
  Inv maze w h (locals.distances st') (locals.directions st') (item :: locals.q st')
  ∧ (length (locals.q st') + unassigned w h (locals.distances st')
     = length (locals.q st) + unassigned w h (locals.distances st))%nat
  ∧ (∀ x y, get2 0 (locals.distances st) x y ≠ -1 →
       get2 0 (locals.distances st') x y = get2 0 (locals.distances st) x y)
  ∧ (∀ i, i ∈ l →
       let x' := qitem.x item + coords.x (nth i dir_offsets (coords.make 0 0)) in
       let y' := qitem.y item + coords.y (nth i dir_offsets (coords.make 0 0)) in
       passable maze w h (x', y') → get2 0 (locals.distances st') x' y' ≠ -1)
  ∧ (∀ it, it ∈ locals.q st' →
       it ∈ locals.q st ∨
       get2 0 (locals.distances st) (qitem.x it) (qitem.y it) = -1).
Proof.
  intros Hl. revert st. induction Hl as [|i l Hi Hl IH]; intros st HInv.
  - simpl. split; [done|]. split; [done|]. split; [done|]. split; [|by left].
    intros i Hin. by apply elem_of_nil in Hin.
  - destruct st as [dist dirs q]. cbn [locals.distances locals.directions locals.q] in *.
    destruct (visit_inv maze w h item dist dirs q i Hi HInv)
      as (HInv1 & Hm1 & Hf1 & Hd1 & Hq1).
    destruct (IH _ HInv1) as (HInv2 & Hm2 & Hf2 & Hd2 & Hq2).
    cbn [foldl]. split; [exact HInv2|]. split; [lia|]. split; [|split].
    + intros x y Hxy. rewrite Hf2; [by apply Hf1|]. by rewrite Hf1.
    + intros j Hj. apply elem_of_cons in Hj as [->|Hj]; [|by apply Hd2].
      cbv zeta. intros Hpass. rewrite Hf2; by apply Hd1.
    + intros it Hit. destruct (Hq2 it Hit) as [Hin|Hun]; [by apply Hq1|].
      right. destruct (decide (get2 0 dist (qitem.x it) (qitem.y it) = -1)) as [|Hne];
        [done|].
      rewrite Hf1 in Hun; done.
Qed.

Lemma visits_pure store qd maze w h item (l : list nat) st :
  (∀ z, 0 ≤ z < w * h → store z = z) →
  (∀ z, 0 ≤ z < w * h → qd z = z) →
  Forall (λ i, (i < 4)%nat) l →
  Inv maze w h (locals.distances st) (locals.directions st) (item :: locals.q st) →
  foldl (visit store qd maze w h item) st l = foldl (visit id id maze w h item) st l.
Proof.
  intros Hstore Hqd Hl. revert st. induction Hl as [|i l Hi Hl IH]; intros st HInv; [done|].
  destruct st as [dist dirs q]. cbn [locals.distances locals.directions locals.q] in *.
  cbn [foldl]. rewrite (visit_pure store qd) by done.
  apply IH. by apply visit_inv.
Qed.

Lemma range4 : Forall (λ i, (i < 4)%nat) (seq 0 4).
Proof. repeat constructor; lia. Qed.

(** Once its four neighbours have been visited the front item leaves the
    queue. *)
Lemma pop_inv maze w h dist dirs item q :
  Inv maze w h dist dirs (item :: q) →
  (∀ i, (i < 4)%nat →
     let x' := qitem.x item + coords.x (nth i dir_offsets (coords.make 0 0)) in
     let y' := qitem.y item + coords.y (nth i dir_offsets (coords.make 0 0)) in
     passable maze w h (x', y') → get2 0 dist x' y' ≠ -1) →
  Inv maze w h dist dirs q.
Proof.
  intros HInv Hdone.
  destruct (Inv_head _ _ _ _ _ _ _ HInv) as (Hb & Hd & H0 & Hlt).
  destruct HInv as [Hsd Hsr Hcell Hbound Hq Hsorted Hnodup Hlevel Hclosed].
  split; try done.
  - by apply Forall_cons in Hq as [_ Hq].
  - by apply StronglySorted_inv in Hsorted as [Hsorted _].
  - rewrite fmap_cons in Hnodup. by apply NoDup_cons in Hnodup as [_ Hnodup].
  - intros x y it Hxy Hass Hit. apply Hlevel; [done..|by right].
  - intros x y Hxy Hass.
    destruct (Hclosed x y Hxy Hass) as [(it & Hit & Hx & Hy)|Hexp]; [|by right].
    apply elem_of_cons in Hit as [->|Hit]; [|left; by exists it].
    right. subst x y. intros x' y' Hadj Hpass.
    destruct (adjacent_offset _ _ _ _ Hadj) as (i & Hi & -> & ->).
    pose proof (Hdone i Hi Hpass) as Hne. split; [done|].
    rewrite Hd. apply Hlevel; [apply Hpass|done|by left].
Qed.

Lemma expand_inv maze w h dist dirs item rest :
  Inv maze w h dist dirs (item :: rest) →
  let st' := foldl (visit id id maze w h item) (locals.make dist dirs rest) (seq 0 4) in
  Inv maze w h (locals.distances st') (locals.directions st') (locals.q st')
  ∧ (length (locals.q st') + unassigned w h (locals.distances st')
     = length rest + unassigned w h dist)%nat.
Proof.
  intros HInv.
  destruct (visits_inv maze w h item (seq 0 4) (locals.make dist dirs rest) range4 HInv)
    as (HInv' & Hm & _ & Hdone & _).
  split; [|exact Hm].
  apply (pop_inv _ _ _ _ _ item); [done|].
  intros i Hi. apply Hdone. apply elem_of_seq. lia.
Qed.

(** ** The whole loop *)

(** With fuel beyond the number of queued plus unassigned cells the loop
    runs to an empty queue. *)
Lemma bfs_terminates maze w h fuel st :
  Inv maze w h (locals.distances st) (locals.directions st) (locals.q st) →
  (length (locals.q st) + unassigned w h (locals.distances st) < fuel)%nat →
  ∃ st', bfs id id maze w h fuel st = Return st' ∧ locals.q st' = [] ∧
    Inv maze w h (locals.distances st') (locals.directions st') [].
Proof.
  revert st. induction fuel as [|fuel IH]; intros st HInv Hfuel; [lia|].
  destruct st as [dist dirs [|item rest]]; cbn [locals.distances locals.directions locals.q] in *.
  - exists (locals.make dist dirs []). by simpl.
  - destruct (expand_inv _ _ _ _ _ _ _ HInv) as [HInv' Hm].
    cbn [bfs locals.distances locals.directions locals.q].
    apply IH; [done|]. simpl in Hfuel. lia.
Qed.

Lemma bfs_pure store qd maze w h fuel st :
  (∀ z, 0 ≤ z < w * h → store z = z) →
  (∀ z, 0 ≤ z < w * h → qd z = z) →
  Inv maze w h (locals.distances st) (locals.directions st) (locals.q st) →
  bfs store qd maze w h fuel st = bfs id id maze w h fuel st.
Proof.
  intros Hstore Hqd. revert st. induction fuel as [|fuel IH]; intros st HInv; [done|].
  destruct st as [dist dirs [|item rest]]; cbn [locals.distances locals.directions locals.q] in *;
    [done|].
  cbn [bfs locals.distances locals.directions locals.q].
  rewrite (visits_pure store qd) by (done || apply range4).
  apply IH. by apply expand_inv.
Qed.

(** More fuel does not change a result. *)
Lemma bfs_fuel_mono store qd maze w h fuel fuel' st st' :
  bfs store qd maze w h fuel st = Return st' → (fuel ≤ fuel')%nat →
  bfs store qd maze w h fuel' st = Return st'.
Proof.
  revert fuel' st. induction fuel as [|fuel IH]; intros fuel' st Hrun Hle; [done|].
  destruct fuel' as [|fuel']; [lia|].
  simpl in *. destruct (locals.q st); [done|]. apply IH; [done|lia].
Qed.

(** ** The scan that seeds the queue *)

Lemma read2_get2 {A} (d : A) w h (a : matrix A) x y :
  shaped w h a → inb w h x y → read2 a x y = Some (get2 d a x y).
Proof.
  intros Hs Hi. destruct (read2_inb w h a x y Hs Hi) as [v Hv].
  by rewrite (get2_read2 d _ _ _ _ Hv).
Qed.

Lemma matrix_ext_get2 {A} (d : A) w h (a b : matrix A) :
  shaped w h a → shaped w h b →
  (∀ x y, inb w h x y → get2 d a x y = get2 d b x y) → a = b.
Proof.
  intros Ha Hb Hext. apply (matrix_ext w h); [done..|].
  intros x y Hi. rewrite (read2_get2 d w h a), (read2_get2 d w h b) by done.
  f_equal. by apply Hext.
Qed.

(** Two nested [for] loops visit the coordinates in row-major order. *)
Lemma nested_loops {S} (f : S → Z → Z → S) (xs ys : list Z) (s : S) :
  foldl (λ s x, foldl (λ s y, f s x y) s ys) s xs =
  foldl (λ s c, f s c.1 c.2) s (x ← xs; y ← ys; [(x, y)]).
Proof.
  revert s. induction xs as [|x xs IH]; intros s; [done|].
  rewrite bind_cons, foldl_app. cbn [foldl]. rewrite IH. f_equal.
  clear IH. revert s. induction ys as [|y ys IHy]; intros s; [done|].
  rewrite bind_cons. simpl. apply IHy.
Qed.

Lemma scan_list maze w h (l : list (Z * Z)) st :
  NoDup l → Forall (λ c, inb w h c.1 c.2) l →
  shaped w h (locals.distances st) → shaped w h (locals.directions st) →
  (∀ x y, (x, y) ∈ l →
     get2 0 (locals.distances st) x y = -1 ∧
     get2 "000"%char (locals.directions st) x y = " "%char) →
  let st' := foldl (λ st c, scan_cell maze st c.1 c.2) st l in
  shaped w h (locals.distances st') ∧ shaped w h (locals.directions st') ∧
  (∀ x y, (x, y) ∉ l →
     get2 0 (locals.distances st') x y = get2 0 (locals.distances st) x y ∧
     get2 "000"%char (locals.directions st') x y
       = get2 "000"%char (locals.directions st) x y) ∧
  (∀ x y, (x, y) ∈ l →
     get2 0 (locals.distances st') x y = seed_distance (get2 0 maze x y) ∧
     get2 "000"%char (locals.directions st') x y = seed_direction (get2 0 maze x y)) ∧
  locals.q st' = locals.q st ++
    ((λ c, qitem.make c.1 c.2 0) <$> filter (λ c, get2 0 maze c.1 c.2 = 1) l).
Proof.
  intros Hnd. revert st. induction Hnd as [|[x y] l Hnotin Hnd IH];
    intros st Hinb Hsd Hsr Hfresh.
  - simpl. split; [done|]. split; [done|]. split; [done|].
    split; [|by rewrite app_nil_r]. intros x y Hin. by apply elem_of_nil in Hin.
  - apply Forall_cons in Hinb as [Hxy Hinb]. simpl in Hxy.
    cbn [foldl fst snd].
    set (st1 := scan_cell maze st x y).
    destruct (Hfresh x y ltac:(by left)) as [Hd0 Hr0].
    assert (shaped w h (locals.distances st1) ∧ shaped w h (locals.directions st1) ∧
      (∀ x' y', (x, y) ≠ (x', y') →
         get2 0 (locals.distances st1) x' y' = get2 0 (locals.distances st) x' y' ∧
         get2 "000"%char (locals.directions st1) x' y'
           = get2 "000"%char (locals.directions st) x' y') ∧
      get2 0 (locals.distances st1) x y = seed_distance (get2 0 maze x y) ∧
      get2 "000"%char (locals.directions st1) x y = seed_direction (get2 0 maze x y) ∧
      locals.q st1 = locals.q st ++
        (if decide (get2 0 maze x y = 1) then [qitem.make x y 0] else []))
      as (Hsd1 & Hsr1 & Hframe1 & Hd1 & Hr1 & Hq1).
    { subst st1. unfold scan_cell, seed_distance, seed_direction.
      destruct (get2 0 maze x y <? 0) eqn:Hneg.
      - apply Z.ltb_lt in Hneg.
        rewrite (proj2 (Z.eqb_neq _ _)), decide_False by lia.
        cbn [locals.distances locals.directions locals.q].
        split; [done|]. split; [by apply shaped_set2|]. split.
        { intros x' y' Hne. split; [done|]. apply get2_set2_ne; [apply Hxy..|done]. }
        split; [done|]. split; [by apply (get2_set2_eq _ w h)|by rewrite app_nil_r].
      - destruct (get2 0 maze x y =? 1) eqn:Hone.
        + apply Z.eqb_eq in Hone. rewrite decide_True by done.
          cbn [locals.distances locals.directions locals.q].
          split; [by apply shaped_set2|]. split; [by apply shaped_set2|]. split.
          { intros x' y' Hne. split; apply get2_set2_ne; try apply Hxy; done. }
          split; [by apply (get2_set2_eq _ w h)|].
          split; [by apply (get2_set2_eq _ w h)|done].
        + apply Z.eqb_neq in Hone. rewrite decide_False by done.
          split; [done|]. split; [done|]. split; [done|].
          split; [done|]. split; [done|by rewrite app_nil_r]. }
    destruct (IH st1 Hinb Hsd1 Hsr1) as (Hsd2 & Hsr2 & Hframe2 & Hseed2 & Hq2).
    { intros x' y' Hin.
      destruct (Hframe1 x' y') as [-> ->]; [by intros [= <- <-]|].
      apply Hfresh. by right. }
    split; [done|]. split; [done|]. split; [|split].
    + intros x' y' Hnin. apply not_elem_of_cons in Hnin as [Hne Hnin].
      destruct (Hframe2 x' y' Hnin) as [-> ->]. apply Hframe1. congruence.
    + intros x' y' Hin. apply elem_of_cons in Hin as [[= -> ->]|Hin].
      * destruct (Hframe2 x y Hnotin) as [-> ->]. done.
      * by apply Hseed2.
    + rewrite Hq2, Hq1, <- app_assoc. f_equal.
      rewrite filter_cons. cbn [fst snd]. by destruct (decide _).
Qed.

Lemma filter_length_split {A} (P : A → Prop) `{∀ x, Decision (P x)} (l : list A) :
  (length (filter P l) + length (filter (λ x, ¬ P x) l) = length l)%nat.
Proof.
  induction l as [|a l IH]; [done|].
  rewrite !filter_cons. destruct (decide (P a)), (decide (¬ P a)); simpl; tauto || lia.
Qed.

Lemma StronglySorted_const {A} (f : A → Z) (l : list A) (k : Z) :
  Forall (λ a, f a = k) l → StronglySorted (λ a b, f a ≤ f b) l.
Proof.
  induction 1 as [|a l Ha Hl IH]; constructor; [done|].
  eapply Forall_impl; [exact Hl|]. simpl. intros; lia.
Qed.

Lemma scan_seeded maze w h : seeded maze w h (scan maze w h).
Proof.
  unfold scan. rewrite nested_loops. fold (cells w h).
  set (st0 := locals.make (np_full w h (-1)) (np_full w h " "%char) []).
  destruct (scan_list maze w h (cells w h) st0) as (Hsd & Hsr & _ & Hseed & Hq).
  - apply NoDup_cells.
  - apply Forall_forall. intros [x y] Hin. by apply elem_of_cells.
  - apply shaped_np_full.
  - apply shaped_np_full.
  - intros x y Hin. apply elem_of_cells in Hin. simpl.
    by rewrite !get2_np_full.
  - split; [done|]. split; [done|]. split; [|done].
    intros x y Hi. apply Hseed. by apply elem_of_cells.
Qed.

Lemma seeded_unique maze w h st1 st2 :
  seeded maze w h st1 → seeded maze w h st2 → st1 = st2.
Proof.
  intros (Hd1 & Hr1 & Hc1 & Hq1) (Hd2 & Hr2 & Hc2 & Hq2).
  destruct st1 as [d1 r1 q1], st2 as [d2 r2 q2]. simpl in *. f_equal.
  - apply (matrix_ext_get2 0 w h); [done..|]. intros x y Hi.
    destruct (Hc1 x y Hi) as [-> _]. by destruct (Hc2 x y Hi) as [-> _].
  - apply (matrix_ext_get2 "000"%char w h); [done..|]. intros x y Hi.
    destruct (Hc1 x y Hi) as [_ ->]. by destruct (Hc2 x y Hi) as [_ ->].
  - congruence.
Qed.

Lemma cell_of_seed (l : list (Z * Z)) :
  cell_of <$> ((λ c, qitem.make c.1 c.2 0) <$> l) = l.
Proof. induction l as [|[x y] l IH]; [done|]. by rewrite !fmap_cons, IH. Qed.

Lemma seeded_Inv maze w h st :
  seeded maze w h st →
  Inv maze w h (locals.distances st) (locals.directions st) (locals.q st) ∧
  (length (locals.q st) + unassigned w h (locals.distances st)
   = Z.to_nat w * Z.to_nat h)%nat.
Proof.
  intros (Hsd & Hsr & Hc & Hq).
  assert (∀ x y, inb w h x y → get2 0 (locals.distances st) x y ≠ -1 →
            get2 0 maze x y = 1 ∧ get2 0 (locals.distances st) x y = 0) as Hass.
  { intros x y Hi. destruct (Hc x y Hi) as [-> _]. unfold seed_distance.
    destruct (get2 0 maze x y =? 1) eqn:E; [|done]. by apply Z.eqb_eq in E. }
  assert (unassigned w h (locals.distances st)
          = length (filter (λ c, ¬ get2 0 maze c.1 c.2 = 1) (cells w h))) as HU.
  { unfold unassigned. f_equal. apply filter_ext_in. intros [x y] Hin.
    apply elem_of_cells in Hin. simpl. destruct (Hc x y Hin) as [-> _].
    unfold seed_distance. destruct (get2 0 maze x y =? 1) eqn:E.
    - apply Z.eqb_eq in E. split; [done|]. by intros [].
    - apply Z.eqb_neq in E. done. }
  assert (∀ it, it ∈ locals.q st →
            inb w h (qitem.x it) (qitem.y it) ∧
            get2 0 maze (qitem.x it) (qitem.y it) = 1 ∧ qitem.distance it = 0) as Hitems.
  { intros it. rewrite Hq. intros Hin.
    apply list_elem_of_fmap in Hin as ([x y] & -> & Hin).
    apply list_elem_of_filter in Hin as [Hg Hin]. apply elem_of_cells in Hin. done. }
  split; [split|].
  - done.
  - done.
  - intros x y Hi. unfold cell_ok. destruct (Hc x y Hi) as [-> ->].
    unfold seed_distance, seed_direction.
    destruct (get2 0 maze x y <? 0) eqn:Hneg.
    + apply Z.ltb_lt in Hneg. rewrite (proj2 (Z.eqb_neq _ _)) by lia.
      left. split; [done|]. by left.
    + apply Z.ltb_ge in Hneg. destruct (get2 0 maze x y =? 1) eqn:Hone.
      * apply Z.eqb_eq in Hone. right. by left.
      * apply Z.eqb_neq in Hone. left. split; [done|]. by right.
  - intros x y Hi Hne. destruct (Hass x y Hi Hne) as [Hg ->].
    assert (unassigned w h (locals.distances st) < length (cells w h))%nat.
    { unfold unassigned. apply (length_filter_lt _ _ (x, y)); [by apply elem_of_cells|done]. }
    rewrite length_cells in H. destruct Hi. nia.
  - apply Forall_forall. intros it Hin.
    destruct (Hitems it Hin) as (Hi & Hg & Hd). split; [done|].
    destruct (Hc _ _ Hi) as [-> _].
    unfold seed_distance. rewrite (proj2 (Z.eqb_eq _ _) Hg). lia.
  - apply (StronglySorted_const _ _ 0). apply Forall_forall. intros it Hin.
    by destruct (Hitems it Hin) as (_ & _ & ->).
  - rewrite Hq, cell_of_seed. apply NoDup_filter, NoDup_cells.
  - intros x y it Hi Hne Hin. destruct (Hass x y Hi Hne) as [_ ->].
    destruct (Hitems it Hin) as (_ & _ & ->). lia.
  - intros x y Hi Hne. destruct (Hass x y Hi Hne) as [Hg _]. left.
    exists (qitem.make x y 0). split; [|done]. rewrite Hq.
    apply list_elem_of_fmap. exists (x, y). split; [done|].
    apply list_elem_of_filter. split; [done|by apply elem_of_cells].
  - rewrite HU, Hq, length_fmap, <- length_cells. apply filter_length_split.
Qed.

(** ** What the final arrays say *)

Lemma adjacent_sym a b : adjacent a b → adjacent b a.
Proof. unfold adjacent. lia. Qed.

(** Every cell with a distance has a walk of that many hops to a goal. *)
Lemma Inv_sound maze w h dist dirs lq (n : nat) x y :
  Inv maze w h dist dirs lq → inb w h x y → get2 0 dist x y = Z.of_nat n →
  ∃ p, path_to_goal maze w h (x, y) p ∧ length p = n.
Proof.
  intros HInv. revert x y. induction n as [|n IH]; intros x y Hi Hd.
  - exists []. split; [|done]. simpl.
    destruct (inv_cell _ _ _ _ _ _ HInv x y Hi) as [(? & _)|[(_ & Hm & _)|(? & _)]];
      [lia| |lia].
    unfold passable, is_goal. simpl. rewrite Hm. done.
  - destruct (inv_cell _ _ _ _ _ _ HInv x y Hi)
      as [(? & _)|[(? & _)|(_ & Hm & _ & Harr & Hbo & Hdo)]]; [lia..|].
    cbv zeta in Hbo, Hdo.
    destruct (IH _ _ Hbo) as (p & Hp & Hlen); [lia|].
    eexists (_ :: p). split; [|by rewrite <- Hlen].
    cbn [path_to_goal]. split; [done|]. split; [|exact Hp].
    by apply arrow_adjacent.
Qed.

Lemma path_to_goal_passable maze w h c p :
  path_to_goal maze w h c p → passable maze w h c.
Proof. destruct p; simpl; tauto. Qed.

(** When the queue is empty no walk to a goal is shorter than the
    distance of its first cell. *)
Lemma Inv_complete maze w h dist dirs p x y :
  Inv maze w h dist dirs [] → path_to_goal maze w h (x, y) p →
  get2 0 dist x y ≠ -1 ∧ get2 0 dist x y ≤ Z.of_nat (length p).
Proof.
  intros HInv. revert x y. induction p as [|[x' y'] p IH]; intros x y Hp.
  - destruct Hp as [[Hi Hm] Hg]. unfold is_goal in Hg. simpl in *.
    destruct (inv_cell _ _ _ _ _ _ HInv x y Hi)
      as [(_ & [(? & _)|(_ & ? & _)])|[(-> & _)|(_ & _ & ? & _)]]; try lia.
  - destruct Hp as [Hpass [Hadj Hp]].
    destruct (IH _ _ Hp) as [Hne Hle].
    destruct (path_to_goal_passable _ _ _ _ _ Hp) as [Hi' _]. simpl in Hi'.
    destruct (inv_closed _ _ _ _ _ _ HInv x' y' Hi' Hne) as [(it & Hit & _)|Hexp].
    { by apply elem_of_nil in Hit. }
    destruct (Hexp x y (adjacent_sym _ _ Hadj) Hpass) as [Hne' Hle'].
    split; [done|]. simpl length. lia.
Qed.

Lemma Inv_distance_range maze w h dist dirs lq x y :
  Inv maze w h dist dirs lq → inb w h x y →
  -1 ≤ get2 0 dist x y < w * h.
Proof.
  intros HInv Hi.
  destruct (decide (get2 0 dist x y = -1)) as [->|Hne]; [destruct Hi; nia|].
  pose proof (inv_bound _ _ _ _ _ _ HInv x y Hi Hne).
  destruct (inv_cell _ _ _ _ _ _ HInv x y Hi) as [(? & _)|[(? & _)|(? & _)]]; lia.
Qed.

(** ** The flood of [analysis.pyx] *)

Lemma directions2reachable_spec (directions : matrix ascii) w h :
  Analysis.directions2reachable directions w h = true ↔
  ∀ x y, inb w h x y → get2 "000"%char directions x y ≠ " "%char.
Proof.
  unfold Analysis.directions2reachable. rewrite forallb_forall. split.
  - intros Hall x y [Hx Hy].
    specialize (Hall x). rewrite forallb_forall in Hall.
    assert (negb (Ascii.eqb (get2 "000"%char directions x y) " ") = true) as Hn.
    { apply Hall; apply list_elem_of_In, elem_of_seqZ; lia. }
    apply negb_true_iff, Ascii.eqb_neq in Hn. done.
  - intros Hall x Hx. apply forallb_forall. intros y Hy.
    apply list_elem_of_In, elem_of_seqZ in Hx, Hy.
    apply negb_true_iff, Ascii.eqb_neq, Hall. unfold inb. lia.
Qed.

Lemma int32_small w h z : w * h < 2 ^ 31 → 0 ≤ z < w * h → int32 z = z.
Proof. intros Hwh Hz. apply wrap_small; lia. Qed.

Lemma flood_returns maze w h fuel :
  valid_grid maze w h → w * h < Z.of_nat fuel →
  ∃ dist dirs,
    Analysis.flood fuel maze w h
      = Return (dist, dirs, Analysis.directions2reachable dirs w h) ∧
    Inv maze w h dist dirs [].
Proof.
  intros (Hw & Hh & Hs & Hfit) Hfuel.
  destruct (seeded_Inv maze w h _ (scan_seeded maze w h)) as [HInv Hm].
  destruct (bfs_terminates maze w h fuel _ HInv) as (st' & Hrun & Hq & HInv'); [nia|].
  exists (locals.distances st'), (locals.directions st'). split; [|done].
  unfold Analysis.flood.
  rewrite (bfs_pure int32 int32) by (done || intros; by apply (int32_small w h)).
  by rewrite Hrun.
Qed.

(** ** Following the direction field *)

Lemma arrow_not_goal c : is_arrow c → Ascii.eqb c "X" = false.
Proof. intros [-> | [-> | [-> | ->]]]; reflexivity. Qed.

Lemma arrow_not_blocked c :
  is_arrow c → Ascii.eqb c "#" || Ascii.eqb c " " = false.
Proof. intros [-> | [-> | [-> | ->]]]; reflexivity. Qed.

(** From a cell at distance [n] the loop of [build_path] appends [n]
    coordinates, all inside the grid, and stops on a cell at distance [0]. *)
Lemma follow_spec maze w h dist dirs lq (n : nat) :
  Inv maze w h dist dirs lq →
  ∀ fuel x y acc, inb w h x y → get2 0 dist x y = Z.of_nat n → (n < fuel)%nat →
  ∃ trail,
    Analysis.follow fuel dirs x y acc = Return (acc ++ trail) ∧
    length trail = n ∧
    Forall (λ c, inb w h c.1 c.2) trail ∧
    cardinal_steps ((x, y) :: trail) ∧
    ∃ g, last ((x, y) :: trail) = Some g ∧ get2 0 dist g.1 g.2 = 0.
Proof.
  intros HInv. induction n as [|n IH]; intros fuel x y acc Hi Hd Hfuel.
  - destruct fuel as [|fuel]; [lia|]. exists []. cbn [Analysis.follow].
    rewrite (read2_get2 "000"%char w h) by (done || apply HInv).
    destruct (inv_cell _ _ _ _ _ _ HInv x y Hi) as [(? & _)|[(_ & _ & ->)|(? & _)]];
      [lia| |lia].
    simpl. rewrite app_nil_r. repeat split; try done.
    exists (x, y). done.
  - destruct fuel as [|fuel]; [lia|]. cbn [Analysis.follow].
    rewrite (read2_get2 "000"%char w h) by (done || apply HInv).
    destruct (inv_cell _ _ _ _ _ _ HInv x y Hi)
      as [(? & _)|[(? & _)|(_ & _ & _ & Harr & Hbo & Hdo)]]; [lia..|].
    cbv zeta in Hbo, Hdo. rewrite (arrow_not_goal _ Harr). cbv zeta.
    set (x' := x + _) in *. set (y' := y + _) in *.
    destruct (IH fuel x' y' (acc ++ [(x', y')]) Hbo) as (trail & Hrun & Hlen & Hin & Hsteps & Hlast);
      [lia..|].
    exists ((x', y') :: trail). rewrite Hrun, <- app_assoc. split; [done|].
    split; [by rewrite <- Hlen|]. split; [by constructor|]. split.
    + cbn [cardinal_steps]. split; [|done]. by apply arrow_adjacent.
    + by rewrite last_cons_cons.
Qed.

(** ** The analysis object *)

Lemma shape_valid {A} w h (a : matrix A) :
  1 ≤ w → 0 ≤ h → shaped w h a → shape a = (w, h).
Proof.
  intros Hw Hh [Hlen Hrows]. unfold shape.
  destruct a as [|row a]; [simpl in Hlen; lia|].
  apply Forall_cons in Hrows as [Hrow _]. simpl hd.
  rewrite Hlen, Hrow. f_equal; lia.
Qed.

Lemma shaped_astype_int8 w h maze :
  shaped w h maze → shaped w h (astype_int8 maze).
Proof.
  intros [Hlen Hrows]. unfold astype_int8. split.
  - by rewrite length_map.
  - apply Forall_forall. intros row Hrow.
    apply list_elem_of_In, in_map_iff in Hrow as (row0 & <- & Hrow0).
    rewrite length_map.
    apply (proj1 (Forall_forall _ _) Hrows). by apply list_elem_of_In.
Qed.

Lemma get2_astype_int8 maze x y :
  get2 0 (astype_int8 maze) x y = int8 (get2 0 maze x y).
Proof.
  unfold get2, read2, astype_int8.
  destruct ((0 <=? x) && (0 <=? y)); [|done].
  change (map (map int8) maze) with (map int8 <$> maze).
  rewrite list_lookup_fmap. destruct (maze !! Z.to_nat x) as [row|]; [|done]. simpl.
  change (map int8 row) with (int8 <$> row).
  rewrite list_lookup_fmap. by destruct (row !! Z.to_nat y).
Qed.

Lemma valid_astype_int8 maze w h :
  valid_grid maze w h → valid_grid (astype_int8 maze) w h.
Proof.
  intros (Hw & Hh & Hs & Hfit).
  split; [done|]. split; [done|]. split; [by apply shaped_astype_int8|done].
Qed.

Lemma init_returns maze w h fuel :
  valid_grid maze w h → w * h < Z.of_nat fuel →
  ∃ a, Analysis.init fuel maze = Return a ∧
    Inv (astype_int8 maze) w h (distances a) (directions a) [] ∧
    is_reachable a = Analysis.directions2reachable (directions a) w h.
Proof.
  intros Hvalid Hfuel. apply valid_astype_int8 in Hvalid.
  destruct (flood_returns _ w h fuel Hvalid Hfuel) as (dist & dirs & Hrun & HInv).
  unfold Analysis.init. cbv zeta.
  destruct Hvalid as (Hw & Hh & Hs & _).
  rewrite (shape_valid w h) by (done || lia). cbn [fst snd]. rewrite Hrun.
  eexists. split; [done|]. done.
Qed.

(** ** Properties of the flood *)

Lemma valid_example_grid : valid_grid example_grid 3 3.
Proof.
  unfold valid_grid, shaped, example_grid. simpl.
  repeat split; try lia. repeat constructor.
Qed.

(** What the invariant with an empty queue says about the distance of a
    cell. *)
Lemma Inv_distance_field maze w h dist dirs x y :
  Inv maze w h dist dirs [] → inb w h x y →
  (get2 0 maze x y < 0 → get2 0 dist x y = -1) ∧
  (¬ reachable maze w h (x, y) → get2 0 dist x y = -1) ∧
  (get2 0 maze x y = 1 → get2 0 dist x y = 0) ∧
  (reachable maze w h (x, y) → shortest_hops maze w h (x, y) (get2 0 dist x y)).
Proof.
  intros HInv Hi.
  pose proof (Inv_distance_range _ _ _ _ _ _ x y HInv Hi) as Hrange.
  pose proof (inv_cell _ _ _ _ _ _ HInv x y Hi) as Hcell. unfold cell_ok in Hcell.
  split; [|split; [|split]].
  - intros Hwall. destruct Hcell as [(? & _)|[(_ & ? & _)|(_ & ? & _)]]; [done|lia..].
  - intros Hunreach.
    destruct (decide (get2 0 dist x y = -1)) as [|Hne]; [done|].
    destruct (Inv_sound maze w h dist dirs [] (Z.to_nat (get2 0 dist x y)) x y)
      as (p & Hp & _); [done|done|lia|].
    destruct Hunreach. by exists p.
  - intros Hgoal. destruct Hcell as [(_ & [(? & _)|(_ & ? & _)])|[(? & _)|(_ & _ & ? & _)]];
      try done; lia.
  - intros [p Hp].
    destruct (Inv_complete _ _ _ _ _ _ _ _ HInv Hp) as [Hne Hle].
    split.
    + destruct (Inv_sound maze w h dist dirs [] (Z.to_nat (get2 0 dist x y)) x y)
        as (p' & Hp' & Hlen); [done|done|lia|].
      exists p'. split; [done|]. lia.
    + intros p' Hp'. by destruct (Inv_complete _ _ _ _ _ _ _ _ HInv Hp').
Qed.

Lemma arrow_chars c :
  is_arrow c → c ≠ "#"%char ∧ c ≠ " "%char ∧ c ≠ "X"%char.
Proof. intros [-> | [-> | [-> | ->]]]; done. Qed.

Lemma Inv_fields_consistent maze w h dist dirs lq x y :
  Inv maze w h dist dirs lq → inb w h x y →
  (get2 0 dist x y = -1 ↔
     get2 "000"%char dirs x y = "#"%char ∨ get2 "000"%char dirs x y = " "%char) ∧
  (get2 0 dist x y = 0 ↔ get2 "000"%char dirs x y = "X"%char).
Proof.
  intros HInv Hi.
  pose proof (inv_cell _ _ _ _ _ _ HInv x y Hi) as Hcell. unfold cell_ok in Hcell.
  destruct Hcell as [(Hd & [(_ & Hc)|(_ & _ & Hc)])|[(Hd & _ & Hc)|(Hd & _ & _ & Harr & _)]].
  - rewrite Hd, Hc. split; [split; [by left|done]|]. split; [lia|done].
  - rewrite Hd, Hc. split; [split; [by right|done]|]. split; [lia|done].
  - rewrite Hd, Hc. split; [|done]. split; [lia|]. intros [|]; done.
  - destruct (arrow_chars _ Harr) as (? & ? & ?).
    split; (split; [lia|]); [intros [|]; done|done].
Qed.

(** C4. In the fields the flood returns, a cell's distance is [-1] exactly
    when its direction is ['#'] or [' '], and [0] exactly when its
    direction is ['X']. *)
Theorem flood_fields_consistent maze w h fuel :
  valid_grid maze w h → w * h < Z.of_nat fuel →
  ∃ dist dirs reach,
    Analysis.flood fuel maze w h = Return (dist, dirs, reach) ∧
    ∀ x y, inb w h x y →
      (get2 0 dist x y = -1 ↔
         get2 "000"%char dirs x y = "#"%char ∨ get2 "000"%char dirs x y = " "%char) ∧
      (get2 0 dist x y = 0 ↔ get2 "000"%char dirs x y = "X"%char).
Proof.
  intros Hvalid Hfuel.
  destruct (flood_returns maze w h fuel Hvalid Hfuel) as (dist & dirs & Hrun & HInv).
  exists dist, dirs, (Analysis.directions2reachable dirs w h).
  split; [done|]. intros x y Hi. by apply (Inv_fields_consistent maze w h dist dirs []).
Qed.

Lemma flood_fields_consistent_witness :
  ∃ dist dirs reach,
    Analysis.flood 10 example_grid 3 3 = Return (dist, dirs, reach) ∧
    ∀ x y, inb 3 3 x y →
      (get2 0 dist x y = -1 ↔
         get2 "000"%char dirs x y = "#"%char ∨ get2 "000"%char dirs x y = " "%char) ∧
      (get2 0 dist x y = 0 ↔ get2 "000"%char dirs x y = "X"%char).
Proof.
  apply (flood_fields_consistent example_grid 3 3 10).
  - unfold valid_grid, shaped, example_grid. simpl.
    repeat split; try lia. repeat constructor.
  - lia.
Defined.

(** ** Reachability *)

Lemma not_in_spec (directions : matrix ascii) w h :
  shaped w h directions →
  not_in " "%char directions = true ↔
  ∀ x y, inb w h x y → get2 "000"%char directions x y ≠ " "%char.
Proof.
  intros [Hlen Hrows]. unfold not_in. rewrite negb_true_iff. split.
  - intros Hnone x y Hi Hsp.
    apply not_true_iff_false in Hnone. apply Hnone.
    pose proof (read2_get2 "000"%char w h directions x y (conj Hlen Hrows) Hi) as Hread.
    unfold read2 in Hread. destruct Hi as [Hx Hy].
    rewrite !(proj2 (Z.leb_le _ _)) in Hread by lia. simpl in Hread.
    destruct (directions !! Z.to_nat x) as [row|] eqn:Hrow; [|done]. simpl in Hread.
    apply existsb_exists. exists row. split.
    { eapply list_elem_of_In, list_elem_of_lookup_2, Hrow. }
    apply existsb_exists. exists (get2 "000"%char directions x y). split.
    { eapply list_elem_of_In, list_elem_of_lookup_2, Hread. }
    rewrite Hsp. reflexivity.
  - intros Hall. apply not_true_iff_false. intros Hex.
    apply existsb_exists in Hex as (row & Hrow & Hex).
    apply existsb_exists in Hex as (c & Hc & Heq).
    apply Ascii.eqb_eq in Heq. subst c.
    apply list_elem_of_In, list_elem_of_lookup_1 in Hrow as [i Hrow].
    apply list_elem_of_In, list_elem_of_lookup_1 in Hc as [j Hc].
    pose proof (lookup_lt_Some _ _ _ Hrow) as Hi.
    pose proof (lookup_lt_Some _ _ _ Hc) as Hj.
    rewrite (Forall_lookup_1 _ _ _ _ Hrows Hrow) in Hj.
    apply (Hall (Z.of_nat i) (Z.of_nat j)); [unfold inb; lia|].
    unfold get2, read2. rewrite !(proj2 (Z.leb_le _ _)) by lia. simpl.
    rewrite !Nat2Z.id, Hrow. simpl. by rewrite Hc.
Qed.

(** The test [b' ' not in directions] of the drafts and the scanning
    [directions2reachable] compute the same boolean. *)
Lemma not_in_directions2reachable (directions : matrix ascii) w h :
  shaped w h directions →
  not_in " "%char directions = Analysis.directions2reachable directions w h.
Proof.
  intros Hs. apply eq_true_iff_eq.
  rewrite (not_in_spec _ w h Hs). symmetry. apply directions2reachable_spec.
Qed.

(** C5. The reachability flag returned by the flood is [true] exactly when
    no cell of the direction field holds [' ']; [b' ' not in directions]
    gives the same flag; a grid in which every cell is a wall or a goal is
    reachable. *)
Theorem flood_reachability maze w h fuel :
  valid_grid maze w h → w * h < Z.of_nat fuel →
  ∃ dist dirs reach,
    Analysis.flood fuel maze w h = Return (dist, dirs, reach) ∧
    (reach = true ↔ ∀ x y, inb w h x y → get2 "000"%char dirs x y ≠ " "%char) ∧
    not_in " "%char dirs = reach ∧
    ((∀ x y, inb w h x y → get2 0 maze x y < 0 ∨ get2 0 maze x y = 1) →
     reach = true).
Proof.
  intros Hvalid Hfuel.
  destruct (flood_returns maze w h fuel Hvalid Hfuel) as (dist & dirs & Hrun & HInv).
  exists dist, dirs, (Analysis.directions2reachable dirs w h).
  split; [done|]. split; [apply directions2reachable_spec|].
  split; [apply not_in_directions2reachable, HInv|].
  intros Hall. apply directions2reachable_spec. intros x y Hi Hsp.
  pose proof (inv_cell _ _ _ _ _ _ HInv x y Hi) as Hcell. unfold cell_ok in Hcell.
  rewrite Hsp in Hcell.
  destruct Hcell as [(_ & [(_ & ?)|(? & ? & _)])|[(_ & _ & ?)|(_ & _ & _ & Harr & _)]];
    try done.
  - destruct (Hall x y Hi); lia.
  - by destruct (arrow_chars _ Harr) as (_ & ? & _).
Qed.

Lemma flood_reachability_witness :
  ∃ dist dirs reach,
    Analysis.flood 10 example_grid 3 3 = Return (dist, dirs, reach) ∧
    (reach = true ↔ ∀ x y, inb 3 3 x y → get2 "000"%char dirs x y ≠ " "%char) ∧
    not_in " "%char dirs = reach ∧
    ((∀ x y, inb 3 3 x y → get2 0 example_grid x y < 0 ∨ get2 0 example_grid x y = 1) →
     reach = true).
Proof.
  apply (flood_reachability example_grid 3 3 10).
  - unfold valid_grid, shaped, example_grid. simpl.
    repeat split; try lia. repeat constructor.
  - lia.
Defined.

(** ** Paths *)

Lemma build_path_returns maze w h dist dirs lq fuel row column :
  Inv maze w h dist dirs lq → inb w h row column →
  is_arrow (get2 "000"%char dirs row column) ∨ get2 "000"%char dirs row column = "X"%char →
  get2 0 dist row column < Z.of_nat fuel →
  ∃ p, Analysis.build_path fuel dirs row column = Return p ∧
    Z.of_nat (length p) = get2 0 dist row column + 1 ∧
    head p = Some (row, column) ∧
    (∃ g, last p = Some g ∧ get2 0 dist g.1 g.2 = 0) ∧
    cardinal_steps p ∧
    Forall (λ c, inb w h c.1 c.2) p ∧
    (get2 "000"%char dirs row column = "X"%char → p = [(row, column)]).
Proof.
  intros HInv Hi Htag Hfuel.
  pose proof (Inv_distance_range _ _ _ _ _ _ row column HInv Hi) as Hrange.
  pose proof (inv_cell _ _ _ _ _ _ HInv row column Hi) as Hcell. unfold cell_ok in Hcell.
  assert (get2 0 dist row column ≠ -1 ∧
          (Ascii.eqb (get2 "000"%char dirs row column) "#"
           || Ascii.eqb (get2 "000"%char dirs row column) " ") = false ∧
          (get2 "000"%char dirs row column = "X"%char → get2 0 dist row column = 0))
    as (Hne & Hopen & Hgoal).
  { destruct Hcell as [(_ & [(_ & Hc)|(_ & _ & Hc)])|[(Hd & _ & Hc)|(Hd & _ & _ & Harr & _)]].
    - rewrite Hc in Htag. destruct Htag as [[|[|[|]]]|]; done.
    - rewrite Hc in Htag. destruct Htag as [[|[|[|]]]|]; done.
    - rewrite Hc, Hd. done.
    - split; [lia|]. split; [by apply arrow_not_blocked|].
      intros HX. by destruct (arrow_chars _ Harr) as (_ & _ & ?). }
  destruct (follow_spec maze w h dist dirs lq (Z.to_nat (get2 0 dist row column)) HInv
              fuel row column [(row, column)] Hi) as (trail & Hrun & Hlen & Hin & Hsteps & Hlast);
    [lia..|].
  exists ((row, column) :: trail).
  unfold Analysis.build_path.
  rewrite (read2_get2 "000"%char w h) by (done || apply HInv).
  rewrite Hopen, Hrun. split; [done|]. split; [simpl length; lia|].
  split; [done|]. split; [done|]. split; [done|]. split; [by constructor|].
  intros HX. rewrite (Hgoal HX) in Hlen. by destruct trail.
Qed.

(** C2. From an in-bounds start whose direction is an arrow or ['X'],
    [path] returns [distances[r, c] + 1] coordinates, starting at the
    start, ending on a cell at distance [0], consecutive ones one cardinal
    step apart; a start on a goal gives the one-element path. *)
Theorem path_shortest maze w h fuel row column :
  valid_grid maze w h → w * h < Z.of_nat fuel → inb w h row column →
  ∃ a, Analysis.init fuel maze = Return a ∧
    (is_arrow (get2 "000"%char (directions a) row column) ∨
     get2 "000"%char (directions a) row column = "X"%char →
     ∃ p, Analysis.path fuel a row column = Return p ∧
       Z.of_nat (length p) = get2 0 (distances a) row column + 1 ∧
       head p = Some (row, column) ∧
       (∃ g, last p = Some g ∧ get2 0 (distances a) g.1 g.2 = 0) ∧
       cardinal_steps p ∧
       (get2 "000"%char (directions a) row column = "X"%char → p = [(row, column)])).
Proof.
  intros Hvalid Hfuel Hi.
  destruct (init_returns maze w h fuel Hvalid Hfuel) as (a & Hrun & HInv & _).
  exists a. split; [done|]. intros Htag.
  pose proof (Inv_distance_range _ _ _ _ _ _ row column HInv Hi) as Hrange.
  destruct (build_path_returns _ _ _ _ _ _ fuel row column HInv Hi Htag)
    as (p & Hp & Hlen & Hhead & Hlast & Hsteps & _ & Hgoal); [lia|].
  exists p. done.
Qed.

Lemma path_shortest_witness :
  ∃ a, Analysis.init 10 example_grid = Return a ∧
    (is_arrow (get2 "000"%char (directions a) 0 0) ∨
     get2 "000"%char (directions a) 0 0 = "X"%char →
     ∃ p, Analysis.path 10 a 0 0 = Return p ∧
       Z.of_nat (length p) = get2 0 (distances a) 0 0 + 1 ∧
       head p = Some (0, 0) ∧
       (∃ g, last p = Some g ∧ get2 0 (distances a) g.1 g.2 = 0) ∧
       cardinal_steps p ∧
       (get2 "000"%char (directions a) 0 0 = "X"%char → p = [(0, 0)])).
Proof.
  apply (path_shortest example_grid 3 3 10 0 0).
  - unfold valid_grid, shaped, example_grid. simpl.
    repeat split; try lia. repeat constructor.
  - lia.
  - unfold inb. lia.
Defined.

(** C10. Every coordinate [build_path] appends while following the
    direction field of the flood lies inside the grid, so the unchecked
    reads of the loop stay inside the buffer. *)
Theorem path_in_bounds maze w h fuel row column :
  valid_grid maze w h → w * h < Z.of_nat fuel → inb w h row column →
  ∃ a, Analysis.init fuel maze = Return a ∧
    (is_arrow (get2 "000"%char (directions a) row column) ∨
     get2 "000"%char (directions a) row column = "X"%char →
     ∃ p, Analysis.build_path fuel (directions a) row column = Return p ∧
       Forall (λ c, inb w h c.1 c.2 ∧ is_Some (read2 (directions a) c.1 c.2)) p).
Proof.
  intros Hvalid Hfuel Hi.
  destruct (init_returns maze w h fuel Hvalid Hfuel) as (a & Hrun & HInv & _).
  exists a. split; [done|]. intros Htag.
  pose proof (Inv_distance_range _ _ _ _ _ _ row column HInv Hi) as Hrange.
  destruct (build_path_returns _ _ _ _ _ _ fuel row column HInv Hi Htag)
    as (p & Hp & _ & _ & _ & _ & Hin & _); [lia|].
  exists p. split; [done|].
  eapply Forall_impl; [exact Hin|]. intros c Hc. split; [done|].
  apply (read2_inb w h); [apply HInv|done].
Qed.

Lemma path_in_bounds_witness :
  ∃ a, Analysis.init 10 example_grid = Return a ∧
    (is_arrow (get2 "000"%char (directions a) 0 0) ∨
     get2 "000"%char (directions a) 0 0 = "X"%char →
     ∃ p, Analysis.build_path 10 (directions a) 0 0 = Return p ∧
       Forall (λ c, inb 3 3 c.1 c.2 ∧ is_Some (read2 (directions a) c.1 c.2)) p).
Proof.
  apply (path_in_bounds example_grid 3 3 10 0 0).
  - unfold valid_grid, shaped, example_grid. simpl.
    repeat split; try lia. repeat constructor.
  - lia.
  - unfold inb. lia.
Defined.

Lemma follow_never_raises fuel directions row column acc e :
  Analysis.follow fuel directions row column acc ≠ Raise e.
Proof.
  revert row column acc. induction fuel as [|fuel IH]; intros row column acc; [done|].
  simpl. destruct (read2 directions row column) as [c|]; [|done].
  destruct (Ascii.eqb c "X"); [done|]. apply IH.
Qed.

Lemma py_follow_no_path_error fuel directions row column acc :
  py_follow fuel directions row column acc ≠ Raise NoPathExistsException.
Proof.
  revert row column acc. induction fuel as [|fuel IH]; intros row column acc; [done|].
  simpl. destruct (py_item2 directions row column) as [c|]; [|done].
  destruct (Ascii.eqb c "X"); [done|].
  destruct (py_dirs c) as [[x y]|]; [apply IH|done].
Qed.

(** Inside the array the checked Python-level read is the plain read. *)
Lemma py_item2_inb {A} w h (a : matrix A) x y :
  shaped w h a → inb w h x y → py_item2 a x y = read2 a x y.
Proof.
  intros [Hlen Hrows] [Hx Hy]. unfold py_item2, py_item, read2.
  rewrite !(proj2 (Z.leb_le _ _)) by lia.
  rewrite (proj2 (Z.ltb_ge x 0)) by lia. simpl.
  destruct (a !! Z.to_nat x) as [row|]; [|done]. simpl.
  by rewrite (proj2 (Z.ltb_ge y 0)) by lia.
Qed.

Lemma blocked_iff_unassigned maze w h dist dirs lq x y :
  Inv maze w h dist dirs lq → inb w h x y →
  (get2 "000"%char dirs x y = "#"%char ∨ get2 "000"%char dirs x y = " "%char)
  ↔ get2 0 dist x y < 0.
Proof.
  intros HInv Hi.
  pose proof (inv_cell _ _ _ _ _ _ HInv x y Hi) as Hcell. unfold cell_ok in Hcell.
  destruct Hcell as [(Hd & [(_ & Hc)|(_ & _ & Hc)])|[(Hd & _ & Hc)|(Hd & _ & _ & Harr & _)]].
  - rewrite Hd, Hc. split; [lia|by left].
  - rewrite Hd, Hc. split; [lia|by right].
  - rewrite Hd, Hc. split; [intros [|]; done|lia].
  - destruct (arrow_chars _ Harr) as (? & ? & ?). split; [intros [|]; done|lia].
Qed.

(** ** Termination *)

Lemma dequeued_pure store qd maze w h fuel st :
  (∀ z, 0 ≤ z < w * h → store z = z) →
  (∀ z, 0 ≤ z < w * h → qd z = z) →
  Inv maze w h (locals.distances st) (locals.directions st) (locals.q st) →
  dequeued store qd maze w h fuel st = dequeued id id maze w h fuel st.
Proof.
  intros Hstore Hqd. revert st. induction fuel as [|fuel IH]; intros st HInv; [done|].
  destruct st as [dist dirs [|item rest]]; cbn [locals.distances locals.directions locals.q] in *;
    [done|].
  cbn [dequeued locals.distances locals.directions locals.q].
  rewrite (visits_pure store qd) by (done || apply range4).
  f_equal. apply IH. by apply expand_inv.
Qed.

(** No cell is taken from the queue twice, and a cell taken from it was
    in the queue at the start or had no distance then. *)
Lemma dequeued_nodup maze w h fuel st :
  Inv maze w h (locals.distances st) (locals.directions st) (locals.q st) →
  NoDup (cell_of <$> dequeued id id maze w h fuel st) ∧
  (∀ it, it ∈ dequeued id id maze w h fuel st →
     it ∈ locals.q st ∨
     get2 0 (locals.distances st) (qitem.x it) (qitem.y it) = -1) ∧
  (length (dequeued id id maze w h fuel st)
   ≤ length (locals.q st) + unassigned w h (locals.distances st))%nat.
Proof.
  revert st. induction fuel as [|fuel IH]; intros st HInv.
  { simpl. split; [constructor|]. split; [|lia]. intros it Hit. by apply elem_of_nil in Hit. }
  destruct st as [dist dirs [|item rest]]; cbn [locals.distances locals.directions locals.q] in *.
  { simpl. split; [constructor|]. split; [|lia]. intros it Hit. by apply elem_of_nil in Hit. }
  cbn [dequeued locals.distances locals.directions locals.q].
  destruct (visits_inv maze w h item (seq 0 4) (locals.make dist dirs rest) range4 HInv)
    as (HInv1 & Hm & Hframe & _ & Hq1).
  destruct (expand_inv _ _ _ _ _ _ _ HInv) as [HInv' _].
  set (st1 := foldl _ _ _) in *.
  cbn [locals.distances locals.directions locals.q] in *.
  destruct (IH st1 HInv') as (Hnd & Horigin & Hlen).
  destruct (Inv_head _ _ _ _ _ _ _ HInv) as (Hb & Hd & H0 & _).
  destruct (Inv_head _ _ _ _ _ _ _ HInv1) as (_ & Hd1 & _ & _).
  split; [|split].
  - rewrite fmap_cons. apply NoDup_cons. split; [|done].
    intros Hin. apply list_elem_of_fmap in Hin as (it & Heq & Hit).
    unfold cell_of in Heq. injection Heq as Hx Hy.
    destruct (Horigin it Hit) as [Hq|Hun].
    + pose proof (inv_nodup _ _ _ _ _ _ HInv1) as Hnd1.
      rewrite fmap_cons in Hnd1. apply NoDup_cons in Hnd1 as [Hnotin _].
      apply Hnotin. apply list_elem_of_fmap. exists it. split; [|done].
      unfold cell_of. by rewrite Hx, Hy.
    + rewrite <- Hx, <- Hy in Hun. lia.
  - intros it Hit. apply elem_of_cons in Hit as [->|Hit]; [left; by left|].
    destruct (Horigin it Hit) as [Hq|Hun].
    + destruct (Hq1 it Hq) as [Hrest|Hun]; [left; by right|by right].
    + right.
      destruct (decide (get2 0 dist (qitem.x it) (qitem.y it) = -1)) as [|Hne]; [done|].
      rewrite Hframe in Hun; done.
  - simpl. lia.
Qed.

(** C7. On every valid grid the flood terminates and returns complete
    fields without raising: fuel beyond the number of cells is enough,
    because no cell enters the queue twice, so that the loop body runs at
    most once per cell. *)
Theorem flood_terminates maze w h fuel :
  valid_grid maze w h → w * h < Z.of_nat fuel →
  ∃ dist dirs reach,
    Analysis.flood fuel maze w h = Return (dist, dirs, reach) ∧
    shaped w h dist ∧ shaped w h dirs ∧
    NoDup (cell_of <$> dequeued int32 int32 maze w h fuel (scan maze w h)) ∧
    Z.of_nat (length (dequeued int32 int32 maze w h fuel (scan maze w h))) ≤ w * h.
Proof.
  intros Hvalid Hfuel.
  destruct (flood_returns maze w h fuel Hvalid Hfuel) as (dist & dirs & Hrun & HInv).
  exists dist, dirs, (Analysis.directions2reachable dirs w h).
  split; [done|]. split; [apply HInv|]. split; [apply HInv|].
  destruct Hvalid as (Hw & Hh & Hs & Hfit).
  destruct (seeded_Inv maze w h _ (scan_seeded maze w h)) as [HInv0 Hm].
  rewrite (dequeued_pure int32 int32) by (done || intros; by apply (int32_small w h)).
  destruct (dequeued_nodup maze w h fuel _ HInv0) as (Hnd & _ & Hlen).
  split; [done|]. nia.
Qed.

Lemma flood_terminates_witness :
  ∃ dist dirs reach,
    Analysis.flood 10 example_grid 3 3 = Return (dist, dirs, reach) ∧
    shaped 3 3 dist ∧ shaped 3 3 dirs ∧
    NoDup (cell_of <$> dequeued int32 int32 example_grid 3 3 10 (scan example_grid 3 3)) ∧
    Z.of_nat (length (dequeued int32 int32 example_grid 3 3 10 (scan example_grid 3 3)))
      ≤ 3 * 3.
Proof.
  apply (flood_terminates example_grid 3 3 10).
  - unfold valid_grid, shaped, example_grid. simpl.
    repeat split; try lia. repeat constructor.
  - lia.
Defined.

(** ** Grids without cells *)








(** ** Cell values outside [int8] *)

(** C8. At the grid [[200]] the analysis casts the cell to [int8], finds
    [-56] and classifies the cell as a wall, although its value is not
    negative. *)
Theorem init_200_is_wall :
  Analysis.init 2 [[200]] =
    Return {| distances := [[-1]]; directions := [["#"%char]]; is_reachable := true |} ∧
  int8 200 = -56.
Proof. split; reflexivity. Qed.

(** The sibling drafts, which do not cast, treat the same cell as open. *)
Lemma drafts_200_is_open :
  Part000.init 2 [[200]] =
    Return {| distances := [[-1]]; directions := [[" "%char]]; is_reachable := false |} ∧
  Part002.init 2 [[200]] =
    Return {| distances := [[-1]]; directions := [[" "%char]]; is_reachable := false |} ∧
  MazePyx.init 2 [[200]] =
    Return {| distances := [[-1]]; directions := [[" "%char]]; is_reachable := false |}.
Proof. repeat split; reflexivity. Qed.

(** What the analysis does in general: a cell is a wall exactly when its
    value is negative after the cast to [int8]. *)
Lemma wall_iff_int8_negative maze w h fuel :
  valid_grid maze w h → w * h < Z.of_nat fuel →
  ∃ a, Analysis.init fuel maze = Return a ∧
    ∀ x y, inb w h x y →
      (get2 "000"%char (directions a) x y = "#"%char ↔ int8 (get2 0 maze x y) < 0).
Proof.
  intros Hvalid Hfuel.
  destruct (init_returns maze w h fuel Hvalid Hfuel) as (a & Hrun & HInv & _).
  exists a. split; [done|]. intros x y Hi.
  pose proof (inv_cell _ _ _ _ _ _ HInv x y Hi) as Hcell. unfold cell_ok in Hcell.
  rewrite get2_astype_int8 in Hcell.
  destruct Hcell as [(Hd & [(? & Hc)|(? & _ & Hc)])|[(Hd & ? & Hc)|(Hd & ? & _ & Harr & _)]].
  - by rewrite Hc.
  - rewrite Hc. split; [done|lia].
  - rewrite Hc. split; [done|lia].
  - destruct (arrow_chars _ Harr) as (? & _). split; [done|lia].
Qed.

(** ** The seeding of the drafts *)

Lemma read2_map {A B} (f : A → B) (a : matrix A) x y :
  read2 (map (map f) a) x y = f <$> read2 a x y.
Proof.
  unfold read2. destruct ((0 <=? x) && (0 <=? y)); [|done].
  change (map (map f) a) with (map f <$> a).
  rewrite list_lookup_fmap. destruct (a !! Z.to_nat x) as [row|]; [|done]. simpl.
  change (map f row) with (f <$> row). by rewrite list_lookup_fmap.
Qed.

Lemma get2_map {A B} (f : A → B) d (a : matrix A) x y :
  get2 (f d) (map (map f) a) x y = f (get2 d a x y).
Proof. unfold get2. rewrite read2_map. by destruct (read2 a x y). Qed.

Lemma shaped_map {A B} (f : A → B) w h (a : matrix A) :
  shaped w h a → shaped w h (map (map f) a).
Proof.
  intros [Hlen Hrows]. split.
  - by rewrite length_map.
  - apply Forall_forall. intros row Hrow.
    apply list_elem_of_In, in_map_iff in Hrow as (row0 & <- & Hrow0).
    rewrite length_map.
    apply (proj1 (Forall_forall _ _) Hrows). by apply list_elem_of_In.
Qed.

Lemma read2_np_place {A} (a : matrix A) (mask : matrix bool) v x y :
  read2 (np_place a mask v) x y =
  (u ← read2 a x y; m ← read2 mask x y; Some (if m : bool then v else u)).
Proof.
  unfold read2, np_place. destruct ((0 <=? x) && (0 <=? y)); [|done].
  rewrite lookup_zip_with.
  destruct (a !! Z.to_nat x) as [ra|]; [|done]. simpl.
  destruct (mask !! Z.to_nat x) as [rm|]; simpl.
  - by rewrite lookup_zip_with.
  - by destruct (ra !! Z.to_nat y).
Qed.

Lemma shaped_np_place {A} w h (a : matrix A) (mask : matrix bool) v :
  shaped w h a → shaped w h mask → shaped w h (np_place a mask v).
Proof.
  intros [Hla Hra] [Hlm Hrm]. unfold np_place. split.
  - rewrite length_zip_with. lia.
  - apply Forall_lookup. intros i row Hrow.
    apply lookup_zip_with_Some in Hrow as (ra & rm & -> & Ha & Hm).
    rewrite length_zip_with.
    rewrite (Forall_lookup_1 _ _ _ _ Hra Ha), (Forall_lookup_1 _ _ _ _ Hrm Hm). lia.
Qed.

Lemma mark_list w h (l : list (Z * Z)) st :
  NoDup l → Forall (λ c, inb w h c.1 c.2) l →
  shaped w h (locals.distances st) → shaped w h (locals.directions st) →
  let st' := foldl mark_goal st l in
  shaped w h (locals.distances st') ∧ shaped w h (locals.directions st') ∧
  (∀ x y, (x, y) ∉ l →
     get2 0 (locals.distances st') x y = get2 0 (locals.distances st) x y ∧
     get2 "000"%char (locals.directions st') x y
       = get2 "000"%char (locals.directions st) x y) ∧
  (∀ x y, (x, y) ∈ l →
     get2 0 (locals.distances st') x y = 0 ∧
     get2 "000"%char (locals.directions st') x y = "X"%char) ∧
  locals.q st' = locals.q st ++ ((λ c, qitem.make c.1 c.2 0) <$> l).
Proof.
  intros Hnd. revert st. induction Hnd as [|[x y] l Hnotin Hnd IH];
    intros st Hinb Hsd Hsr.
  - simpl. split; [done|]. split; [done|]. split; [done|].
    split; [|by rewrite app_nil_r]. intros x y Hin. by apply elem_of_nil in Hin.
  - apply Forall_cons in Hinb as [Hxy Hinb]. simpl in Hxy.
    cbn [foldl]. set (st1 := mark_goal st (x, y)).
    destruct (IH st1 Hinb) as (Hsd2 & Hsr2 & Hframe2 & Hgoal2 & Hq2).
    { by apply shaped_set2. }
    { by apply shaped_set2. }
    split; [done|]. split; [done|]. split; [|split].
    + intros x' y' Hnin. apply not_elem_of_cons in Hnin as [Hne Hnin].
      destruct (Hframe2 x' y' Hnin) as [-> ->]. subst st1. unfold mark_goal.
      cbn [locals.distances locals.directions fst snd].
      rewrite !get2_set2_ne by (try apply Hxy; congruence). done.
    + intros x' y' Hin. apply elem_of_cons in Hin as [[= -> ->]|Hin]; [|by apply Hgoal2].
      destruct (Hframe2 x y Hnotin) as [-> ->]. subst st1. unfold mark_goal.
      cbn [locals.distances locals.directions fst snd].
      by rewrite !(get2_set2_eq _ w h).
    + rewrite Hq2. subst st1. unfold mark_goal. cbn [locals.q fst snd].
      by rewrite <- app_assoc.
Qed.

Lemma seed_seeded maze w h :
  1 ≤ w → 0 ≤ h → shaped w h maze → seeded maze w h (seed maze).
Proof.
  intros Hw Hh Hs. unfold seed. rewrite (shape_valid w h) by done. cbn [fst snd].
  assert (np_where (map (map (λ v, v =? 1)) maze)
          = filter (λ c, get2 0 maze c.1 c.2 = 1) (cells w h)) as ->.
  { unfold np_where. rewrite (shape_valid w h) by (done || by apply shaped_map).
    cbn [fst snd]. apply filter_ext_in. intros [x y] _. simpl.
    change false with ((λ v, v =? 1) 0). rewrite get2_map. apply Z.eqb_eq. }
  set (goals := filter _ _).
  set (dirs0 := np_place _ _ _).
  assert (shaped w h dirs0) as Hs0.
  { apply shaped_np_place; [apply shaped_np_full|by apply shaped_map]. }
  assert (∀ x y, inb w h x y → get2 "000"%char dirs0 x y
            = if get2 0 maze x y <? 0 then "#"%char else " "%char) as Hdirs0.
  { intros x y Hi. unfold get2 at 1. subst dirs0.
    rewrite read2_np_place, read2_np_full, read2_map by done.
    rewrite (read2_get2 0 w h) by done. done. }
  destruct (mark_list w h goals (locals.make (np_full w h (-1)) dirs0 []))
    as (Hsd & Hsr & Hframe & Hgoal & Hq).
  - apply NoDup_filter, NoDup_cells.
  - apply Forall_forall. intros [x y] Hin.
    apply list_elem_of_filter in Hin as [_ Hin]. by apply elem_of_cells.
  - apply shaped_np_full.
  - done.
  - split; [done|]. split; [done|]. split; [|done].
    intros x y Hi. unfold seed_distance, seed_direction.
    destruct (decide (get2 0 maze x y = 1)) as [Hone|Hone].
    + destruct (Hgoal x y) as [-> ->].
      { apply list_elem_of_filter. split; [done|by apply elem_of_cells]. }
      rewrite Hone. done.
    + destruct (Hframe x y) as [-> ->].
      { intros Hin. by apply list_elem_of_filter in Hin as [? _]. }
      cbn [locals.distances locals.directions].
      rewrite get2_np_full, Hdirs0 by done.
      rewrite (proj2 (Z.eqb_neq _ _) Hone). done.
Qed.

(** ** The drafts and the final module *)

Lemma astype_int8_id maze :
  Forall (Forall (λ v, -128 ≤ v ≤ 127)) maze → astype_int8 maze = maze.
Proof.
  unfold astype_int8. induction 1 as [|row maze Hrow Hmaze IH]; [done|].
  simpl. rewrite IH. f_equal.
  induction Hrow as [|v row Hv Hrow IHrow]; [done|].
  simpl. rewrite IHrow. f_equal. apply wrap_small; lia.
Qed.

Lemma int16_small w h z : w * h ≤ 2 ^ 15 → 0 ≤ z < w * h → int16 z = z.
Proof. intros Hwh Hz. apply wrap_small; lia. Qed.

(** The loop of a draft, started from its own seeding, ends in the state
    in which the loop over [Z] started from the scan ends. *)
Lemma draft_bfs store qd maze w h fuel :
  (∀ z, 0 ≤ z < w * h → store z = z) →
  (∀ z, 0 ≤ z < w * h → qd z = z) →
  1 ≤ w → 0 ≤ h → shaped w h maze →
  bfs store qd maze (shape maze).1 (shape maze).2 fuel (seed maze)
  = bfs id id maze w h fuel (scan maze w h).
Proof.
  intros Hstore Hqd Hw Hh Hs.
  rewrite (shape_valid w h) by done. cbn [fst snd].
  rewrite (seeded_unique maze w h (seed maze) (scan maze w h))
    by (by apply seed_seeded || apply scan_seeded).
  apply bfs_pure; [done..|].
  apply seeded_Inv, scan_seeded.
Qed.

(** C9 (amended). On a valid grid whose values fit [int8] and that has at
    most [2 ^ 15] cells, the final module and the drafts [part_002] and
    [part_000] return the same analysis object: the same distance field,
    the same direction field and the same reachability flag. *)
Theorem variants_agree maze w h fuel :
  valid_grid maze w h →
  Forall (Forall (λ v, -128 ≤ v ≤ 127)) maze →
  w * h ≤ 2 ^ 15 →
  w * h < Z.of_nat fuel →
  ∃ a, Analysis.init fuel maze = Return a ∧
       Part002.init fuel maze = Return a ∧
       Part000.init fuel maze = Return a.
Proof.
  intros Hvalid Hint8 Hint16 Hfuel.
  destruct (flood_returns maze w h fuel Hvalid Hfuel) as (dist & dirs & Hrun & HInv).
  destruct Hvalid as (Hw & Hh & Hs & Hfit).
  exists (Build_MazeAnalysis dist dirs (Analysis.directions2reachable dirs w h)).
  unfold Analysis.flood in Hrun.
  rewrite (bfs_pure int32 int32) in Hrun
    by (done || (intros; by apply (int32_small w h)) || apply seeded_Inv, scan_seeded).
  destruct (bfs id id maze w h fuel (scan maze w h)) as [st| | |] eqn:Hbfs; try done.
  injection Hrun as <- <-.
  split; [|split].
  - unfold Analysis.init. cbv zeta. rewrite (astype_int8_id _ Hint8).
    rewrite (shape_valid w h) by (done || lia). cbn [fst snd].
    unfold Analysis.flood.
    rewrite (bfs_pure int32 int32)
      by (done || (intros; by apply (int32_small w h)) || apply seeded_Inv, scan_seeded).
    by rewrite Hbfs.
  - unfold Part002.init.
    rewrite (draft_bfs int16 id maze w h)
      by (done || lia || (intros; by apply (int16_small w h))).
    rewrite Hbfs. do 2 f_equal. apply not_in_directions2reachable, HInv.
  - unfold Part000.init.
    rewrite (draft_bfs int16 int32 maze w h)
      by (done || lia || (intros; by apply (int16_small w h))
          || (intros; by apply (int32_small w h))).
    rewrite Hbfs. do 2 f_equal. apply not_in_directions2reachable, HInv.
Qed.

Lemma variants_agree_witness :
  ∃ a, Analysis.init 10 example_grid = Return a ∧
       Part002.init 10 example_grid = Return a ∧
       Part000.init 10 example_grid = Return a.
Proof.
  apply (variants_agree example_grid 3 3 10).
  - unfold valid_grid, shaped, example_grid. simpl.
    repeat split; try lia. repeat constructor.
  - unfold example_grid. repeat constructor; lia.
  - lia.
  - lia.
Defined.


(** ** The drafts on grids of at most [2 ^ 15] cells

    With an [int16] distance field the results above hold for the drafts
    as long as every distance fits, which a grid of at most [2 ^ 15] cells
    guarantees. *)

Lemma maze_pyx_flood_returns maze w h fuel :
  valid_grid maze w h → w * h ≤ 2 ^ 15 → w * h < Z.of_nat fuel →
  ∃ dist dirs,
    MazePyx.flood fuel maze w h = Return (dist, dirs) ∧ Inv maze w h dist dirs [].
Proof.
  intros (Hw & Hh & Hs & Hfit) Hint16 Hfuel.
  destruct (seeded_Inv maze w h _ (scan_seeded maze w h)) as [HInv Hm].
  destruct (bfs_terminates maze w h fuel _ HInv) as (st' & Hrun & Hq & HInv'); [nia|].
  exists (locals.distances st'), (locals.directions st'). split; [|done].
  unfold MazePyx.flood.
  rewrite (bfs_pure int16 int32)
    by (done || (intros; by apply (int16_small w h)) || (intros; by apply (int32_small w h))).
  by rewrite Hrun.
Qed.

(** The distance field of the flood of [maze.pyx]. *)
Lemma maze_pyx_distance_field maze w h fuel :
  valid_grid maze w h → w * h ≤ 2 ^ 15 → w * h < Z.of_nat fuel →
  ∃ dist dirs,
    MazePyx.flood fuel maze w h = Return (dist, dirs) ∧
    ∀ x y, inb w h x y →
      (get2 0 maze x y < 0 → get2 0 dist x y = -1) ∧
      (¬ reachable maze w h (x, y) → get2 0 dist x y = -1) ∧
      (get2 0 maze x y = 1 → get2 0 dist x y = 0) ∧
      (reachable maze w h (x, y) →
         shortest_hops maze w h (x, y) (get2 0 dist x y)).
Proof.
  intros Hvalid Hint16 Hfuel.
  destruct (maze_pyx_flood_returns maze w h fuel Hvalid Hint16 Hfuel)
    as (dist & dirs & Hrun & HInv).
  exists dist, dirs. split; [done|].
  intros x y Hi. by apply (Inv_distance_field maze w h dist dirs).
Qed.

(** The reachability flag of [maze.pyx]. *)
Lemma maze_pyx_reachability maze w h fuel :
  valid_grid maze w h → w * h ≤ 2 ^ 15 → w * h < Z.of_nat fuel →
  ∃ a, MazePyx.init fuel maze = Return a ∧
    (is_reachable a = true ↔
     ∀ x y, inb w h x y → get2 "000"%char (directions a) x y ≠ " "%char).
Proof.
  intros Hvalid Hint16 Hfuel.
  destruct (maze_pyx_flood_returns maze w h fuel Hvalid Hint16 Hfuel)
    as (dist & dirs & Hrun & HInv).
  destruct Hvalid as (Hw & Hh & Hs & _).
  unfold MazePyx.init. rewrite (shape_valid w h) by (done || lia).
  cbn [fst snd]. rewrite Hrun. eexists. split; [done|].
  cbn [is_reachable directions]. apply not_in_spec, HInv.
Qed.

Lemma part000_init_returns maze w h fuel :
  valid_grid maze w h → w * h ≤ 2 ^ 15 → w * h < Z.of_nat fuel →
  ∃ a, Part000.init fuel maze = Return a ∧
    Inv maze w h (distances a) (directions a) [].
Proof.
  intros (Hw & Hh & Hs & Hfit) Hint16 Hfuel.
  destruct (seeded_Inv maze w h _ (scan_seeded maze w h)) as [HInv Hm].
  destruct (bfs_terminates maze w h fuel _ HInv) as (st' & Hrun & Hq & HInv'); [nia|].
  unfold Part000.init.
  rewrite (draft_bfs int16 int32 maze w h)
    by (done || lia || (intros; by apply (int16_small w h))
        || (intros; by apply (int32_small w h))).
  rewrite Hrun. eexists. split; [done|]. done.
Qed.

(** X21. On the object [part_000] builds for a valid grid of at most
    [2 ^ 15] cells, its [path] method raises [NoPathExistsException]
    exactly when the start holds ['#'] or [' ']. *)
Lemma part000_path_raises_iff maze w h fuel row column :
  valid_grid maze w h → w * h ≤ 2 ^ 15 → w * h < Z.of_nat fuel →
  inb w h row column →
  ∃ a, Part000.init fuel maze = Return a ∧
    ∀ fuel',
      Part000.path fuel' a row column = Raise NoPathExistsException ↔
      get2 "000"%char (directions a) row column = "#"%char ∨
      get2 "000"%char (directions a) row column = " "%char.
Proof.
  intros Hvalid Hint16 Hfuel Hi.
  destruct (part000_init_returns maze w h fuel Hvalid Hint16 Hfuel) as (a & Hrun & HInv).
  exists a. split; [done|]. intros fuel'.
  rewrite (blocked_iff_unassigned _ _ _ _ _ _ _ _ HInv Hi).
  unfold Part000.path, py_path.
  rewrite (py_item2_inb w h), (read2_get2 0 w h) by (done || apply HInv).
  destruct (get2 0 (distances a) row column <? 0) eqn:Eneg.
  - apply Z.ltb_lt in Eneg. done.
  - apply Z.ltb_ge in Eneg. split; [|lia].
    intros Hraise. by apply py_follow_no_path_error in Hraise.
Qed.

(** ** A corridor longer than [int16]

    On a corridor the loop advances one cell per iteration, which gives
    the run of every variant in closed form, whatever the width of its
    distance field. *)

Lemma get2_row {A} (d : A) (row : list A) y :
  0 ≤ y → get2 d [row] 0 y = default d (row !! Z.to_nat y).
Proof.
  intros Hy. unfold get2, read2. rewrite (proj2 (Z.leb_le 0 y)) by done. done.
Qed.

Lemma set2_row {A} (row : list A) y v :
  set2 [row] 0 y v = [<[Z.to_nat y := v]> row].
Proof. done. Qed.

Lemma corridor_open n y : 0 ≤ y → 0 ≤ get2 0 (corridor n) 0 y.
Proof.
  intros Hy. unfold corridor. rewrite get2_row by done.
  destruct (Z.to_nat y) as [|k]; simpl; [lia|].
  destruct (replicate n 0 !! k) as [v|] eqn:Hv; simpl; [|lia].
  apply lookup_replicate in Hv as [-> _]. lia.
Qed.


Section corridor.
Variables (store qd : Z → Z) (n : nat).
Hypothesis Hstore : ∀ k, 0 ≤ k ≤ Z.of_nat n → store k ≠ -1.
Hypothesis Hqd : ∀ k, 0 ≤ k ≤ Z.of_nat n → qd k = k.

Lemma corridor_distance_done j i :
  (i ≤ j)%nat → (j ≤ n)%nat →
  get2 0 (locals.distances (corridor_state store n j [])) 0 (Z.of_nat i)
  = store (Z.of_nat i).
Proof.
  intros Hi Hj. unfold corridor_state. cbn [locals.distances].
  rewrite get2_row, Nat2Z.id by lia.
  rewrite lookup_app_l by (rewrite length_fmap, length_seq; lia).
  rewrite list_lookup_fmap, lookup_seq_lt by lia. done.
Qed.

Lemma corridor_distance_todo j :
  (j < n)%nat →
  get2 0 (locals.distances (corridor_state store n j [])) 0 (Z.of_nat j + 1) = -1.
Proof.
  intros Hj. unfold corridor_state. cbn [locals.distances].
  rewrite get2_row by lia.
  replace (Z.to_nat (Z.of_nat j + 1)) with (S j) by lia.
  rewrite lookup_app_r by (rewrite length_fmap, length_seq; lia).
  rewrite length_fmap, length_seq, Nat.sub_diag.
  rewrite lookup_replicate_2 by lia. done.
Qed.

Lemma corridor_expand j q :
  (j < n)%nat →
  foldl (visit store qd (corridor n) 1 (Z.of_nat n + 1)
           (qitem.make 0 (Z.of_nat j) (Z.of_nat j)))
        (corridor_state store n j q) (seq 0 4)
  = corridor_state store n (S j)
      (q ++ [qitem.make 0 (Z.of_nat (S j)) (Z.of_nat (S j))]).
Proof.
  intros Hj. cbn [seq foldl].
  (* i = 0: row 1 is outside the grid *)
  assert (∀ st, visit store qd (corridor n) 1 (Z.of_nat n + 1)
                 (qitem.make 0 (Z.of_nat j) (Z.of_nat j)) st 0 = st) as ->.
  { intros st. unfold visit. simpl. done. }
  (* i = 1: row -1 is outside the grid *)
  assert (∀ st, visit store qd (corridor n) 1 (Z.of_nat n + 1)
                 (qitem.make 0 (Z.of_nat j) (Z.of_nat j)) st 1 = st) as ->.
  { intros st. unfold visit. simpl. done. }
  (* i = 2: the next cell of the corridor has no distance yet *)
  assert (visit store qd (corridor n) 1 (Z.of_nat n + 1)
            (qitem.make 0 (Z.of_nat j) (Z.of_nat j)) (corridor_state store n j q) 2
          = corridor_state store n (S j)
              (q ++ [qitem.make 0 (Z.of_nat (S j)) (Z.of_nat (S j))])) as ->.
  { unfold visit. cbn [nth dir_offsets coords.x coords.y qitem.x qitem.y qitem.distance].
    replace (0 + 0) with 0 by lia.
    rewrite (proj2 (Z.leb_le 0 0)), (proj2 (Z.ltb_lt 0 1)) by lia.
    rewrite (proj2 (Z.leb_le 0 (Z.of_nat j + 1))) by lia.
    rewrite (proj2 (Z.ltb_lt (Z.of_nat j + 1) (Z.of_nat n + 1))) by lia.
    rewrite (proj2 (Z.leb_le 0 _) (corridor_open n (Z.of_nat j + 1) ltac:(lia))).
    pose proof (corridor_distance_todo j Hj) as Htodo.
    unfold corridor_state in Htodo |- *. cbn [locals.distances locals.directions locals.q] in *.
    rewrite Htodo. cbn [andb Z.eqb Pos.eqb].
    rewrite Hqd by lia. rewrite !set2_row.
    replace (Z.to_nat (Z.of_nat j + 1)) with (S j) by lia.
    replace (Z.of_nat j + 1) with (Z.of_nat (S j)) by lia.
    f_equal.
    - f_equal.
      replace (S j) with (length ((λ k, store (Z.of_nat k)) <$> seq 0 (S j)) + 0)%nat at 1
        by (rewrite length_fmap, length_seq; lia).
      rewrite insert_app_r.
      replace (n - j)%nat with (S (n - S j)) by lia.
      rewrite replicate_S. cbn [insert list_insert].
      rewrite (seq_S (S j) 0), fmap_app, <- app_assoc. done.
    - f_equal.
      replace (S j) with (length ("X"%char :: replicate j "<"%char) + 0)%nat at 1
        by (simpl; rewrite length_replicate; lia).
      rewrite insert_app_r.
      replace (n - j)%nat with (S (n - S j)) by lia.
      rewrite replicate_S. cbn [insert list_insert nth dir_chars].
      rewrite (replicate_S_end j). cbn [app]. f_equal. by rewrite <- app_assoc. }
  (* i = 3: the previous cell already has a distance *)
  unfold visit. cbn [nth dir_offsets coords.x coords.y qitem.x qitem.y qitem.distance].
  replace (0 + 0) with 0 by lia.
  destruct ((0 <=? 0) && (0 <? 1) && (0 <=? Z.of_nat j + -1)
            && (Z.of_nat j + -1 <? Z.of_nat n + 1)) eqn:Hin; [|done].
  apply andb_prop in Hin as [Hin _]. apply andb_prop in Hin as [_ Hin].
  apply Z.leb_le in Hin.
  replace (Z.of_nat j + -1) with (Z.of_nat (j - 1)) by lia.
  pose proof (corridor_distance_done (S j) (j - 1) ltac:(lia) ltac:(lia)) as Hdone.
  unfold corridor_state in Hdone |- *. cbn [locals.distances locals.directions locals.q] in *.
  rewrite Hdone.
  rewrite (proj2 (Z.eqb_neq _ _)) by (apply Hstore; lia).
  by rewrite andb_false_r.
Qed.

Lemma corridor_end q :
  foldl (visit store qd (corridor n) 1 (Z.of_nat n + 1)
           (qitem.make 0 (Z.of_nat n) (Z.of_nat n)))
        (corridor_state store n n q) (seq 0 4)
  = corridor_state store n n q.
Proof.
  cbn [seq foldl].
  assert (∀ st, visit store qd (corridor n) 1 (Z.of_nat n + 1)
                 (qitem.make 0 (Z.of_nat n) (Z.of_nat n)) st 0 = st) as ->.
  { intros st. unfold visit. simpl. done. }
  assert (∀ st, visit store qd (corridor n) 1 (Z.of_nat n + 1)
                 (qitem.make 0 (Z.of_nat n) (Z.of_nat n)) st 1 = st) as ->.
  { intros st. unfold visit. simpl. done. }
  assert (∀ st, visit store qd (corridor n) 1 (Z.of_nat n + 1)
                 (qitem.make 0 (Z.of_nat n) (Z.of_nat n)) st 2 = st) as ->.
  { intros st. unfold visit. cbn [nth dir_offsets coords.x coords.y qitem.x qitem.y].
    rewrite (proj2 (Z.ltb_ge (Z.of_nat n + 1) (Z.of_nat n + 1))) by lia.
    by rewrite andb_false_r. }
  unfold visit. cbn [nth dir_offsets coords.x coords.y qitem.x qitem.y qitem.distance].
  replace (0 + 0) with 0 by lia.
  destruct ((0 <=? 0) && (0 <? 1) && (0 <=? Z.of_nat n + -1)
            && (Z.of_nat n + -1 <? Z.of_nat n + 1)) eqn:Hin; [|done].
  apply andb_prop in Hin as [Hin _]. apply andb_prop in Hin as [_ Hin].
  apply Z.leb_le in Hin.
  replace (Z.of_nat n + -1) with (Z.of_nat (n - 1)) by lia.
  pose proof (corridor_distance_done n (n - 1) ltac:(lia) ltac:(lia)) as Hdone.
  unfold corridor_state in Hdone |- *. cbn [locals.distances locals.directions locals.q] in *.
  rewrite Hdone.
  rewrite (proj2 (Z.eqb_neq _ _)) by (apply Hstore; lia).
  by rewrite andb_false_r.
Qed.

Lemma corridor_bfs k j :
  (j + k = n)%nat →
  bfs store qd (corridor n) 1 (Z.of_nat n + 1) (S (S k))
      (corridor_state store n j [qitem.make 0 (Z.of_nat j) (Z.of_nat j)])
  = Return (corridor_state store n n []).
Proof.
  revert j. induction k as [|k IH]; intros j Hjk.
  - assert (j = n) as -> by lia.
    cbn [bfs corridor_state locals.q locals.distances locals.directions].
    fold (corridor_state store n n []). by rewrite corridor_end.
  - remember (S (S k)) as fuel. cbn [bfs corridor_state locals.q locals.distances locals.directions].
    fold (corridor_state store n j []). rewrite corridor_expand by lia.
    subst fuel. apply IH. lia.
Qed.

End corridor.

Lemma filter_nil_not {A} (P : A → Prop) `{∀ x, Decision (P x)} (l : list A) :
  (∀ x, x ∈ l → ¬ P x) → filter P l = [].
Proof.
  induction l as [|a l IH]; [done|]. intros Hnot.
  rewrite filter_cons_False by (apply Hnot; left).
  apply IH. intros x Hx. apply Hnot. by right.
Qed.

Lemma filter_singleton {A} (P : A → Prop) `{∀ x, Decision (P x)} (l : list A) (c : A) :
  NoDup l → c ∈ l → P c → (∀ x, x ∈ l → P x → x = c) → filter P l = [c].
Proof.
  intros Hnd Hc HP Huniq.
  induction Hnd as [|a l Hnotin Hnd IH]; [by apply elem_of_nil in Hc|].
  apply elem_of_cons in Hc as [<-|Hc].
  - rewrite filter_cons_True by done. f_equal. apply filter_nil_not.
    intros x Hx HPx. apply Hnotin. rewrite <- (Huniq x); [done|by right|done].
  - rewrite filter_cons_False.
    + apply IH; [done|]. intros x Hx. apply Huniq. by right.
    + intros HPa. apply Hnotin. rewrite (Huniq a); [done|by left|done].
Qed.

Lemma corridor_get n y :
  get2 0 (corridor n) 0 y = 1 ↔ y = 0.
Proof.
  unfold corridor, get2, read2. destruct (0 <=? y) eqn:Hy; simpl.
  - apply Z.leb_le in Hy. destruct (Z.to_nat y) as [|k] eqn:Hk; simpl.
    + split; [lia|done].
    + destruct (replicate n 0 !! k) as [v|] eqn:Hv; simpl.
      * apply lookup_replicate in Hv as [-> _]. lia.
      * lia.
  - apply Z.leb_gt in Hy. lia.
Qed.

Lemma corridor_seeded store n :
  store 0 = 0 →
  seeded (corridor n) 1 (Z.of_nat n + 1)
         (corridor_state store n 0 [qitem.make 0 0 0]).
Proof.
  intros Hs0. unfold corridor_state. rewrite Nat.sub_0_r.
  cbn [seq fmap list_fmap replicate app]. change (Z.of_nat 0) with 0. rewrite Hs0.
  split; [|split; [|split]]; cbn [locals.distances locals.directions locals.q].
  - split; [done|]. constructor; [|done]. simpl. rewrite length_replicate. lia.
  - split; [done|]. constructor; [|done]. simpl. rewrite length_replicate. lia.
  - intros x y [Hx Hy]. assert (x = 0) as -> by lia.
    rewrite !get2_row by lia.
    unfold seed_distance, seed_direction.
    destruct (decide (y = 0)) as [->|Hne].
    + rewrite (proj2 (corridor_get n 0)) by done. done.
    + pose proof (corridor_open n y ltac:(lia)) as Hopen.
      rewrite (proj2 (Z.ltb_ge _ _)) by lia.
      rewrite (proj2 (Z.eqb_neq _ _)) by (by rewrite corridor_get).
      destruct (Z.to_nat y) as [|k] eqn:Hk; [lia|]. simpl.
      rewrite !lookup_replicate_2 by lia. done.
  - rewrite (filter_singleton _ _ (0, 0)); [done|apply NoDup_cells| | |].
    + apply elem_of_cells. unfold inb. lia.
    + simpl. by apply corridor_get.
    + intros [x y] Hin Hg. apply elem_of_cells in Hin as [Hx Hy]. simpl in Hg.
      assert (x = 0) as -> by lia.
      apply corridor_get in Hg. by subst y.
Qed.

Lemma shape_corridor n : shape (corridor n) = (1, Z.of_nat n + 1).
Proof. unfold shape, corridor. simpl hd. simpl length. rewrite length_replicate. f_equal. lia. Qed.

Lemma shaped_corridor n : shaped 1 (Z.of_nat n + 1) (corridor n).
Proof.
  split; [done|]. constructor; [|done]. simpl. rewrite length_replicate. lia.
Qed.

Lemma int16_not_unassigned k : 0 ≤ k ≤ 65534 → int16 k ≠ -1.
Proof.
  intros Hk. unfold int16, wrap. change (2 ^ (16 - 1)) with 32768.
  change (2 ^ 16) with 65536.
  destruct (decide (k < 32768)).
  - rewrite Z.mod_small by lia. lia.
  - replace (k + 32768) with (k - 32768 + 1 * 65536) by lia.
    rewrite Z.mod_add by lia. rewrite Z.mod_small by lia. lia.
Qed.

(** The distance the drafts store for the far end of a corridor. *)
Lemma corridor_draft store qd n :
  store 0 = 0 →
  (∀ k, 0 ≤ k ≤ Z.of_nat n → store k ≠ -1) →
  (∀ k, 0 ≤ k ≤ Z.of_nat n → qd k = k) →
  bfs store qd (corridor n) (shape (corridor n)).1 (shape (corridor n)).2
      (S (S n)) (seed (corridor n))
  = Return (corridor_state store n n []).
Proof.
  intros Hs0 Hstore Hqd. rewrite shape_corridor. cbn [fst snd].
  rewrite (seeded_unique (corridor n) 1 (Z.of_nat n + 1) (seed (corridor n))
             (corridor_state store n 0 [qitem.make 0 0 0])).
  - apply (corridor_bfs store qd n Hstore Hqd n 0). lia.
  - apply seed_seeded; [lia|lia|apply shaped_corridor].
  - by apply corridor_seeded.
Qed.

Lemma corridor_final n :
  Z.of_nat n < 2 ^ 31 →
  bfs int32 int32 (corridor n) 1 (Z.of_nat n + 1) (S (S n)) (scan (corridor n) 1 (Z.of_nat n + 1))
  = Return (corridor_state int32 n n []).
Proof.
  intros Hn.
  rewrite (seeded_unique (corridor n) 1 (Z.of_nat n + 1) (scan (corridor n) 1 (Z.of_nat n + 1))
             (corridor_state int32 n 0 [qitem.make 0 0 0])).
  - apply (corridor_bfs int32 int32 n); [| |lia].
    + intros k Hk. unfold int32. rewrite wrap_small; lia.
    + intros k Hk. apply wrap_small; lia.
  - apply scan_seeded.
  - by apply corridor_seeded.
Qed.

Lemma astype_int8_corridor n : astype_int8 (corridor n) = corridor n.
Proof.
  apply astype_int8_id. constructor; [|done].
  constructor; [lia|]. apply Forall_replicate. lia.
Qed.

Lemma corridor_analysis n :
  Z.of_nat n < 2 ^ 31 →
  ∃ a, Analysis.init (S (S n)) (corridor n) = Return a ∧
       get2 0 (distances a) 0 (Z.of_nat n) = Z.of_nat n.
Proof.
  intros Hn. unfold Analysis.init. cbv zeta.
  rewrite astype_int8_corridor, shape_corridor. cbn [fst snd].
  unfold Analysis.flood. rewrite corridor_final by lia.
  eexists. split; [reflexivity|]. cbn [distances].
  rewrite (corridor_distance_done int32 n n n) by lia.
  apply wrap_small; lia.
Qed.

Lemma corridor_part000 n :
  Z.of_nat n ≤ 65534 →
  ∃ a, Part000.init (S (S n)) (corridor n) = Return a ∧
       get2 0 (distances a) 0 (Z.of_nat n) = int16 (Z.of_nat n).
Proof.
  intros Hn. unfold Part000.init. rewrite (corridor_draft int16 int32).
  - eexists. split; [reflexivity|]. cbn [distances].
    apply (corridor_distance_done int16 n n n); lia.
  - done.
  - intros k Hk. apply int16_not_unassigned. lia.
  - intros k Hk. apply wrap_small; lia.
Qed.

Lemma corridor_part002 n :
  Z.of_nat n ≤ 65534 →
  ∃ a, Part002.init (S (S n)) (corridor n) = Return a ∧
       get2 0 (distances a) 0 (Z.of_nat n) = int16 (Z.of_nat n).
Proof.
  intros Hn. unfold Part002.init. rewrite (corridor_draft int16 id).
  - eexists. split; [reflexivity|]. cbn [distances].
    apply (corridor_distance_done int16 n n n); lia.
  - done.
  - intros k Hk. apply int16_not_unassigned. lia.
  - done.
Qed.

(** C9 fails as stated. At [[200]] the final module finds a wall and a
    reachable grid, the drafts an open cell that no goal reaches. On the
    corridor of [32768] open cells the far end is [32768] hops from the
    goal; the final module stores that, the drafts wrap it to [-32768]. *)
Lemma variants_differ :
  (Analysis.init 2 [[200]] =
     Return {| distances := [[-1]]; directions := [["#"%char]]; is_reachable := true |} ∧
   Part002.init 2 [[200]] =
     Return {| distances := [[-1]]; directions := [[" "%char]]; is_reachable := false |} ∧
   Part000.init 2 [[200]] =
     Return {| distances := [[-1]]; directions := [[" "%char]]; is_reachable := false |}) ∧
  (∃ a a0 a2,
    Analysis.init (S (S (Z.to_nat 32768))) (corridor (Z.to_nat 32768)) = Return a ∧
    Part000.init (S (S (Z.to_nat 32768))) (corridor (Z.to_nat 32768)) = Return a0 ∧
    Part002.init (S (S (Z.to_nat 32768))) (corridor (Z.to_nat 32768)) = Return a2 ∧
    get2 0 (distances a) 0 32768 = 32768 ∧
    get2 0 (distances a0) 0 32768 = -32768 ∧
    get2 0 (distances a2) 0 32768 = -32768).
Proof.
  split; [repeat split; reflexivity|].
  assert (Z.of_nat (Z.to_nat 32768) = 32768) as Hn by (apply Z2Nat.id; lia).
  destruct (corridor_analysis (Z.to_nat 32768)) as (a & Ha & Hda); [rewrite Hn; lia|].
  destruct (corridor_part000 (Z.to_nat 32768)) as (a0 & Ha0 & Hda0); [rewrite Hn; lia|].
  destruct (corridor_part002 (Z.to_nat 32768)) as (a2 & Ha2 & Hda2); [rewrite Hn; lia|].
  rewrite Hn in Hda, Hda0, Hda2.
  exists a, a0, a2.
  split; [exact Ha|]. split; [exact Ha0|]. split; [exact Ha2|].
  split; [exact Hda|]. split; [exact Hda0|exact Hda2].
Qed.

Lemma corridor_state_shaped store n j q :
  (j ≤ n)%nat →
  shaped 1 (Z.of_nat n + 1) (locals.distances (corridor_state store n j q)).
Proof.
  intros Hj. split; [done|]. constructor; [|done].
  rewrite length_app, length_fmap, length_seq, length_replicate. lia.
Qed.

(** On the same corridor the [path] method of [part_000], which tests the
    wrapped distance, refuses the far end although its direction is an
    arrow. *)
Lemma corridor_part000_path n :
  (0 < n)%nat → Z.of_nat n ≤ 65534 → int16 (Z.of_nat n) < 0 →
  ∃ a, Part000.init (S (S n)) (corridor n) = Return a ∧
    get2 "000"%char (directions a) 0 (Z.of_nat n) = "<"%char ∧
    ∀ fuel, Part000.path fuel a 0 (Z.of_nat n) = Raise NoPathExistsException.
Proof.
  intros Hpos Hn Hneg. unfold Part000.init. rewrite (corridor_draft int16 int32).
  - eexists. split; [reflexivity|]. cbn [distances directions]. split.
    + unfold corridor_state. cbn [locals.directions].
      rewrite Nat.sub_diag. cbn [replicate]. rewrite app_nil_r.
      rewrite get2_row, Nat2Z.id by lia.
      rewrite lookup_cons_ne_0, lookup_replicate_2 by lia. done.
    + intros fuel. unfold Part000.path, py_path. cbn [distances].
      rewrite (py_item2_inb 1 (Z.of_nat n + 1)), (read2_get2 0 1 (Z.of_nat n + 1))
        by (by apply corridor_state_shaped || (unfold inb; lia)).
      rewrite (corridor_distance_done int16 n n n) by lia.
      by rewrite (proj2 (Z.ltb_lt _ _) Hneg).
  - done.
  - intros k Hk. apply int16_not_unassigned. lia.
  - intros k Hk. apply wrap_small; lia.
Qed.

Lemma part000_path_overflow :
  ∃ a, Part000.init (S (S (Z.to_nat 32768))) (corridor (Z.to_nat 32768)) = Return a ∧
    get2 "000"%char (directions a) 0 32768 = "<"%char ∧
    ∀ fuel, Part000.path fuel a 0 32768 = Raise NoPathExistsException.
Proof.
  assert (Z.of_nat (Z.to_nat 32768) = 32768) as Hn by (apply Z2Nat.id; lia).
  destruct (corridor_part000_path (Z.to_nat 32768)) as (a & Ha & Hdir & Hpath).
  - lia.
  - rewrite Hn. lia.
  - rewrite Hn. reflexivity.
  - rewrite Hn in Hdir, Hpath. exists a.
    split; [exact Ha|]. split; [exact Hdir|exact Hpath].
Qed.

(** ** The distance field and the refusal of [path], module by module *)

Lemma valid_corridor n :
  Z.of_nat n + 1 < 2 ^ 31 → valid_grid (corridor n) 1 (Z.of_nat n + 1).
Proof.
  intros Hn. split; [lia|]. split; [lia|]. split; [apply shaped_corridor|lia].
Qed.

Lemma int16_values_corridor n : int16_values (corridor n).
Proof.
  unfold int16_values, corridor. constructor; [|done].
  constructor; [lia|]. apply Forall_replicate. lia.
Qed.

(** On the corridor the cell of column [j] is [j] hops from the goal. *)
Lemma corridor_shortest n j :
  Z.of_nat n + 1 < 2 ^ 31 → (j ≤ n)%nat →
  shortest_hops (corridor n) 1 (Z.of_nat n + 1) (0, Z.of_nat j) (Z.of_nat j).
Proof.
  intros Hn Hj.
  pose proof (valid_corridor n Hn) as Hvalid.
  destruct (flood_returns (corridor n) 1 (Z.of_nat n + 1) (S (S n)) Hvalid)
    as (dist & dirs & Hrun & HInv); [lia|].
  unfold Analysis.flood in Hrun. rewrite corridor_final in Hrun by lia.
  assert (dist = locals.distances (corridor_state int32 n n [])) as Hdist by congruence.
  assert (inb 1 (Z.of_nat n + 1) 0 (Z.of_nat j)) as Hi by (unfold inb; lia).
  assert (get2 0 dist 0 (Z.of_nat j) = Z.of_nat j) as Hd.
  { rewrite Hdist. rewrite (corridor_distance_done int32 n n j) by lia.
    apply wrap_small; lia. }
  destruct (Inv_distance_field (corridor n) 1 (Z.of_nat n + 1) dist dirs 0 (Z.of_nat j)
              HInv Hi) as (_ & _ & _ & Hshort).
  rewrite Hd in Hshort. apply Hshort.
  destruct (Inv_sound (corridor n) 1 (Z.of_nat n + 1) dist dirs [] j 0 (Z.of_nat j))
    as (p & Hp & _); [done|done|lia|]. by exists p.
Qed.

Lemma corridor_maze_pyx n :
  Z.of_nat n ≤ 65534 →
  ∃ dist dirs,
    MazePyx.flood (S (S n)) (corridor n) 1 (Z.of_nat n + 1) = Return (dist, dirs) ∧
    get2 0 dist 0 (Z.of_nat n) = int16 (Z.of_nat n).
Proof.
  intros Hn.
  assert (∀ k, 0 ≤ k ≤ Z.of_nat n → int16 k ≠ -1) as Hstore.
  { intros k Hk. apply int16_not_unassigned. lia. }
  assert (∀ k, 0 ≤ k ≤ Z.of_nat n → int32 k = k) as Hqd.
  { intros k Hk. apply wrap_small; lia. }
  pose proof (corridor_draft int16 int32 n eq_refl Hstore Hqd) as Hdraft.
  assert (scan (corridor n) 1 (Z.of_nat n + 1) = seed (corridor n)) as Hscan.
  { apply (seeded_unique (corridor n) 1 (Z.of_nat n + 1)); [apply scan_seeded|].
    apply seed_seeded; [lia|lia|apply shaped_corridor]. }
  rewrite shape_corridor in Hdraft. cbn [fst snd] in Hdraft.
  unfold MazePyx.flood. rewrite Hscan, Hdraft.
  eexists _, _. split; [reflexivity|].
  apply (corridor_distance_done int16 n n n); lia.
Qed.

(** C1 fails as stated for the flood of [maze.pyx]. The corridor of
    [32768] open cells behind a goal is a valid grid of [int16] values;
    its last cell is [32768] hops from the goal, and the [int16] distance
    field holds [-32768] there. *)
Lemma maze_pyx_distance_overflow :
  valid_grid (corridor (Z.to_nat 32768)) 1 32769 ∧
  int16_values (corridor (Z.to_nat 32768)) ∧
  ∃ dist dirs,
    MazePyx.flood (S (S (Z.to_nat 32768))) (corridor (Z.to_nat 32768)) 1 32769
      = Return (dist, dirs) ∧
    shortest_hops (corridor (Z.to_nat 32768)) 1 32769 (0, 32768) 32768 ∧
    get2 0 dist 0 32768 = -32768.
Proof.
  assert (Z.of_nat (Z.to_nat 32768) = 32768) as Hn by (apply Z2Nat.id; lia).
  pose proof (valid_corridor (Z.to_nat 32768)) as Hvalid.
  pose proof (corridor_shortest (Z.to_nat 32768) (Z.to_nat 32768)) as Hshort.
  pose proof (corridor_maze_pyx (Z.to_nat 32768)) as Hrun.
  rewrite Hn in Hvalid, Hshort, Hrun.
  change (32768 + 1) with 32769 in Hvalid, Hshort, Hrun.
  split; [apply Hvalid; lia|]. split; [apply int16_values_corridor|].
  destruct Hrun as (dist & dirs & Hrun & Hd); [lia|].
  exists dist, dirs. split; [exact Hrun|]. split; [apply Hshort; lia|exact Hd].
Qed.

(** C1, amended. For every valid grid the flood of [analysis.pyx] returns
    a distance field in which every wall and every open cell without a
    walk to a goal holds [-1], every goal holds [0], and every cell with a
    walk to a goal holds the number of hops of a shortest such walk (walls
    impassable, cardinal steps only). The flood of [maze.pyx], whose
    distance field is [int16], returns such a field for every valid grid
    of [int16] values with at most [2 ^ 15] cells. *)
Theorem flood_distance_field maze w h fuel :
  valid_grid maze w h → w * h < Z.of_nat fuel →
  (∃ dist dirs reach,
     Analysis.flood fuel maze w h = Return (dist, dirs, reach) ∧
     shaped w h dist ∧
     ∀ x y, inb w h x y →
       (get2 0 maze x y < 0 → get2 0 dist x y = -1) ∧
       (¬ reachable maze w h (x, y) → get2 0 dist x y = -1) ∧
       (get2 0 maze x y = 1 → get2 0 dist x y = 0) ∧
       (reachable maze w h (x, y) →
          shortest_hops maze w h (x, y) (get2 0 dist x y))) ∧
  (int16_values maze → w * h ≤ 2 ^ 15 →
   ∃ dist dirs,
     MazePyx.flood fuel maze w h = Return (dist, dirs) ∧
     shaped w h dist ∧
     ∀ x y, inb w h x y →
       (get2 0 maze x y < 0 → get2 0 dist x y = -1) ∧
       (¬ reachable maze w h (x, y) → get2 0 dist x y = -1) ∧
       (get2 0 maze x y = 1 → get2 0 dist x y = 0) ∧
       (reachable maze w h (x, y) →
          shortest_hops maze w h (x, y) (get2 0 dist x y))).
Proof.
  intros Hvalid Hfuel. split.
  - destruct (flood_returns maze w h fuel Hvalid Hfuel) as (dist & dirs & Hrun & HInv).
    exists dist, dirs, (Analysis.directions2reachable dirs w h).
    split; [done|]. split; [apply HInv|].
    intros x y Hi. by apply (Inv_distance_field maze w h dist dirs).
  - intros _ Hint16.
    destruct (maze_pyx_flood_returns maze w h fuel Hvalid Hint16 Hfuel)
      as (dist & dirs & Hrun & HInv).
    exists dist, dirs. split; [done|]. split; [apply HInv|].
    intros x y Hi. by apply (Inv_distance_field maze w h dist dirs).
Qed.

Lemma flood_distance_field_witness :
  (∃ dist dirs reach,
     Analysis.flood 10 example_grid 3 3 = Return (dist, dirs, reach) ∧
     shaped 3 3 dist ∧
     ∀ x y, inb 3 3 x y →
       (get2 0 example_grid x y < 0 → get2 0 dist x y = -1) ∧
       (¬ reachable example_grid 3 3 (x, y) → get2 0 dist x y = -1) ∧
       (get2 0 example_grid x y = 1 → get2 0 dist x y = 0) ∧
       (reachable example_grid 3 3 (x, y) →
          shortest_hops example_grid 3 3 (x, y) (get2 0 dist x y))) ∧
  (∃ dist dirs,
     MazePyx.flood 10 example_grid 3 3 = Return (dist, dirs) ∧
     shaped 3 3 dist ∧
     ∀ x y, inb 3 3 x y →
       (get2 0 example_grid x y < 0 → get2 0 dist x y = -1) ∧
       (¬ reachable example_grid 3 3 (x, y) → get2 0 dist x y = -1) ∧
       (get2 0 example_grid x y = 1 → get2 0 dist x y = 0) ∧
       (reachable example_grid 3 3 (x, y) →
          shortest_hops example_grid 3 3 (x, y) (get2 0 dist x y))).
Proof.
  assert (valid_grid example_grid 3 3) as Hvalid.
  { unfold valid_grid, shaped, example_grid. simpl.
    repeat split; try lia. repeat constructor. }
  assert (3 * 3 < Z.of_nat 10) as Hfuel by lia.
  split.
  - apply (flood_distance_field example_grid 3 3 10 Hvalid Hfuel).
  - apply (flood_distance_field example_grid 3 3 10 Hvalid Hfuel).
    + unfold int16_values, example_grid. repeat constructor; lia.
    + lia.
Defined.

(** C6 fails as stated for [path] of [part_000]. On the object that
    [part_000] builds for the corridor of [32768] open cells behind a goal,
    the last cell holds the arrow ['<'], and [path] raises
    [NoPathExistsException] there: it tests the distance, which has
    wrapped to [-32768]. *)
Lemma part000_path_refuses_arrow :
  valid_grid (corridor (Z.to_nat 32768)) 1 32769 ∧
  inb 1 32769 0 32768 ∧
  ∃ a, Part000.init (S (S (Z.to_nat 32768))) (corridor (Z.to_nat 32768)) = Return a ∧
    get2 "000"%char (directions a) 0 32768 = "<"%char ∧
    ∀ fuel, Part000.path fuel a 0 32768 = Raise NoPathExistsException.
Proof.
  assert (Z.of_nat (Z.to_nat 32768) = 32768) as Hn by (apply Z2Nat.id; lia).
  pose proof (valid_corridor (Z.to_nat 32768)) as Hvalid.
  rewrite Hn in Hvalid. change (32768 + 1) with 32769 in Hvalid.
  split; [apply Hvalid; lia|]. split; [unfold inb; lia|].
  exact part000_path_overflow.
Qed.

(** C6, amended. At an in-bounds coordinate [path] of [analysis.pyx], on
    the object [analysis.pyx] builds for a valid grid, raises
    [NoPathExistsException] exactly when the cell's direction is ['#'] or
    [' ']; it then returns no list. [path] of [part_000], on the object
    [part_000] builds, does the same for every valid grid of at most
    [2 ^ 15] cells. [path] is a function of the analysis object and does
    not change it. *)
Theorem path_raises_iff maze w h fuel row column :
  valid_grid maze w h → w * h < Z.of_nat fuel → inb w h row column →
  (∃ a, Analysis.init fuel maze = Return a ∧
     ∀ fuel',
       let blocked := get2 "000"%char (directions a) row column = "#"%char ∨
                      get2 "000"%char (directions a) row column = " "%char in
       (Analysis.path fuel' a row column = Raise NoPathExistsException ↔ blocked) ∧
       (blocked → ∀ p, Analysis.path fuel' a row column ≠ Return p)) ∧
  (w * h ≤ 2 ^ 15 →
   ∃ a, Part000.init fuel maze = Return a ∧
     ∀ fuel',
       let blocked := get2 "000"%char (directions a) row column = "#"%char ∨
                      get2 "000"%char (directions a) row column = " "%char in
       (Part000.path fuel' a row column = Raise NoPathExistsException ↔ blocked) ∧
       (blocked → ∀ p, Part000.path fuel' a row column ≠ Return p)).
Proof.
  intros Hvalid Hfuel Hi. split.
  - destruct (init_returns maze w h fuel Hvalid Hfuel) as (a & Hrun & HInv & _).
    exists a. split; [done|]. intros fuel' blocked.
    assert (Analysis.path fuel' a row column = Raise NoPathExistsException ↔ blocked) as Hiff.
    { unfold Analysis.path, Analysis.build_path, blocked.
      rewrite (read2_get2 "000"%char w h) by (done || apply HInv).
      destruct (Ascii.eqb (get2 "000"%char (directions a) row column) "#") eqn:Ewall.
      { apply Ascii.eqb_eq in Ewall. simpl. split; [by left|done]. }
      destruct (Ascii.eqb (get2 "000"%char (directions a) row column) " ") eqn:Enone.
      { apply Ascii.eqb_eq in Enone. simpl. split; [by right|done]. }
      apply Ascii.eqb_neq in Ewall, Enone. simpl. split.
      - intros Hraise. by apply follow_never_raises in Hraise.
      - intros [|]; done. }
    split; [done|]. intros Hb p Hp. apply Hiff in Hb. congruence.
  - intros Hint16.
    destruct (part000_init_returns maze w h fuel Hvalid Hint16 Hfuel) as (a & Hrun & HInv).
    exists a. split; [done|]. intros fuel' blocked.
    assert (Part000.path fuel' a row column = Raise NoPathExistsException ↔ blocked) as Hiff.
    { unfold blocked. rewrite (blocked_iff_unassigned _ _ _ _ _ _ _ _ HInv Hi).
      unfold Part000.path, py_path.
      rewrite (py_item2_inb w h), (read2_get2 0 w h) by (done || apply HInv).
      destruct (get2 0 (distances a) row column <? 0) eqn:Eneg.
      - apply Z.ltb_lt in Eneg. done.
      - apply Z.ltb_ge in Eneg. split; [|lia].
        intros Hraise. by apply py_follow_no_path_error in Hraise. }
    split; [done|]. intros Hb p Hp. apply Hiff in Hb. congruence.
Qed.

Lemma path_raises_iff_witness :
  (∃ a, Analysis.init 10 example_grid = Return a ∧
     ∀ fuel',
       let blocked := get2 "000"%char (directions a) 1 1 = "#"%char ∨
                      get2 "000"%char (directions a) 1 1 = " "%char in
       (Analysis.path fuel' a 1 1 = Raise NoPathExistsException ↔ blocked) ∧
       (blocked → ∀ p, Analysis.path fuel' a 1 1 ≠ Return p)) ∧
  (∃ a, Part000.init 10 example_grid = Return a ∧
     ∀ fuel',
       let blocked := get2 "000"%char (directions a) 1 1 = "#"%char ∨
                      get2 "000"%char (directions a) 1 1 = " "%char in
       (Part000.path fuel' a 1 1 = Raise NoPathExistsException ↔ blocked) ∧
       (blocked → ∀ p, Part000.path fuel' a 1 1 ≠ Return p)).
Proof.
  assert (valid_grid example_grid 3 3) as Hvalid.
  { unfold valid_grid, shaped, example_grid. simpl.
    repeat split; try lia. repeat constructor. }
  assert (3 * 3 < Z.of_nat 10) as Hfuel by lia.
  assert (inb 3 3 1 1) as Hi by (unfold inb; lia).
  split.
  - apply (path_raises_iff example_grid 3 3 10 1 1 Hvalid Hfuel Hi).
  - apply (path_raises_iff example_grid 3 3 10 1 1 Hvalid Hfuel Hi). lia.
Defined.

(** ** The scenarios of the specification *)

Example scenario_readme : Analysis.init 10 example_grid = Return example_analysis.
Proof. reflexivity. Qed.

Example scenario_readme_path :
  Analysis.path 10 example_analysis 0 0 =
    Return [(0, 0); (1, 0); (2, 0); (2, 1); (2, 2); (1, 2); (0, 2)] ∧
  Analysis.path 10 example_analysis 1 1 = Raise NoPathExistsException.
Proof. split; reflexivity. Qed.

Example scenario_single_goal :
  Analysis.init 2 [[1]] =
    Return {| distances := [[0]]; directions := [["X"%char]]; is_reachable := true |} ∧
  Analysis.build_path 2 [["X"%char]] 0 0 = Return [(0, 0)].
Proof. split; reflexivity. Qed.

Example scenario_no_goal :
  Analysis.init 5 [[0; -1]; [0; 0]] =
    Return {| distances := [[-1; -1]; [-1; -1]];
              directions := [[" "; "#"]; [" "; " "]]%char;
              is_reachable := false |}.
Proof. reflexivity. Qed.

Example scenario_sealed_pocket :
  Analysis.init 7 [[1; -1; 0]; [0; -1; 0]] =
    Return {| distances := [[0; -1; -1]; [1; -1; -1]];
              directions := [["X"; "#"; " "]; ["^"; "#"; " "]]%char;
              is_reachable := false |}.
Proof. reflexivity. Qed.

(** * Further properties of the code *)

(** ** The fields of the flood *)

(** X1. Every arrow of the direction field leads to a cell inside the
    grid that is not a wall and whose distance is exactly one less. *)
Theorem flood_arrows_descend maze w h fuel :
  valid_grid maze w h → w * h < Z.of_nat fuel →
  ∃ dist dirs reach,
    Analysis.flood fuel maze w h = Return (dist, dirs, reach) ∧
    ∀ x y, inb w h x y → is_arrow (get2 "000"%char dirs x y) →
      let o := Analysis.dirs (get2 "000"%char dirs x y) in
      let x' := x + coords.x o in
      let y' := y + coords.y o in
      adjacent (x, y) (x', y') ∧ passable maze w h (x', y') ∧
      get2 0 dist x' y' = get2 0 dist x y - 1 ∧ 0 ≤ get2 0 dist x' y'.
Proof.
  intros Hvalid Hfuel.
  destruct (flood_returns maze w h fuel Hvalid Hfuel) as (dist & dirs & Hrun & HInv).
  exists dist, dirs, (Analysis.directions2reachable dirs w h).
  split; [done|]. intros x y Hi Harr. cbv zeta.
  destruct (arrow_chars _ Harr) as (Hwall & Hnone & Hgoal).
  pose proof (inv_cell _ _ _ _ _ _ HInv x y Hi) as Hcell. unfold cell_ok in Hcell.
  destruct Hcell as [(_ & [(_ & ?)|(_ & _ & ?)])|[(_ & _ & ?)|(Hd & _ & _ & _ & Hbo & Hdo)]];
    try done.
  cbv zeta in Hbo, Hdo.
  split; [by apply arrow_adjacent|]. split; [|split; [done|lia]].
  split; [done|]. simpl.
  pose proof (inv_cell _ _ _ _ _ _ HInv _ _ Hbo) as Hnext. unfold cell_ok in Hnext.
  destruct Hnext as [(? & _)|[(_ & ? & _)|(_ & ? & _)]]; lia.
Qed.

Lemma flood_arrows_descend_witness :
  ∃ dist dirs reach,
    Analysis.flood 10 example_grid 3 3 = Return (dist, dirs, reach) ∧
    ∀ x y, inb 3 3 x y → is_arrow (get2 "000"%char dirs x y) →
      let o := Analysis.dirs (get2 "000"%char dirs x y) in
      let x' := x + coords.x o in
      let y' := y + coords.y o in
      adjacent (x, y) (x', y') ∧ passable example_grid 3 3 (x', y') ∧
      get2 0 dist x' y' = get2 0 dist x y - 1 ∧ 0 ≤ get2 0 dist x' y'.
Proof.
  apply (flood_arrows_descend example_grid 3 3 10).
  - unfold valid_grid, shaped, example_grid. simpl.
    repeat split; try lia. repeat constructor.
  - lia.
Defined.

(** X2. The direction field classifies the cells of the grid: ['#'] marks
    exactly the negative cells, ['X'] exactly the cells of value [1],
    [' '] exactly the open cells without a walk to a goal, and an arrow
    exactly the open cells, other than goals, with such a walk. *)
Theorem flood_directions_classify maze w h fuel :
  valid_grid maze w h → w * h < Z.of_nat fuel →
  ∃ dist dirs reach,
    Analysis.flood fuel maze w h = Return (dist, dirs, reach) ∧
    ∀ x y, inb w h x y →
      let c := get2 "000"%char dirs x y in
      let m := get2 0 maze x y in
      (c = "#"%char ↔ m < 0) ∧
      (c = "X"%char ↔ m = 1) ∧
      (c = " "%char ↔ 0 ≤ m ∧ m ≠ 1 ∧ ¬ reachable maze w h (x, y)) ∧
      (is_arrow c ↔ 0 ≤ m ∧ m ≠ 1 ∧ reachable maze w h (x, y)).
Proof.
  intros Hvalid Hfuel.
  destruct (flood_returns maze w h fuel Hvalid Hfuel) as (dist & dirs & Hrun & HInv).
  exists dist, dirs, (Analysis.directions2reachable dirs w h).
  split; [done|]. intros x y Hi. cbv zeta.
  assert (reachable maze w h (x, y) → get2 0 dist x y ≠ -1) as Hreach.
  { intros [p Hp]. by destruct (Inv_complete _ _ _ _ _ _ _ _ HInv Hp). }
  assert (get2 0 dist x y ≠ -1 → reachable maze w h (x, y)) as Hfound.
  { intros Hne. pose proof (Inv_distance_range _ _ _ _ _ _ x y HInv Hi).
    destruct (Inv_sound maze w h dist dirs [] (Z.to_nat (get2 0 dist x y)) x y)
      as (p & Hp & _); [done|done|lia|]. by exists p. }
  pose proof (inv_cell _ _ _ _ _ _ HInv x y Hi) as Hcell. unfold cell_ok in Hcell.
  destruct Hcell as [(Hd & [(Hm & Hc)|(Hm & Hm1 & Hc)])|[(Hd & Hm & Hc)|(Hd & Hm & Hm1 & Harr & _)]].
  - rewrite Hc. split; [done|]. split; [split; [done|lia]|].
    split; [split; [done|lia]|]. split; [intros [|[|[|]]]; done|lia].
  - rewrite Hc. split; [split; [done|lia]|]. split; [split; [done|lia]|].
    split.
    + split; [|done]. intros _. split; [done|]. split; [done|].
      intros Hr. by apply Hreach in Hr.
    + split; [intros [|[|[|]]]; done|]. intros (_ & _ & Hr). by apply Hreach in Hr.
  - rewrite Hc. split; [split; [done|lia]|]. split; [done|].
    split; [split; [done|lia]|]. split; [intros [|[|[|]]]; done|lia].
  - destruct (arrow_chars _ Harr) as (? & ? & ?).
    split; [split; [done|lia]|]. split; [split; [done|lia]|].
    split.
    + split; [done|]. intros (_ & _ & Hnr). destruct Hnr. apply Hfound. lia.
    + split; [|done]. intros _. split; [done|]. split; [done|]. apply Hfound. lia.
Qed.

Lemma flood_directions_classify_witness :
  ∃ dist dirs reach,
    Analysis.flood 10 example_grid 3 3 = Return (dist, dirs, reach) ∧
    ∀ x y, inb 3 3 x y →
      let c := get2 "000"%char dirs x y in
      let m := get2 0 example_grid x y in
      (c = "#"%char ↔ m < 0) ∧
      (c = "X"%char ↔ m = 1) ∧
      (c = " "%char ↔ 0 ≤ m ∧ m ≠ 1 ∧ ¬ reachable example_grid 3 3 (x, y)) ∧
      (is_arrow c ↔ 0 ≤ m ∧ m ≠ 1 ∧ reachable example_grid 3 3 (x, y)).
Proof.
  apply (flood_directions_classify example_grid 3 3 10).
  - unfold valid_grid, shaped, example_grid. simpl.
    repeat split; try lia. repeat constructor.
  - lia.
Defined.

(** At the end of the flood no cell holds [' '] exactly when every cell
    that is not a wall has a walk to a goal. *)
Lemma Inv_no_blank maze w h dist dirs :
  Inv maze w h dist dirs [] →
  (∀ x y, inb w h x y → get2 "000"%char dirs x y ≠ " "%char) ↔
  (∀ x y, inb w h x y → 0 ≤ get2 0 maze x y → reachable maze w h (x, y)).
Proof.
  intros HInv. split.
  - intros Hnone x y Hi Hm. specialize (Hnone x y Hi).
    pose proof (Inv_distance_range _ _ _ _ _ _ x y HInv Hi).
    pose proof (inv_cell _ _ _ _ _ _ HInv x y Hi) as Hcell. unfold cell_ok in Hcell.
    assert (get2 0 dist x y ≠ -1) as Hne.
    { destruct Hcell as [(_ & [(? & _)|(_ & _ & ?)])|[(? & _)|(? & _)]]; try done; lia. }
    destruct (Inv_sound maze w h dist dirs [] (Z.to_nat (get2 0 dist x y)) x y)
      as (p & Hp & _); [done|done|lia|]. by exists p.
  - intros Hall x y Hi Hsp.
    pose proof (inv_cell _ _ _ _ _ _ HInv x y Hi) as Hcell. unfold cell_ok in Hcell.
    rewrite Hsp in Hcell.
    destruct Hcell as [(Hd & [(_ & ?)|(Hm & _)])|[(_ & _ & ?)|(_ & _ & _ & Harr & _)]];
      try done.
    + destruct (Hall x y Hi Hm) as [p Hp].
      by destruct (Inv_complete _ _ _ _ _ _ _ _ HInv Hp).
    + by destruct (arrow_chars _ Harr) as (_ & ? & _).
Qed.

(** X3. The reachability flag is [true] exactly when every cell that is
    not a wall has a walk to a goal. *)
Theorem flood_reachable_means_all_reach maze w h fuel :
  valid_grid maze w h → w * h < Z.of_nat fuel →
  ∃ dist dirs reach,
    Analysis.flood fuel maze w h = Return (dist, dirs, reach) ∧
    (reach = true ↔
     ∀ x y, inb w h x y → 0 ≤ get2 0 maze x y → reachable maze w h (x, y)).
Proof.
  intros Hvalid Hfuel.
  destruct (flood_returns maze w h fuel Hvalid Hfuel) as (dist & dirs & Hrun & HInv).
  exists dist, dirs, (Analysis.directions2reachable dirs w h).
  split; [done|]. rewrite directions2reachable_spec.
  by apply (Inv_no_blank maze w h dist dirs).
Qed.

Lemma flood_reachable_means_all_reach_witness :
  ∃ dist dirs reach,
    Analysis.flood 10 example_grid 3 3 = Return (dist, dirs, reach) ∧
    (reach = true ↔
     ∀ x y, inb 3 3 x y → 0 ≤ get2 0 example_grid x y →
       reachable example_grid 3 3 (x, y)).
Proof.
  apply (flood_reachable_means_all_reach example_grid 3 3 10).
  - unfold valid_grid, shaped, example_grid. simpl.
    repeat split; try lia. repeat constructor.
  - lia.
Defined.

(** X4. Between two neighbouring cells that are not walls the distance
    field has no gap: if one of them has a distance, so has the other, and
    the two differ by at most one. *)
Theorem flood_neighbours_differ_by_one maze w h fuel :
  valid_grid maze w h → w * h < Z.of_nat fuel →
  ∃ dist dirs reach,
    Analysis.flood fuel maze w h = Return (dist, dirs, reach) ∧
    ∀ a b, adjacent a b → passable maze w h a → passable maze w h b →
      get2 0 dist a.1 a.2 ≠ -1 →
      get2 0 dist b.1 b.2 ≠ -1 ∧
      Z.abs (get2 0 dist b.1 b.2 - get2 0 dist a.1 a.2) ≤ 1.
Proof.
  intros Hvalid Hfuel.
  destruct (flood_returns maze w h fuel Hvalid Hfuel) as (dist & dirs & Hrun & HInv).
  exists dist, dirs, (Analysis.directions2reachable dirs w h).
  split; [done|]. intros [x y] [x' y'] Hadj Ha Hb Hne. simpl.
  destruct (inv_closed _ _ _ _ _ _ HInv x y (proj1 Ha) Hne) as [(it & Hit & _)|Hexp].
  { by apply elem_of_nil in Hit. }
  destruct (Hexp x' y' Hadj Hb) as [Hne' Hle].
  destruct (inv_closed _ _ _ _ _ _ HInv x' y' (proj1 Hb) Hne') as [(it & Hit & _)|Hexp'].
  { by apply elem_of_nil in Hit. }
  destruct (Hexp' x y (adjacent_sym _ _ Hadj) Ha) as [_ Hle'].
  split; [done|lia].
Qed.

Lemma flood_neighbours_differ_by_one_witness :
  ∃ dist dirs reach,
    Analysis.flood 10 example_grid 3 3 = Return (dist, dirs, reach) ∧
    ∀ a b, adjacent a b → passable example_grid 3 3 a → passable example_grid 3 3 b →
      get2 0 dist a.1 a.2 ≠ -1 →
      get2 0 dist b.1 b.2 ≠ -1 ∧
      Z.abs (get2 0 dist b.1 b.2 - get2 0 dist a.1 a.2) ≤ 1.
Proof.
  apply (flood_neighbours_differ_by_one example_grid 3 3 10).
  - unfold valid_grid, shaped, example_grid. simpl.
    repeat split; try lia. repeat constructor.
  - lia.
Defined.

(** ** The returned path *)

Lemma follow_walk maze w h dist dirs lq (n : nat) :
  Inv maze w h dist dirs lq →
  ∀ fuel x y acc, inb w h x y → get2 0 dist x y = Z.of_nat n → (n < fuel)%nat →
  ∃ trail,
    Analysis.follow fuel dirs x y acc = Return (acc ++ trail) ∧
    path_to_goal maze w h (x, y) trail ∧
    length trail = n ∧
    ∀ i c, ((x, y) :: trail) !! i = Some c →
      get2 0 dist c.1 c.2 = Z.of_nat n - Z.of_nat i.
Proof.
  intros HInv. induction n as [|n IH]; intros fuel x y acc Hi Hd Hfuel.
  - destruct fuel as [|fuel]; [lia|]. exists []. cbn [Analysis.follow].
    rewrite (read2_get2 "000"%char w h) by (done || apply HInv).
    destruct (inv_cell _ _ _ _ _ _ HInv x y Hi) as [(? & _)|[(_ & Hm & ->)|(? & _)]];
      [lia| |lia].
    simpl. rewrite app_nil_r. split; [done|]. split.
    { unfold passable, is_goal. simpl. rewrite Hm. done. }
    split; [done|]. intros [|i] c Hc; [|done]. injection Hc as <-. simpl. lia.
  - destruct fuel as [|fuel]; [lia|]. cbn [Analysis.follow].
    rewrite (read2_get2 "000"%char w h) by (done || apply HInv).
    destruct (inv_cell _ _ _ _ _ _ HInv x y Hi)
      as [(? & _)|[(? & _)|(_ & Hm & _ & Harr & Hbo & Hdo)]]; [lia..|].
    cbv zeta in Hbo, Hdo. rewrite (arrow_not_goal _ Harr). cbv zeta.
    pose proof (arrow_adjacent x y _ Harr) as Hadj.
    set (x' := x + _) in *. set (y' := y + _) in *.
    destruct (IH fuel x' y' (acc ++ [(x', y')]) Hbo) as (trail & Hrun & Hwalk & Hlen & Hdist);
      [lia..|].
    exists ((x', y') :: trail). rewrite Hrun, <- app_assoc. split; [done|].
    split; [|split].
    + cbn [path_to_goal]. split; [done|]. by split.
    + simpl. by rewrite Hlen.
    + intros [|i] c Hc.
      * injection Hc as <-. simpl. lia.
      * rewrite (Hdist i c Hc). lia.
Qed.

(** X5. The path returned for a start with an arrow or ['X'] is a walk
    over cells that are not walls, by cardinal steps, that ends on a goal;
    no walk from the start to a goal has fewer hops, and the path visits no
    cell twice. *)
Theorem path_is_shortest_walk maze w h fuel row column :
  valid_grid maze w h → w * h < Z.of_nat fuel → inb w h row column →
  ∃ a, Analysis.init fuel maze = Return a ∧
    (is_arrow (get2 "000"%char (directions a) row column) ∨
     get2 "000"%char (directions a) row column = "X"%char →
     ∃ rest, Analysis.path fuel a row column = Return ((row, column) :: rest) ∧
       path_to_goal (astype_int8 maze) w h (row, column) rest ∧
       (∀ p, path_to_goal (astype_int8 maze) w h (row, column) p →
          (length rest ≤ length p)%nat) ∧
       NoDup ((row, column) :: rest)).
Proof.
  intros Hvalid Hfuel Hi.
  destruct (init_returns maze w h fuel Hvalid Hfuel) as (a & Hrun & HInv & _).
  exists a. split; [done|]. intros Htag.
  pose proof (Inv_distance_range _ _ _ _ _ _ row column HInv Hi) as Hrange.
  pose proof (inv_cell _ _ _ _ _ _ HInv row column Hi) as Hcell. unfold cell_ok in Hcell.
  assert (get2 0 (distances a) row column ≠ -1 ∧
          (Ascii.eqb (get2 "000"%char (directions a) row column) "#"
           || Ascii.eqb (get2 "000"%char (directions a) row column) " ") = false)
    as (Hne & Hopen).
  { destruct Hcell as [(_ & [(_ & Hc)|(_ & _ & Hc)])|[(Hd & _ & Hc)|(Hd & _ & _ & Harr & _)]].
    - rewrite Hc in Htag. destruct Htag as [[|[|[|]]]|]; done.
    - rewrite Hc in Htag. destruct Htag as [[|[|[|]]]|]; done.
    - rewrite Hc, Hd. done.
    - split; [lia|]. by apply arrow_not_blocked. }
  destruct (follow_walk _ w h _ _ [] (Z.to_nat (get2 0 (distances a) row column)) HInv
              fuel row column [(row, column)] Hi)
    as (rest & Hfollow & Hwalk & Hlen & Hdist); [lia..|].
  exists rest. split; [|split; [done|split]].
  - unfold Analysis.path, Analysis.build_path.
    rewrite (read2_get2 "000"%char w h) by (done || apply HInv).
    by rewrite Hopen, Hfollow.
  - intros p Hp. destruct (Inv_complete _ _ _ _ _ _ _ _ HInv Hp) as [_ Hle]. lia.
  - apply NoDup_alt. intros i j c Hci Hcj.
    pose proof (Hdist i c Hci). pose proof (Hdist j c Hcj). lia.
Qed.

Lemma path_is_shortest_walk_witness :
  ∃ a, Analysis.init 10 example_grid = Return a ∧
    (is_arrow (get2 "000"%char (directions a) 0 0) ∨
     get2 "000"%char (directions a) 0 0 = "X"%char →
     ∃ rest, Analysis.path 10 a 0 0 = Return ((0, 0) :: rest) ∧
       path_to_goal (astype_int8 example_grid) 3 3 (0, 0) rest ∧
       (∀ p, path_to_goal (astype_int8 example_grid) 3 3 (0, 0) p →
          (length rest ≤ length p)%nat) ∧
       NoDup ((0, 0) :: rest)).
Proof.
  apply (path_is_shortest_walk example_grid 3 3 10 0 0).
  - unfold valid_grid, shaped, example_grid. simpl.
    repeat split; try lia. repeat constructor.
  - lia.
  - unfold inb. lia.
Defined.

(** ** [build_path] on an arbitrary direction field *)

Lemma arrow_or_no_offset c : is_arrow c ∨ Analysis.dirs c = coords.make 0 0.
Proof.
  unfold Analysis.dirs, is_arrow.
  destruct (Ascii.eqb c "v") eqn:Ev; [apply Ascii.eqb_eq in Ev; tauto|].
  destruct (Ascii.eqb c "^") eqn:Eu; [apply Ascii.eqb_eq in Eu; tauto|].
  destruct (Ascii.eqb c ">") eqn:Er; [apply Ascii.eqb_eq in Er; tauto|].
  destruct (Ascii.eqb c "<") eqn:El; [apply Ascii.eqb_eq in El; tauto|].
  by right.
Qed.

Lemma no_arrow_no_offset c : ¬ is_arrow c → Analysis.dirs c = coords.make 0 0.
Proof. intros Hc. by destruct (arrow_or_no_offset c). Qed.

(** On a cell whose character is neither ['X'] nor a key of the map the
    loop adds the offset [(0, 0)] and stays where it is. *)
Lemma follow_stuck fuel directions row column c acc :
  read2 directions row column = Some c →
  c ≠ "X"%char → ¬ is_arrow c →
  Analysis.follow fuel directions row column acc = OutOfFuel.
Proof.
  intros Hread HX Harr. revert acc. induction fuel as [|fuel IH]; intros acc; [done|].
  cbn [Analysis.follow]. rewrite Hread.
  rewrite (proj2 (Ascii.eqb_neq _ _) HX). cbv zeta.
  rewrite (no_arrow_no_offset c Harr). cbn [coords.x coords.y].
  rewrite !Z.add_0_r. apply IH.
Qed.

(** X6. [build_path] started on a cell whose character is none of the
    seven the flood writes never finishes: the map yields the offset
    [(0, 0)] for the missing key and the loop stays on the cell. The same
    happens whenever the loop stands on a cell holding ['#'] or [' ']. *)
Theorem build_path_missing_key_hangs directions row column c :
  read2 directions row column = Some c →
  c ≠ "X"%char → ¬ is_arrow c →
  (∀ fuel acc, Analysis.follow fuel directions row column acc = OutOfFuel) ∧
  (c ≠ "#"%char → c ≠ " "%char →
   ∀ fuel, Analysis.build_path fuel directions row column = OutOfFuel).
Proof.
  intros Hread HX Harr. split.
  - intros fuel acc. by apply (follow_stuck _ _ _ _ c).
  - intros Hwall Hnone fuel. unfold Analysis.build_path. rewrite Hread.
    rewrite (proj2 (Ascii.eqb_neq _ _) Hwall), (proj2 (Ascii.eqb_neq _ _) Hnone).
    by apply (follow_stuck _ _ _ _ c).
Qed.

Lemma build_path_missing_key_hangs_witness :
  (∀ fuel acc, Analysis.follow fuel [["?"%char]] 0 0 acc = OutOfFuel) ∧
  ("?"%char ≠ "#"%char → "?"%char ≠ " "%char →
   ∀ fuel, Analysis.build_path fuel [["?"%char]] 0 0 = OutOfFuel).
Proof.
  apply (build_path_missing_key_hangs [["?"%char]] 0 0 "?"%char).
  - reflexivity.
  - discriminate.
  - unfold is_arrow. intros [H|[H|[H|H]]]; discriminate H.
Defined.

(** ** [build_path] as compiled: unchecked reads and C integers *)

Lemma lookup_concat_shaped {A} (h : nat) (a : matrix A) (x y : nat) :
  Forall (λ row, length row = h) a → (y < h)%nat →
  concat a !! (x * h + y)%nat = a !! x ≫= λ row, row !! y.
Proof.
  intros Hrows Hy. revert x. induction Hrows as [|row a Hrow Hrows IH]; intros x.
  - simpl. by rewrite !lookup_nil.
  - destruct x as [|x]; simpl.
    + rewrite lookup_app_l by lia. done.
    + rewrite lookup_app_r by lia. rewrite <- IH. f_equal. lia.
Qed.

(** Inside the field the unchecked read is the checked one. *)
Lemma peek_read2 {A} w h (a : matrix A) x y c :
  shaped w h a → read2 a x y = Some c → Compiled.peek a x y = Some c.
Proof.
  intros Hs Hread. pose proof (read2_Some w h a x y c Hs Hread) as [Hx Hy].
  unfold Compiled.peek, Compiled.data. rewrite (shape_valid w h) by (done || lia).
  cbn [snd]. cbv zeta. rewrite (proj2 (Z.leb_le _ _)) by nia.
  destruct Hs as [Hlen Hrows].
  replace (Z.to_nat (x * h + y)) with (Z.to_nat x * Z.to_nat h + Z.to_nat y)%nat by nia.
  rewrite (lookup_concat_shaped (Z.to_nat h)) by (done || lia).
  unfold read2 in Hread. by rewrite !(proj2 (Z.leb_le _ _)) in Hread by lia.
Qed.

Lemma fits_int_spec z : Compiled.fits_int z = true ↔ - 2 ^ 31 ≤ z < 2 ^ 31.
Proof.
  unfold Compiled.fits_int. rewrite andb_true_iff, Z.leb_le, Z.ltb_lt. done.
Qed.

Lemma dirs_offset_bound c :
  -1 ≤ coords.x (Analysis.dirs c) ≤ 1 ∧ -1 ≤ coords.y (Analysis.dirs c) ≤ 1.
Proof.
  destruct (arrow_or_no_offset c) as [[-> | [-> | [-> | ->]]]| ->]; simpl; lia.
Qed.

(** Where the model with checked reads gives a result, the compiled loop
    gives the same. *)
Lemma compiled_follow_refines w h directions fuel :
  shaped w h directions → w < 2 ^ 31 → h < 2 ^ 31 →
  ∀ row column acc,
    Analysis.follow fuel directions row column acc ≠ Undefined →
    Compiled.follow fuel directions row column acc
      = Analysis.follow fuel directions row column acc.
Proof.
  intros Hs Hw Hh. induction fuel as [|fuel IH]; intros row column acc Hdef; [done|].
  cbn [Analysis.follow Compiled.follow] in *.
  destruct (read2 directions row column) as [c|] eqn:Hread; [|done].
  rewrite (peek_read2 w h _ _ _ c Hs Hread).
  destruct (Ascii.eqb c "X"); [done|]. cbv zeta in *.
  pose proof (read2_Some w h _ _ _ _ Hs Hread) as [Hx Hy].
  pose proof (dirs_offset_bound c) as [Hdx Hdy].
  rewrite !(proj2 (fits_int_spec _)) by lia. cbn [andb]. by apply IH.
Qed.

Lemma compiled_build_path_refines w h directions fuel row column :
  shaped w h directions → w < 2 ^ 31 → h < 2 ^ 31 →
  Analysis.build_path fuel directions row column ≠ Undefined →
  Compiled.build_path fuel directions row column
    = Analysis.build_path fuel directions row column.
Proof.
  intros Hs Hw Hh Hdef. unfold Analysis.build_path, Compiled.build_path in *.
  destruct (read2 directions row column) as [c|] eqn:Hread; [|done].
  pose proof (read2_Some w h _ _ _ _ Hs Hread) as [Hx Hy].
  rewrite !(proj2 (fits_int_spec _)) by lia. cbn [andb].
  rewrite (peek_read2 w h _ _ _ c Hs Hread).
  destruct (Ascii.eqb c "#" || Ascii.eqb c " "); [done|].
  by apply (compiled_follow_refines w h).
Qed.

Lemma compiled_follow_never_raises fuel directions row column acc e :
  Compiled.follow fuel directions row column acc ≠ Raise e.
Proof.
  revert row column acc. induction fuel as [|fuel IH]; intros row column acc; [done|].
  cbn [Compiled.follow]. destruct (Compiled.peek directions row column) as [c|]; [|done].
  destruct (Ascii.eqb c "X"); [done|]. cbv zeta.
  destruct (_ && _); [apply IH|done].
Qed.

(** X7. When the start address lies inside the data of the direction
    field, the compiled [build_path] raises [OverflowError] exactly when
    [row] or [column] does not fit a C [int], and [NoPathExistsException]
    exactly when both fit and the byte at the start is ['#'] or [' ']: the
    loop never raises [NoPathExistsException], whatever it reads. *)
Theorem compiled_build_path_raises fuel directions row column c :
  Compiled.peek directions row column = Some c →
  (Compiled.build_path fuel directions row column = Raise OverflowError ↔
   ¬ (- 2 ^ 31 ≤ row < 2 ^ 31 ∧ - 2 ^ 31 ≤ column < 2 ^ 31)) ∧
  (Compiled.build_path fuel directions row column = Raise NoPathExistsException ↔
   (- 2 ^ 31 ≤ row < 2 ^ 31 ∧ - 2 ^ 31 ≤ column < 2 ^ 31) ∧
   (c = "#"%char ∨ c = " "%char)).
Proof.
  intros Hpeek. unfold Compiled.build_path. rewrite Hpeek.
  destruct (Compiled.fits_int row && Compiled.fits_int column) eqn:Hfits.
  - apply andb_true_iff in Hfits as [Hr Hc]. apply fits_int_spec in Hr, Hc.
    destruct (Ascii.eqb c "#") eqn:Ewall.
    { apply Ascii.eqb_eq in Ewall. simpl. split; [split; [done|tauto]|].
      split; [by intros _; split; [|left]|done]. }
    destruct (Ascii.eqb c " ") eqn:Enone.
    { apply Ascii.eqb_eq in Enone. simpl. split; [split; [done|tauto]|].
      split; [by intros _; split; [|right]|done]. }
    apply Ascii.eqb_neq in Ewall, Enone. simpl. split.
    + split; [|tauto]. intros Hraise. by apply compiled_follow_never_raises in Hraise.
    + split; [|intros [_ [|]]; done].
      intros Hraise. by apply compiled_follow_never_raises in Hraise.
  - assert (¬ (- 2 ^ 31 ≤ row < 2 ^ 31 ∧ - 2 ^ 31 ≤ column < 2 ^ 31)) as Hno.
    { intros [Hr Hc]. apply fits_int_spec in Hr, Hc. rewrite Hr, Hc in Hfits. done. }
    split; [done|]. split; [done|]. intros [? _]. done.
Qed.

(** On a byte that is neither ['X'] nor a key of the map the compiled loop
    stays where it is and returns nothing. *)
Lemma compiled_follow_stuck fuel directions row column c :
  Compiled.peek directions row column = Some c →
  c ≠ "X"%char → Analysis.dirs c = coords.make 0 0 →
  ∀ acc p, Compiled.follow fuel directions row column acc ≠ Return p.
Proof.
  intros Hpeek HX Hno. induction fuel as [|fuel IH]; intros acc p; [done|].
  cbn [Compiled.follow]. rewrite Hpeek, (proj2 (Ascii.eqb_neq _ _) HX). cbv zeta.
  rewrite Hno. cbn [coords.x coords.y]. rewrite !Z.add_0_r.
  destruct (_ && _); [apply IH|done].
Qed.

Lemma compiled_follow_chain fuel directions :
  ∀ row column acc p,
  Compiled.follow fuel directions row column acc = Return p →
  ∃ trail, p = acc ++ trail ∧
    follows_arrows directions ((row, column) :: trail) ∧
    cardinal_steps ((row, column) :: trail) ∧
    Forall (λ c, - 2 ^ 31 ≤ c.1 < 2 ^ 31 ∧ - 2 ^ 31 ≤ c.2 < 2 ^ 31) trail.
Proof.
  induction fuel as [|fuel IH]; intros row column acc p Hrun; [done|].
  pose proof Hrun as Hstep. cbn [Compiled.follow] in Hstep.
  destruct (Compiled.peek directions row column) as [c|] eqn:Hpeek; [|done].
  destruct (Ascii.eqb c "X") eqn:EX.
  - apply Ascii.eqb_eq in EX. subst c. injection Hstep as <-.
    exists []. rewrite app_nil_r. done.
  - apply Ascii.eqb_neq in EX. cbv zeta in Hstep.
    destruct (arrow_or_no_offset c) as [Harr|Hno].
    + destruct (Compiled.fits_int _ && Compiled.fits_int _) eqn:Hfits; [|done].
      apply andb_true_iff in Hfits as [Hr Hc]. apply fits_int_spec in Hr, Hc.
      destruct (IH _ _ _ _ Hstep) as (trail & -> & Hfollow & Hsteps & Hall).
      eexists (_ :: trail). rewrite <- app_assoc. split; [done|].
      split; [|split].
      * cbn [follows_arrows]. split; [|done]. exists c. done.
      * cbn [cardinal_steps]. split; [by apply arrow_adjacent|done].
      * constructor; done.
    + by apply (compiled_follow_stuck _ _ _ _ c Hpeek EX Hno) in Hrun.
Qed.

(** X8. On any direction field, a list the compiled [build_path] returns
    starts with the start; each entry but the last reads an arrow, at its
    address in the data, and is followed by the entry that arrow names;
    the last entry reads ['X']; consecutive entries are one cardinal step
    apart and every coordinate fits a C [int]. The entries need not lie
    inside the field. *)
Theorem compiled_build_path_chain fuel directions row column p :
  Compiled.build_path fuel directions row column = Return p →
  ∃ rest, p = (row, column) :: rest ∧
    follows_arrows directions p ∧
    cardinal_steps p ∧
    Forall (λ c, - 2 ^ 31 ≤ c.1 < 2 ^ 31 ∧ - 2 ^ 31 ≤ c.2 < 2 ^ 31) p.
Proof.
  unfold Compiled.build_path.
  destruct (Compiled.fits_int row && Compiled.fits_int column) eqn:Hfits; [|done].
  apply andb_true_iff in Hfits as [Hr Hc]. apply fits_int_spec in Hr, Hc.
  destruct (Compiled.peek directions row column) as [c|]; [|done].
  destruct (Ascii.eqb c "#" || Ascii.eqb c " "); [done|].
  intros Hrun.
  destruct (compiled_follow_chain _ _ _ _ _ _ Hrun) as (trail & -> & Hfollow & Hsteps & Hall).
  exists trail. split; [done|]. split; [done|]. split; [done|].
  constructor; done.
Qed.

Lemma compiled_build_path_chain_witness :
  ∃ rest, [(0, 1); (0, 2)] = (0, 1) :: rest ∧
    follows_arrows [[">"; ">"]; ["X"; "X"]]%char [(0, 1); (0, 2)] ∧
    cardinal_steps [(0, 1); (0, 2)] ∧
    Forall (λ c, - 2 ^ 31 ≤ c.1 < 2 ^ 31 ∧ - 2 ^ 31 ≤ c.2 < 2 ^ 31) [(0, 1); (0, 2)].
Proof.
  apply (compiled_build_path_chain 3 [[">"; ">"]; ["X"; "X"]]%char 0 1 [(0, 1); (0, 2)]).
  reflexivity.
Defined.

(** A path that leaves the field: from [(0, 1)] the arrow leads to
    [(0, 2)], whose address is that of the cell [(1, 0)]. *)
Example compiled_path_leaves_field :
  Compiled.build_path 3 [[">"; ">"]; ["X"; "X"]]%char 0 1 = Return [(0, 1); (0, 2)] ∧
  Analysis.build_path 3 [[">"; ">"]; ["X"; "X"]]%char 0 1 = Undefined.
Proof. split; reflexivity. Qed.

Lemma compiled_build_path_raises_witness :
  (Compiled.build_path 3 [["#"; "X"]]%char 0 0 = Raise OverflowError ↔
   ¬ (- 2 ^ 31 ≤ 0 < 2 ^ 31 ∧ - 2 ^ 31 ≤ 0 < 2 ^ 31)) ∧
  (Compiled.build_path 3 [["#"; "X"]]%char 0 0 = Raise NoPathExistsException ↔
   (- 2 ^ 31 ≤ 0 < 2 ^ 31 ∧ - 2 ^ 31 ≤ 0 < 2 ^ 31) ∧
   ("#"%char = "#"%char ∨ "#"%char = " "%char)).
Proof.
  apply (compiled_build_path_raises 3 [["#"; "X"]]%char 0 0 "#"%char).
  reflexivity.
Defined.

Example compiled_build_path_overflow :
  Compiled.build_path 3 [["#"; "X"]]%char (2 ^ 31) 1 = Raise OverflowError.
Proof. reflexivity. Qed.

(** On the fields of the flood the loop of [build_path] reads inside the
    field only. *)
Lemma follow_defined maze w h dist dirs lq :
  Inv maze w h dist dirs lq →
  ∀ fuel x y acc, inb w h x y → 0 ≤ get2 0 dist x y →
    Analysis.follow fuel dirs x y acc ≠ Undefined.
Proof.
  intros HInv. induction fuel as [|fuel IH]; intros x y acc Hi Hd; [done|].
  cbn [Analysis.follow].
  rewrite (read2_get2 "000"%char w h) by (done || apply HInv).
  pose proof (inv_cell _ _ _ _ _ _ HInv x y Hi) as Hcell. unfold cell_ok in Hcell.
  destruct Hcell as [(Hd' & _)|[(_ & _ & Hc)|(Hpos & _ & _ & Harr & Hin & Hstep)]].
  - lia.
  - by rewrite Hc.
  - destruct (arrow_chars _ Harr) as (_ & _ & HX).
    rewrite (proj2 (Ascii.eqb_neq _ _) HX). cbv zeta.
    apply IH; [done|lia].
Qed.

Lemma build_path_defined maze w h dist dirs lq fuel row column :
  Inv maze w h dist dirs lq → inb w h row column →
  Analysis.build_path fuel dirs row column ≠ Undefined.
Proof.
  intros HInv Hi. unfold Analysis.build_path.
  rewrite (read2_get2 "000"%char w h) by (done || apply HInv).
  pose proof (inv_cell _ _ _ _ _ _ HInv row column Hi) as Hcell. unfold cell_ok in Hcell.
  destruct Hcell as [(_ & [(_ & Hc)|(_ & _ & Hc)])|[(Hd & _ & Hc)|(Hpos & _ & _ & Harr & _)]].
  - by rewrite Hc.
  - by rewrite Hc.
  - rewrite Hc. cbn [Ascii.eqb orb]. simpl.
    apply (follow_defined maze w h dist dirs lq HInv); [done|lia].
  - destruct (arrow_chars _ Harr) as (Hw & Hs & _).
    rewrite (proj2 (Ascii.eqb_neq _ _) Hw), (proj2 (Ascii.eqb_neq _ _) Hs). cbn [orb].
    apply (follow_defined maze w h dist dirs lq HInv); [done|lia].
Qed.

(** X23. On the direction field that [analysis.pyx] builds for a valid
    grid no read of [build_path] leaves the field: for every in-bounds
    start the model with checked reads is defined, and the compiled
    [build_path] gives the same result. *)
Theorem compiled_path_on_flood_field maze w h fuel row column :
  valid_grid maze w h → w * h < Z.of_nat fuel → inb w h row column →
  ∃ a, Analysis.init fuel maze = Return a ∧
    ∀ fuel',
      Analysis.path fuel' a row column ≠ Undefined ∧
      Compiled.build_path fuel' (directions a) row column
        = Analysis.path fuel' a row column.
Proof.
  intros Hvalid Hfuel Hi.
  destruct (init_returns maze w h fuel Hvalid Hfuel) as (a & Hrun & HInv & _).
  exists a. split; [done|]. intros fuel'.
  destruct Hvalid as (Hw & Hh & Hs & Hfit).
  assert (Analysis.path fuel' a row column ≠ Undefined) as Hdef.
  { by apply (build_path_defined (astype_int8 maze) w h (distances a) (directions a) []). }
  split; [done|]. unfold Analysis.path in *.
  apply (compiled_build_path_refines w h); [apply HInv|nia|nia|done].
Qed.

Lemma compiled_path_on_flood_field_witness :
  ∃ a, Analysis.init 10 example_grid = Return a ∧
    ∀ fuel',
      Analysis.path fuel' a 0 0 ≠ Undefined ∧
      Compiled.build_path fuel' (directions a) 0 0 = Analysis.path fuel' a 0 0.
Proof.
  apply (compiled_path_on_flood_field example_grid 3 3 10 0 0).
  - unfold valid_grid, shaped, example_grid. simpl.
    repeat split; try lia. repeat constructor.
  - lia.
  - unfold inb. lia.
Defined.

(** ** The Python-level [path] of the drafts *)

Lemma py_item_inside {A} (l : list A) i :
  - Z.of_nat (length l) ≤ i < Z.of_nat (length l) →
  py_item l i = l !! Z.to_nat (i mod Z.of_nat (length l)).
Proof.
  intros Hi. unfold py_item. cbv zeta.
  destruct (i <? 0) eqn:Hneg.
  - apply Z.ltb_lt in Hneg. rewrite (proj2 (Z.leb_le _ _)) by lia.
    f_equal. f_equal.
    replace i with (Z.of_nat (length l) + i + (-1) * Z.of_nat (length l)) at 2 by lia.
    rewrite Z.mod_add by lia. rewrite Z.mod_small; lia.
  - apply Z.ltb_ge in Hneg. rewrite Z.mod_small; [done|lia].
Qed.

Lemma py_item_outside {A} (l : list A) i :
  ¬ (- Z.of_nat (length l) ≤ i < Z.of_nat (length l)) → py_item l i = None.
Proof.
  intros Hi. unfold py_item. cbv zeta.
  destruct (i <? 0) eqn:Hneg.
  - apply Z.ltb_lt in Hneg. by rewrite (proj2 (Z.leb_gt _ _)) by lia.
  - apply Z.ltb_ge in Hneg. apply lookup_ge_None. lia.
Qed.

Lemma py_item2_inside {A} w h (a : matrix A) row column :
  0 ≤ w → 0 ≤ h → shaped w h a →
  - w ≤ row < w → - h ≤ column < h →
  py_item2 a row column = read2 a (row mod w) (column mod h).
Proof.
  intros Hw Hh [Hlen Hrows] Hrow Hcol. unfold py_item2, read2.
  assert (Z.of_nat (length a) = w) as Hla by lia.
  rewrite py_item_inside, Hla by lia.
  pose proof (Z.mod_pos_bound row w ltac:(lia)).
  pose proof (Z.mod_pos_bound column h ltac:(lia)).
  rewrite !(proj2 (Z.leb_le _ _)) by lia. simpl.
  destruct (a !! Z.to_nat (row mod w)) as [r|] eqn:Hr; [|done]. simpl.
  assert (Z.of_nat (length r) = h) as Hlr.
  { rewrite (Forall_lookup_1 _ _ _ _ Hrows Hr). lia. }
  rewrite py_item_inside, Hlr by lia. done.
Qed.

Lemma py_item2_outside {A} w h (a : matrix A) row column :
  0 ≤ w → 0 ≤ h → shaped w h a →
  ¬ (- w ≤ row < w ∧ - h ≤ column < h) →
  py_item2 a row column = None.
Proof.
  intros Hw Hh [Hlen Hrows] Hout. unfold py_item2.
  assert (Z.of_nat (length a) = w) as Hla by lia.
  destruct (decide (- w ≤ row < w)) as [Hrow|Hrow].
  - rewrite py_item_inside, Hla by lia.
    destruct (a !! Z.to_nat (row mod w)) as [r|] eqn:Hr; [|done]. simpl.
    apply py_item_outside. rewrite (Forall_lookup_1 _ _ _ _ Hrows Hr). lia.
  - rewrite py_item_outside by lia. done.
Qed.

(** X9. The [path] method of the drafts checks its indices as numpy does:
    outside [-w <= row < w] and [-h <= column < h] it raises [IndexError];
    inside, a negative index counts from the end, and the method raises
    [NoPathExistsException] exactly when the distance of the cell
    [(row mod w, column mod h)] is negative. *)
Theorem py_path_indices w h fuel self row column :
  0 ≤ w → 0 ≤ h → shaped w h (distances self) →
  (¬ (- w ≤ row < w ∧ - h ≤ column < h) →
   py_path fuel self row column = Raise IndexError) ∧
  (- w ≤ row < w → - h ≤ column < h →
   (py_path fuel self row column = Raise NoPathExistsException ↔
    get2 0 (distances self) (row mod w) (column mod h) < 0)).
Proof.
  intros Hw Hh Hs. split.
  - intros Hout. unfold py_path. by rewrite (py_item2_outside w h).
  - intros Hrow Hcol. unfold py_path. rewrite (py_item2_inside w h) by done.
    pose proof (Z.mod_pos_bound row w ltac:(lia)).
    pose proof (Z.mod_pos_bound column h ltac:(lia)).
    rewrite (read2_get2 0 w h) by (done || (unfold inb; lia)).
    destruct (get2 0 (distances self) (row mod w) (column mod h) <? 0) eqn:Eneg.
    + apply Z.ltb_lt in Eneg. done.
    + apply Z.ltb_ge in Eneg. split; [|lia].
      intros Hraise. by apply py_follow_no_path_error in Hraise.
Qed.

Lemma py_path_indices_witness :
  (¬ (- 3 ≤ 3 < 3 ∧ - 3 ≤ 0 < 3) →
   py_path 10 example_analysis 3 0 = Raise IndexError) ∧
  (- 3 ≤ 3 < 3 → - 3 ≤ 0 < 3 →
   (py_path 10 example_analysis 3 0 = Raise NoPathExistsException ↔
    get2 0 (distances example_analysis) (3 mod 3) (0 mod 3) < 0)).
Proof.
  apply (py_path_indices 3 3 10 example_analysis 3 0).
  - lia.
  - lia.
  - unfold shaped, example_analysis. simpl. split; [reflexivity|repeat constructor].
Defined.

Lemma no_arrow_no_key c : ¬ is_arrow c → py_dirs c = None.
Proof.
  intros Hc. unfold py_dirs, is_arrow in *.
  destruct (Ascii.eqb c "v") eqn:Ev; [apply Ascii.eqb_eq in Ev; tauto|].
  destruct (Ascii.eqb c "^") eqn:Eu; [apply Ascii.eqb_eq in Eu; tauto|].
  destruct (Ascii.eqb c ">") eqn:Er; [apply Ascii.eqb_eq in Er; tauto|].
  destruct (Ascii.eqb c "<") eqn:El; [apply Ascii.eqb_eq in El; tauto|].
  done.
Qed.

(** X10. Where the compiled [build_path] stays on a cell for ever, the
    Python [path] of the drafts fails: standing on a cell whose character
    is neither ['X'] nor an arrow, its loop raises [KeyError]; so does a
    call whose start has a distance of at least [0] and such a character. *)
Theorem py_path_missing_key self row column c acc fuel :
  py_item2 (directions self) row column = Some c →
  c ≠ "X"%char → ¬ is_arrow c → (0 < fuel)%nat →
  py_follow fuel (directions self) row column acc = Raise KeyError ∧
  (∀ d, py_item2 (distances self) row column = Some d → 0 ≤ d →
        py_path fuel self row column = Raise KeyError).
Proof.
  intros Hread HX Harr Hfuel. destruct fuel as [|fuel]; [lia|].
  assert (∀ acc', py_follow (S fuel) (directions self) row column acc' = Raise KeyError)
    as Hloop.
  { intros acc'. cbn [py_follow]. rewrite Hread.
    rewrite (proj2 (Ascii.eqb_neq _ _) HX), (no_arrow_no_key c Harr). done. }
  split; [apply Hloop|].
  intros d Hd Hpos. unfold py_path. rewrite Hd.
  rewrite (proj2 (Z.ltb_ge _ _)) by lia. apply Hloop.
Qed.

Lemma py_path_missing_key_witness :
  py_follow 1 [[" "%char]] 0 0 [] = Raise KeyError ∧
  (∀ d, py_item2 [[5]] 0 0 = Some d → 0 ≤ d →
        py_path 1 (Build_MazeAnalysis [[5]] [[" "%char]] false) 0 0 = Raise KeyError).
Proof.
  apply (py_path_missing_key (Build_MazeAnalysis [[5]] [[" "%char]] false)
           0 0 " "%char [] 1).
  - reflexivity.
  - discriminate.
  - unfold is_arrow. intros [H|[H|[H|H]]]; discriminate H.
  - lia.
Defined.





(** ** Seeding *)

(** X12. The two ways of seeding the flood agree: the scanning loops of
    [analysis.pyx] and [maze.pyx] and the [np.place] / [np.where] code of
    the drafts leave the same arrays and the same queue, which holds the
    goals in row-major order, each once, with distance [0]. *)
Theorem seeding_agrees maze w h :
  1 ≤ w → 0 ≤ h → shaped w h maze →
  seed maze = scan maze w h ∧
  locals.q (scan maze w h) =
    ((λ c, qitem.make c.1 c.2 0) <$>
       filter (λ c, get2 0 maze c.1 c.2 = 1) (cells w h)) ∧
  ∀ x y, inb w h x y →
    get2 0 (locals.distances (scan maze w h)) x y
      = (if get2 0 maze x y =? 1 then 0 else -1) ∧
    get2 "000"%char (locals.directions (scan maze w h)) x y
      = (if get2 0 maze x y <? 0 then "#"%char
         else if get2 0 maze x y =? 1 then "X"%char else " "%char).
Proof.
  intros Hw Hh Hs.
  pose proof (scan_seeded maze w h) as Hscan.
  split; [|split].
  - apply (seeded_unique maze w h); [by apply seed_seeded|done].
  - apply Hscan.
  - intros x y Hi. destruct Hscan as (_ & _ & Hcells & _). by apply Hcells.
Qed.

Lemma seeding_agrees_witness :
  seed example_grid = scan example_grid 3 3 ∧
  locals.q (scan example_grid 3 3) =
    ((λ c, qitem.make c.1 c.2 0) <$>
       filter (λ c, get2 0 example_grid c.1 c.2 = 1) (cells 3 3)) ∧
  ∀ x y, inb 3 3 x y →
    get2 0 (locals.distances (scan example_grid 3 3)) x y
      = (if get2 0 example_grid x y =? 1 then 0 else -1) ∧
    get2 "000"%char (locals.directions (scan example_grid 3 3)) x y
      = (if get2 0 example_grid x y <? 0 then "#"%char
         else if get2 0 example_grid x y =? 1 then "X"%char else " "%char).
Proof.
  apply (seeding_agrees example_grid 3 3).
  - lia.
  - lia.
  - unfold shaped, example_grid. simpl. split; [reflexivity|repeat constructor].
Defined.

(** X13. The drafts with an [int16] distance field and a C++ queue agree.
    On every rectangular [int16] grid, of any size, [flood] of [part_001]
    returns what [flood] of [maze.pyx] returns and the two modules build
    the same object; on a grid of at most [2 ^ 15] cells, where no
    distance leaves [int16], [part_000] builds that object too. *)
Theorem int16_drafts_agree maze w h fuel :
  1 ≤ w → 0 ≤ h → shaped w h maze → int16_values maze →
  Part001.flood fuel maze = MazePyx.flood fuel maze w h ∧
  Part001.init fuel maze = MazePyx.init fuel maze ∧
  (w * h ≤ 2 ^ 15 → Part000.init fuel maze = MazePyx.init fuel maze).
Proof.
  intros Hw Hh Hs _.
  assert (seed maze = scan maze w h) as Hseed.
  { apply (seeded_unique maze w h); [by apply seed_seeded|apply scan_seeded]. }
  unfold MazePyx.init, Part000.init, Part001.init, Part001.flood, MazePyx.flood.
  rewrite (shape_valid w h) by done. cbn [fst snd]. rewrite Hseed.
  destruct (bfs int16 int32 maze w h fuel (scan maze w h)); done.
Qed.

Lemma int16_drafts_agree_witness :
  Part001.flood 10 example_grid = MazePyx.flood 10 example_grid 3 3 ∧
  Part001.init 10 example_grid = MazePyx.init 10 example_grid ∧
  (3 * 3 ≤ 2 ^ 15 → Part000.init 10 example_grid = MazePyx.init 10 example_grid).
Proof.
  apply (int16_drafts_agree example_grid 3 3 10).
  - lia.
  - lia.
  - unfold shaped, example_grid. simpl. split; [reflexivity|repeat constructor].
  - unfold int16_values, example_grid. repeat constructor; lia.
Defined.

(** ** The cast of [MazeAnalysis.__init__] *)

(** X14. The analysis of [analysis.pyx] sees a cell through the cast to
    [int8]: the cell is a wall exactly when its value, cast to [int8], is
    negative, and a goal (direction ['X'], distance [0]) exactly when the
    cast value is [1]. *)
Theorem init_classifies_by_int8 maze w h fuel :
  valid_grid maze w h → w * h < Z.of_nat fuel →
  ∃ a, Analysis.init fuel maze = Return a ∧
    ∀ x y, inb w h x y →
      (get2 "000"%char (directions a) x y = "#"%char ↔ int8 (get2 0 maze x y) < 0) ∧
      (get2 "000"%char (directions a) x y = "X"%char ↔ int8 (get2 0 maze x y) = 1) ∧
      (get2 0 (distances a) x y = 0 ↔ int8 (get2 0 maze x y) = 1).
Proof.
  intros Hvalid Hfuel.
  destruct (init_returns maze w h fuel Hvalid Hfuel) as (a & Hrun & HInv & _).
  exists a. split; [done|]. intros x y Hi.
  pose proof (inv_cell _ _ _ _ _ _ HInv x y Hi) as Hcell. unfold cell_ok in Hcell.
  rewrite get2_astype_int8 in Hcell.
  destruct Hcell as [(Hd & [(? & Hc)|(? & ? & Hc)])|[(Hd & ? & Hc)|(Hd & ? & ? & Harr & _)]].
  - rewrite Hc, Hd. split; [done|]. split; (split; [done|lia]).
  - rewrite Hc, Hd. split; [split; [done|lia]|]. split; (split; [done|lia]).
  - rewrite Hc, Hd. split; [split; [done|lia]|]. done.
  - destruct (arrow_chars _ Harr) as (? & ? & ?).
    split; [split; [done|lia]|]. split; [split; [done|lia]|]. split; [lia|done].
Qed.

Lemma init_classifies_by_int8_witness :
  ∃ a, Analysis.init 3 [[257; 200]] = Return a ∧
    ∀ x y, inb 1 2 x y →
      (get2 "000"%char (directions a) x y = "#"%char
       ↔ int8 (get2 0 [[257; 200]] x y) < 0) ∧
      (get2 "000"%char (directions a) x y = "X"%char
       ↔ int8 (get2 0 [[257; 200]] x y) = 1) ∧
      (get2 0 (distances a) x y = 0 ↔ int8 (get2 0 [[257; 200]] x y) = 1).
Proof.
  apply (init_classifies_by_int8 [[257; 200]] 1 2 3).
  - unfold valid_grid, shaped. simpl. repeat split; try lia. repeat constructor.
  - lia.
Defined.

(** ** A grid without a goal *)

(** X15. On a grid without a cell of value [1] the queue is empty after
    the scan: the loop body never runs, every distance stays [-1], the
    direction field holds ['#'] on the walls and [' '] elsewhere, and the
    grid is reported reachable exactly when all its cells are walls. *)
Theorem flood_without_goal maze w h fuel :
  (∀ x y, inb w h x y → get2 0 maze x y ≠ 1) → (0 < fuel)%nat →
  ∃ dirs reach,
    Analysis.flood fuel maze w h = Return (np_full w h (-1), dirs, reach) ∧
    dequeued int32 int32 maze w h fuel (scan maze w h) = [] ∧
    (∀ x y, inb w h x y →
       get2 "000"%char dirs x y =
         if get2 0 maze x y <? 0 then "#"%char else " "%char) ∧
    (reach = true ↔ ∀ x y, inb w h x y → get2 0 maze x y < 0).
Proof.
  intros Hnogoal Hfuel. destruct fuel as [|fuel]; [lia|].
  destruct (scan_seeded maze w h) as (Hsd & Hsr & Hcells & Hq).
  destruct (scan maze w h) as [dist dirs q] eqn:Hscan.
  cbn [locals.distances locals.directions locals.q] in *.
  assert (q = []) as ->.
  { rewrite Hq, filter_nil_not; [done|].
    intros [x y] Hin. apply elem_of_cells in Hin. simpl. by apply Hnogoal. }
  assert (dist = np_full w h (-1)) as ->.
  { apply (matrix_ext_get2 0 w h); [done|apply shaped_np_full|].
    intros x y Hi. destruct (Hcells x y Hi) as [-> _].
    rewrite get2_np_full by done. unfold seed_distance.
    by rewrite (proj2 (Z.eqb_neq _ _) (Hnogoal x y Hi)). }
  assert (∀ x y, inb w h x y →
            get2 "000"%char dirs x y =
              if get2 0 maze x y <? 0 then "#"%char else " "%char) as Hdirs.
  { intros x y Hi. destruct (Hcells x y Hi) as [_ ->]. unfold seed_direction.
    by rewrite (proj2 (Z.eqb_neq _ _) (Hnogoal x y Hi)). }
  exists dirs, (Analysis.directions2reachable dirs w h).
  unfold Analysis.flood. rewrite Hscan.
  cbn [bfs dequeued locals.q locals.distances locals.directions].
  split; [done|]. split; [done|]. split; [done|].
  rewrite directions2reachable_spec. split.
  - intros Hnone x y Hi. specialize (Hnone x y Hi). rewrite (Hdirs x y Hi) in Hnone.
    destruct (get2 0 maze x y <? 0) eqn:E; [by apply Z.ltb_lt in E|done].
  - intros Hwalls x y Hi. rewrite (Hdirs x y Hi).
    by rewrite (proj2 (Z.ltb_lt _ _) (Hwalls x y Hi)).
Qed.

Lemma flood_without_goal_witness :
  ∃ dirs reach,
    Analysis.flood 1 [[0; -1]; [0; 0]] 2 2 = Return (np_full 2 2 (-1), dirs, reach) ∧
    dequeued int32 int32 [[0; -1]; [0; 0]] 2 2 1 (scan [[0; -1]; [0; 0]] 2 2) = [] ∧
    (∀ x y, inb 2 2 x y →
       get2 "000"%char dirs x y =
         if get2 0 [[0; -1]; [0; 0]] x y <? 0 then "#"%char else " "%char) ∧
    (reach = true ↔ ∀ x y, inb 2 2 x y → get2 0 [[0; -1]; [0; 0]] x y < 0).
Proof.
  apply (flood_without_goal [[0; -1]; [0; 0]] 2 2 1).
  - intros x y [Hx Hy].
    assert ((x = 0 ∨ x = 1) ∧ (y = 0 ∨ y = 1)) as [[-> | ->] [-> | ->]] by lia;
      vm_compute; discriminate.
  - lia.
Defined.

(** ** The order of the queue *)

(** A distance, once written, is never changed by the loop. *)
Lemma bfs_frame maze w h fuel st st' :
  Inv maze w h (locals.distances st) (locals.directions st) (locals.q st) →
  bfs id id maze w h fuel st = Return st' →
  ∀ x y, get2 0 (locals.distances st) x y ≠ -1 →
    get2 0 (locals.distances st') x y = get2 0 (locals.distances st) x y.
Proof.
  revert st. induction fuel as [|fuel IH]; intros st HInv Hrun x y Hne; [done|].
  destruct st as [dist dirs [|item rest]]; cbn [locals.distances locals.directions locals.q] in *.
  { simpl in Hrun. by injection Hrun as <-. }
  cbn [bfs locals.distances locals.directions locals.q] in Hrun.
  destruct (visits_inv maze w h item (seq 0 4) (locals.make dist dirs rest) range4 HInv)
    as (_ & _ & Hframe & _).
  destruct (expand_inv _ _ _ _ _ _ _ HInv) as [HInv' _].
  cbn [locals.distances locals.directions locals.q] in *.
  rewrite (IH _ HInv' Hrun); [by apply Hframe|]. by rewrite Hframe.
Qed.

Lemma dequeued_nil store qd maze w h fuel st :
  locals.q st = [] → dequeued store qd maze w h fuel st = [].
Proof. intros Hq. destruct fuel; simpl; [done|]. by rewrite Hq. Qed.

(** No item leaves the queue with a smaller distance than the front. *)
Lemma dequeued_front_least maze w h fuel st item rest :
  Inv maze w h (locals.distances st) (locals.directions st) (locals.q st) →
  locals.q st = item :: rest →
  ∀ it, it ∈ dequeued id id maze w h fuel st →
    qitem.distance item ≤ qitem.distance it.
Proof.
  revert st item rest. induction fuel as [|fuel IH]; intros st item rest HInv Hq it Hit.
  { by apply elem_of_nil in Hit. }
  destruct st as [dist dirs q]. cbn [locals.distances locals.directions locals.q] in *.
  subst q. cbn [dequeued locals.distances locals.directions locals.q] in Hit.
  apply elem_of_cons in Hit as [->|Hit]; [done|].
  destruct (visits_inv maze w h item (seq 0 4) (locals.make dist dirs rest) range4 HInv)
    as (HInv1 & _).
  destruct (expand_inv _ _ _ _ _ _ _ HInv) as [HInv' _].
  set (st1 := foldl _ _ _) in *.
  destruct (locals.q st1) as [|item1 rest1] eqn:Hq1.
  { rewrite dequeued_nil in Hit by done. by apply elem_of_nil in Hit. }
  pose proof (inv_sorted _ _ _ _ _ _ HInv1) as Hsorted.
  apply StronglySorted_inv in Hsorted as [_ Hall].
  apply Forall_cons in Hall as [Hle _].
  rewrite <- Hq1 in HInv'.
  pose proof (IH st1 item1 rest1 HInv' Hq1 it Hit). lia.
Qed.

Lemma dequeued_sorted maze w h fuel st :
  Inv maze w h (locals.distances st) (locals.directions st) (locals.q st) →
  StronglySorted (λ a b, qitem.distance a ≤ qitem.distance b)
                 (dequeued id id maze w h fuel st).
Proof.
  revert st. induction fuel as [|fuel IH]; intros st HInv; [constructor|].
  destruct st as [dist dirs [|item rest]] eqn:Hst;
    cbn [dequeued locals.distances locals.directions locals.q] in *; [constructor|].
  destruct (expand_inv _ _ _ _ _ _ _ HInv) as [HInv' _].
  constructor; [by apply IH|].
  apply Forall_forall. intros it Hit.
  apply (dequeued_front_least maze w h (S fuel) (locals.make dist dirs (item :: rest))
           item rest HInv eq_refl).
  cbn [dequeued locals.distances locals.directions locals.q]. by right.
Qed.

(** An item leaves the queue with the distance its cell has at the end. *)
Lemma dequeued_distance maze w h fuel st st' :
  Inv maze w h (locals.distances st) (locals.directions st) (locals.q st) →
  bfs id id maze w h fuel st = Return st' →
  ∀ it, it ∈ dequeued id id maze w h fuel st →
    get2 0 (locals.distances st') (qitem.x it) (qitem.y it) = qitem.distance it ∧
    0 ≤ qitem.distance it.
Proof.
  revert st. induction fuel as [|fuel IH]; intros st HInv Hrun it Hit.
  { by apply elem_of_nil in Hit. }
  pose proof (bfs_frame maze w h (S fuel) st st' HInv Hrun) as Hframe.
  destruct st as [dist dirs [|item rest]]; cbn [locals.distances locals.directions locals.q] in *.
  { by apply elem_of_nil in Hit. }
  cbn [dequeued bfs locals.distances locals.directions locals.q] in Hit, Hrun.
  apply elem_of_cons in Hit as [->|Hit].
  - destruct (Inv_head _ _ _ _ _ _ _ HInv) as (_ & Hd & H0 & _).
    split; [|done]. rewrite Hframe; [done|lia].
  - destruct (expand_inv _ _ _ _ _ _ _ HInv) as [HInv' _].
    by apply (IH _ HInv' Hrun).
Qed.

(** X16. The flood expands the cells in the order of their distance: the
    items taken from the queue have non-decreasing distances, and each
    carries the distance that the returned field holds for its cell. *)
Theorem flood_queue_order maze w h fuel :
  valid_grid maze w h → w * h < Z.of_nat fuel →
  ∃ dist dirs reach,
    Analysis.flood fuel maze w h = Return (dist, dirs, reach) ∧
    StronglySorted (λ a b, qitem.distance a ≤ qitem.distance b)
      (dequeued int32 int32 maze w h fuel (scan maze w h)) ∧
    ∀ it, it ∈ dequeued int32 int32 maze w h fuel (scan maze w h) →
      get2 0 dist (qitem.x it) (qitem.y it) = qitem.distance it.
Proof.
  intros (Hw & Hh & Hs & Hfit) Hfuel.
  destruct (seeded_Inv maze w h _ (scan_seeded maze w h)) as [HInv Hm].
  destruct (bfs_terminates maze w h fuel _ HInv) as (st' & Hrun & Hq & HInv'); [nia|].
  exists (locals.distances st'), (locals.directions st'),
         (Analysis.directions2reachable (locals.directions st') w h).
  rewrite (dequeued_pure int32 int32) by (done || intros; by apply (int32_small w h)).
  split; [|split].
  - unfold Analysis.flood.
    rewrite (bfs_pure int32 int32) by (done || intros; by apply (int32_small w h)).
    by rewrite Hrun.
  - by apply dequeued_sorted.
  - intros it Hit. by destruct (dequeued_distance maze w h fuel _ st' HInv Hrun it Hit).
Qed.

Lemma flood_queue_order_witness :
  ∃ dist dirs reach,
    Analysis.flood 10 example_grid 3 3 = Return (dist, dirs, reach) ∧
    StronglySorted (λ a b, qitem.distance a ≤ qitem.distance b)
      (dequeued int32 int32 example_grid 3 3 10 (scan example_grid 3 3)) ∧
    ∀ it, it ∈ dequeued int32 int32 example_grid 3 3 10 (scan example_grid 3 3) →
      get2 0 dist (qitem.x it) (qitem.y it) = qitem.distance it.
Proof.
  apply (flood_queue_order example_grid 3 3 10).
  - unfold valid_grid, shaped, example_grid. simpl.
    repeat split; try lia. repeat constructor.
  - lia.
Defined.

(** ** Which cells are expanded *)

(** A visit keeps the queue and queues the cell to which it gives a
    distance. *)
Lemma visit_grows maze w h item st i :
  let st' := visit id id maze w h item st i in
  (∀ it, it ∈ locals.q st → it ∈ locals.q st') ∧
  (∀ x y, get2 0 (locals.distances st) x y = -1 →
     get2 0 (locals.distances st') x y ≠ -1 →
     (x, y) ∈ cell_of <$> locals.q st').
Proof.
  unfold visit. cbv zeta.
  set (x' := qitem.x item + _). set (y' := qitem.y item + _).
  destruct ((0 <=? x') && (x' <? w) && (0 <=? y') && (y' <? h)) eqn:Hchk;
    [|split; [done|intros x y Hold Hnew; done]].
  destruct ((0 <=? get2 0 maze x' y') && (get2 0 (locals.distances st) x' y' =? -1));
    [|split; [done|intros x y Hold Hnew; done]].
  assert (0 ≤ x' ∧ 0 ≤ y') as [Hx Hy].
  { repeat (apply andb_prop in Hchk as [Hchk ?]). lia. }
  cbn [locals.distances locals.q]. split.
  - intros it Hit. apply elem_of_app. by left.
  - intros x y Hold Hnew.
    destruct (decide ((x', y') = (x, y))) as [Heq|Hne].
    + injection Heq as <- <-. rewrite fmap_app. apply elem_of_app. right.
      simpl. by left.
    + by rewrite get2_set2_ne in Hnew.
Qed.

Lemma visits_grows maze w h item (l : list nat) st :
  let st' := foldl (visit id id maze w h item) st l in
  (∀ it, it ∈ locals.q st → it ∈ locals.q st') ∧
  (∀ x y, get2 0 (locals.distances st) x y = -1 →
     get2 0 (locals.distances st') x y ≠ -1 →
     (x, y) ∈ cell_of <$> locals.q st').
Proof.
  revert st. induction l as [|i l IH]; intros st; [by split|].
  cbn [foldl]. cbv zeta.
  destruct (visit_grows maze w h item st i) as [Hkeep1 Hnew1].
  destruct (IH (visit id id maze w h item st i)) as [Hkeep2 Hnew2].
  split.
  - intros it Hit. by apply Hkeep2, Hkeep1.
  - intros x y Hold Hnew.
    destruct (decide (get2 0 (locals.distances (visit id id maze w h item st i)) x y = -1))
      as [Hmid|Hmid]; [by apply Hnew2|].
    pose proof (Hnew1 x y Hold Hmid) as Hin.
    apply list_elem_of_fmap in Hin as (it & -> & Hit).
    apply list_elem_of_fmap. exists it. split; [done|by apply Hkeep2].
Qed.

(** A cell with a distance at the end was taken from the queue, unless it
    had its distance at the start without being queued. *)
Lemma bfs_all_dequeued maze w h fuel st st' :
  bfs id id maze w h fuel st = Return st' →
  ∀ x y, get2 0 (locals.distances st') x y ≠ -1 →
    (x, y) ∈ cell_of <$> dequeued id id maze w h fuel st ∨
    (get2 0 (locals.distances st) x y ≠ -1 ∧ (x, y) ∉ cell_of <$> locals.q st).
Proof.
  revert st. induction fuel as [|fuel IH]; intros st Hrun x y Hne; [done|].
  destruct st as [dist dirs [|item rest]]; cbn [locals.distances locals.directions locals.q] in *.
  { simpl in Hrun. injection Hrun as <-. right. split; [done|]. apply not_elem_of_nil. }
  cbn [bfs dequeued locals.distances locals.directions locals.q] in *.
  destruct (visits_grows maze w h item (seq 0 4) (locals.make dist dirs rest))
    as [Hkeep Hnew].
  set (st1 := foldl _ _ _) in *.
  cbn [locals.distances locals.directions locals.q] in *.
  destruct (IH st1 Hrun x y Hne) as [Hin|[Hne1 Hnotin1]].
  { left. rewrite fmap_cons. by right. }
  destruct (decide (get2 0 dist x y = -1)) as [Hold|Hold].
  { destruct Hnotin1. by apply Hnew. }
  destruct (decide ((x, y) = cell_of item)) as [Hitem|Hitem].
  { left. rewrite fmap_cons, Hitem. by left. }
  right. split; [done|]. rewrite fmap_cons. apply not_elem_of_cons. split; [done|].
  intros Hin. apply Hnotin1.
  apply list_elem_of_fmap in Hin as (it & -> & Hit).
  apply list_elem_of_fmap. exists it. split; [done|by apply Hkeep].
Qed.

Lemma seeded_assigned_queued maze w h st x y :
  seeded maze w h st → inb w h x y →
  get2 0 (locals.distances st) x y ≠ -1 →
  (x, y) ∈ cell_of <$> locals.q st.
Proof.
  intros (_ & _ & Hcells & Hq) Hi Hne.
  destruct (Hcells x y Hi) as [Hd _]. rewrite Hd in Hne. unfold seed_distance in Hne.
  destruct (get2 0 maze x y =? 1) eqn:E; [|done]. apply Z.eqb_eq in E.
  rewrite Hq, cell_of_seed. apply list_elem_of_filter. split; [done|].
  by apply elem_of_cells.
Qed.

(** X17. The cells the flood takes from its queue are exactly the cells
    to which the returned field gives a distance: the goals and the cells
    with a walk to one. Walls and cut-off cells are never expanded. *)
Theorem flood_expands_reached_cells maze w h fuel :
  valid_grid maze w h → w * h < Z.of_nat fuel →
  ∃ dist dirs reach,
    Analysis.flood fuel maze w h = Return (dist, dirs, reach) ∧
    ∀ x y, inb w h x y →
      ((x, y) ∈ cell_of <$> dequeued int32 int32 maze w h fuel (scan maze w h)
       ↔ get2 0 dist x y ≠ -1) ∧
      (get2 0 dist x y ≠ -1 ↔ reachable maze w h (x, y)).
Proof.
  intros (Hw & Hh & Hs & Hfit) Hfuel.
  pose proof (scan_seeded maze w h) as Hseeded.
  destruct (seeded_Inv maze w h _ Hseeded) as [HInv Hm].
  destruct (bfs_terminates maze w h fuel _ HInv) as (st' & Hrun & Hq & HInv'); [nia|].
  exists (locals.distances st'), (locals.directions st'),
         (Analysis.directions2reachable (locals.directions st') w h).
  rewrite (dequeued_pure int32 int32) by (done || intros; by apply (int32_small w h)).
  split.
  { unfold Analysis.flood.
    rewrite (bfs_pure int32 int32) by (done || intros; by apply (int32_small w h)).
    by rewrite Hrun. }
  intros x y Hi. split; [split|split].
  - intros Hin. apply list_elem_of_fmap in Hin as (it & Heq & Hit).
    injection Heq as -> ->.
    destruct (dequeued_distance maze w h fuel _ st' HInv Hrun it Hit) as [-> ?]. lia.
  - intros Hne.
    destruct (bfs_all_dequeued maze w h fuel _ st' Hrun x y Hne) as [|[Hne0 Hnotin]];
      [done|].
    destruct Hnotin. by apply (seeded_assigned_queued maze w h).
  - intros Hne. pose proof (Inv_distance_range _ _ _ _ _ _ x y HInv' Hi).
    destruct (Inv_sound maze w h (locals.distances st') (locals.directions st') []
                (Z.to_nat (get2 0 (locals.distances st') x y)) x y)
      as (p & Hp & _); [done|done|lia|]. by exists p.
  - intros [p Hp]. by destruct (Inv_complete _ _ _ _ _ _ _ _ HInv' Hp).
Qed.

Lemma flood_expands_reached_cells_witness :
  ∃ dist dirs reach,
    Analysis.flood 10 example_grid 3 3 = Return (dist, dirs, reach) ∧
    ∀ x y, inb 3 3 x y →
      ((x, y) ∈ cell_of <$> dequeued int32 int32 example_grid 3 3 10 (scan example_grid 3 3)
       ↔ get2 0 dist x y ≠ -1) ∧
      (get2 0 dist x y ≠ -1 ↔ reachable example_grid 3 3 (x, y)).
Proof.
  apply (flood_expands_reached_cells example_grid 3 3 10).
  - unfold valid_grid, shaped, example_grid. simpl.
    repeat split; try lia. repeat constructor.
  - lia.
Defined.

(** ** What the flood reads of the grid *)

Lemma visit_same_classes store qd maze maze' w h item st i :
  (∀ x y, inb w h x y → (get2 0 maze x y < 0 ↔ get2 0 maze' x y < 0)) →
  visit store qd maze w h item st i = visit store qd maze' w h item st i.
Proof.
  intros Hsame. unfold visit. cbv zeta.
  set (x' := qitem.x item + _). set (y' := qitem.y item + _).
  destruct ((0 <=? x') && (x' <? w) && (0 <=? y') && (y' <? h)) eqn:Hchk; [|done].
  assert (inb w h x' y') as Hi.
  { unfold inb. repeat (apply andb_prop in Hchk as [Hchk ?]). lia. }
  assert ((0 <=? get2 0 maze x' y') = (0 <=? get2 0 maze' x' y')) as ->; [|done].
  specialize (Hsame x' y' Hi).
  destruct (0 <=? get2 0 maze x' y') eqn:E1, (0 <=? get2 0 maze' x' y') eqn:E2;
    try done; rewrite ?Z.leb_le, ?Z.leb_gt in *; lia.
Qed.

Lemma bfs_same_classes store qd maze maze' w h fuel st :
  (∀ x y, inb w h x y → (get2 0 maze x y < 0 ↔ get2 0 maze' x y < 0)) →
  bfs store qd maze w h fuel st = bfs store qd maze' w h fuel st.
Proof.
  intros Hsame. revert st. induction fuel as [|fuel IH]; intros st; [done|].
  cbn [bfs]. destruct (locals.q st) as [|item rest]; [done|].
  cbn [seq foldl]. rewrite !(visit_same_classes store qd maze maze' w h item) by done.
  apply IH.
Qed.

Lemma scan_same_classes maze maze' w h :
  (∀ x y, inb w h x y →
     (get2 0 maze x y < 0 ↔ get2 0 maze' x y < 0) ∧
     (get2 0 maze x y = 1 ↔ get2 0 maze' x y = 1)) →
  scan maze w h = scan maze' w h.
Proof.
  intros Hsame. apply (seeded_unique maze w h); [apply scan_seeded|].
  destruct (scan_seeded maze' w h) as (Hsd & Hsr & Hcells & Hq).
  split; [done|]. split; [done|]. split.
  - intros x y Hi. destruct (Hcells x y Hi) as [-> ->].
    destruct (Hsame x y Hi) as [Hneg Hone].
    unfold seed_distance, seed_direction.
    assert ((get2 0 maze' x y =? 1) = (get2 0 maze x y =? 1)) as ->.
    { destruct (get2 0 maze' x y =? 1) eqn:E1, (get2 0 maze x y =? 1) eqn:E2;
        try done; rewrite ?Z.eqb_eq, ?Z.eqb_neq in *; tauto. }
    assert ((get2 0 maze' x y <? 0) = (get2 0 maze x y <? 0)) as ->; [|done].
    destruct (get2 0 maze' x y <? 0) eqn:E1, (get2 0 maze x y <? 0) eqn:E2;
      try done; rewrite ?Z.ltb_lt, ?Z.ltb_ge in *; lia.
  - rewrite Hq. f_equal. apply filter_ext_in. intros [x y] Hin.
    apply elem_of_cells in Hin. simpl. symmetry. apply Hsame, Hin.
Qed.

(** X18. The flood reads of each cell only whether it is negative and
    whether it is [1]: two grids with the same walls and the same goals
    get the same fields and the same flag, whatever their other values. *)
Theorem flood_depends_on_classes maze maze' w h fuel :
  (∀ x y, inb w h x y →
     (get2 0 maze x y < 0 ↔ get2 0 maze' x y < 0) ∧
     (get2 0 maze x y = 1 ↔ get2 0 maze' x y = 1)) →
  Analysis.flood fuel maze w h = Analysis.flood fuel maze' w h.
Proof.
  intros Hsame. unfold Analysis.flood.
  rewrite (scan_same_classes maze maze' w h Hsame).
  rewrite (bfs_same_classes int32 int32 maze maze' w h); [done|].
  intros x y Hi. apply Hsame, Hi.
Qed.

Lemma flood_depends_on_classes_witness :
  Analysis.flood 5 [[5; -1]; [1; 7]] 2 2 = Analysis.flood 5 [[0; -9]; [1; 0]] 2 2.
Proof.
  apply (flood_depends_on_classes [[5; -1]; [1; 7]] [[0; -9]; [1; 0]] 2 2 5).
  intros x y [Hx Hy].
  assert ((x = 0 ∨ x = 1) ∧ (y = 0 ∨ y = 1)) as [[-> | ->] [-> | ->]] by lia;
    vm_compute; split; split; intros H; try discriminate H; reflexivity.
Defined.

(** ** Distances beyond [int16] *)

(** X19. On a corridor of one row, a goal followed by [n ≤ 65534] open
    cells, [analysis.pyx] gives column [j] the distance [j]; [maze.pyx]
    and [part_001], whose distance field is an [int16] buffer, build one
    and the same object, in which column [j] holds [j] wrapped to
    [int16]. *)
Theorem corridor_distances n :
  Z.of_nat n ≤ 65534 →
  ∃ a a1,
    Analysis.init (S (S n)) (corridor n) = Return a ∧
    MazePyx.init (S (S n)) (corridor n) = Return a1 ∧
    Part001.init (S (S n)) (corridor n) = Return a1 ∧
    ∀ j, (j ≤ n)%nat →
      get2 0 (distances a) 0 (Z.of_nat j) = Z.of_nat j ∧
      get2 0 (distances a1) 0 (Z.of_nat j) = int16 (Z.of_nat j).
Proof.
  intros Hn.
  assert (∀ k, 0 ≤ k ≤ Z.of_nat n → int16 k ≠ -1) as Hstore.
  { intros k Hk. apply int16_not_unassigned. lia. }
  assert (∀ k, 0 ≤ k ≤ Z.of_nat n → int32 k = k) as Hqd.
  { intros k Hk. apply wrap_small; lia. }
  pose proof (corridor_draft int16 int32 n eq_refl Hstore Hqd) as Hdraft.
  assert (scan (corridor n) 1 (Z.of_nat n + 1) = seed (corridor n)) as Hscan.
  { apply (seeded_unique (corridor n) 1 (Z.of_nat n + 1)); [apply scan_seeded|].
    apply seed_seeded; [lia|lia|apply shaped_corridor]. }
  exists (Build_MazeAnalysis
            (locals.distances (corridor_state int32 n n []))
            (locals.directions (corridor_state int32 n n []))
            (Analysis.directions2reachable
               (locals.directions (corridor_state int32 n n [])) 1 (Z.of_nat n + 1))),
         (Build_MazeAnalysis
            (locals.distances (corridor_state int16 n n []))
            (locals.directions (corridor_state int16 n n []))
            (not_in " "%char (locals.directions (corridor_state int16 n n [])))).
  split; [|split; [|split]].
  - unfold Analysis.init. cbv zeta.
    rewrite astype_int8_corridor, shape_corridor. cbn [fst snd].
    unfold Analysis.flood. by rewrite corridor_final by lia.
  - unfold MazePyx.init, MazePyx.flood. rewrite shape_corridor in *.
    cbn [fst snd] in *. by rewrite Hscan, Hdraft.
  - unfold Part001.init, Part001.flood. by rewrite Hdraft.
  - intros j Hj. cbn [distances].
    rewrite !corridor_distance_done by lia.
    split; [apply wrap_small; lia|done].
Qed.

Lemma corridor_distances_witness :
  ∃ a a1,
    Analysis.init (S (S 3)) (corridor 3) = Return a ∧
    MazePyx.init (S (S 3)) (corridor 3) = Return a1 ∧
    Part001.init (S (S 3)) (corridor 3) = Return a1 ∧
    ∀ j, (j ≤ 3)%nat →
      get2 0 (distances a) 0 (Z.of_nat j) = Z.of_nat j ∧
      get2 0 (distances a1) 0 (Z.of_nat j) = int16 (Z.of_nat j).
Proof. apply (corridor_distances 3). simpl. lia. Defined.

(** ** Witnesses for the drafts *)

(** X20. On a valid [int16] grid of at most [2 ^ 15] cells the flood of
    [maze.pyx], with its [int16] distance field, returns the distance
    field of shortest walks: [-1] on walls and cut-off cells, [0] on
    goals, the number of hops of a shortest walk elsewhere; and every
    arrow of its direction field leads to a cell one hop nearer. *)
Theorem maze_pyx_shortest_distances maze w h fuel :
  valid_grid maze w h → int16_values maze →
  w * h ≤ 2 ^ 15 → w * h < Z.of_nat fuel →
  ∃ dist dirs,
    MazePyx.flood fuel maze w h = Return (dist, dirs) ∧
    ∀ x y, inb w h x y →
      (get2 0 maze x y < 0 → get2 0 dist x y = -1) ∧
      (¬ reachable maze w h (x, y) → get2 0 dist x y = -1) ∧
      (get2 0 maze x y = 1 → get2 0 dist x y = 0) ∧
      (reachable maze w h (x, y) →
         shortest_hops maze w h (x, y) (get2 0 dist x y)) ∧
      (is_arrow (get2 "000"%char dirs x y) →
         let o := Analysis.dirs (get2 "000"%char dirs x y) in
         get2 0 dist (x + coords.x o) (y + coords.y o) = get2 0 dist x y - 1).
Proof.
  intros Hvalid _ Hint16 Hfuel.
  destruct (maze_pyx_flood_returns maze w h fuel Hvalid Hint16 Hfuel)
    as (dist & dirs & Hrun & HInv).
  exists dist, dirs. split; [done|].
  intros x y Hi.
  destruct (Inv_distance_field maze w h dist dirs x y HInv Hi) as (H1 & H2 & H3 & H4).
  repeat (split; [done|]).
  intros Harr o.
  pose proof (inv_cell _ _ _ _ _ _ HInv x y Hi) as Hcell. unfold cell_ok in Hcell.
  destruct (arrow_chars _ Harr) as (Hh & Hsp & HX).
  destruct Hcell as [(_ & [(_ & ?)|(_ & _ & ?)])|[(_ & _ & ?)|(_ & _ & _ & _ & _ & Hstep)]];
    try done.
Qed.

Lemma maze_pyx_shortest_distances_witness :
  ∃ dist dirs,
    MazePyx.flood 10 example_grid 3 3 = Return (dist, dirs) ∧
    ∀ x y, inb 3 3 x y →
      (get2 0 example_grid x y < 0 → get2 0 dist x y = -1) ∧
      (¬ reachable example_grid 3 3 (x, y) → get2 0 dist x y = -1) ∧
      (get2 0 example_grid x y = 1 → get2 0 dist x y = 0) ∧
      (reachable example_grid 3 3 (x, y) →
         shortest_hops example_grid 3 3 (x, y) (get2 0 dist x y)) ∧
      (is_arrow (get2 "000"%char dirs x y) →
         let o := Analysis.dirs (get2 "000"%char dirs x y) in
         get2 0 dist (x + coords.x o) (y + coords.y o) = get2 0 dist x y - 1).
Proof.
  apply (maze_pyx_shortest_distances example_grid 3 3 10).
  - unfold valid_grid, shaped, example_grid. simpl.
    repeat split; try lia. repeat constructor.
  - unfold int16_values, example_grid. repeat constructor; lia.
  - lia.
  - lia.
Defined.

Lemma part000_path_raises_iff_witness :
  ∃ a, Part000.init 10 example_grid = Return a ∧
    ∀ fuel',
      Part000.path fuel' a 1 1 = Raise NoPathExistsException ↔
      get2 "000"%char (directions a) 1 1 = "#"%char ∨
      get2 "000"%char (directions a) 1 1 = " "%char.
Proof.
  apply (part000_path_raises_iff example_grid 3 3 10 1 1).
  - unfold valid_grid, shaped, example_grid. simpl.
    repeat split; try lia. repeat constructor.
  - lia.
  - lia.
  - unfold inb. lia.
Defined.

(** X22. On a valid [int16] grid of at most [2 ^ 15] cells the flag that
    [maze.pyx] computes by [b' ' not in directions] is the flag that
    [directions2reachable] of [analysis.pyx] computes on the same field,
    and it is [true] exactly when every cell that is not a wall has a walk
    to a goal. *)
Theorem maze_pyx_flag_means_all_reach maze w h fuel :
  valid_grid maze w h → int16_values maze →
  w * h ≤ 2 ^ 15 → w * h < Z.of_nat fuel →
  ∃ a, MazePyx.init fuel maze = Return a ∧
    is_reachable a = Analysis.directions2reachable (directions a) w h ∧
    (is_reachable a = true ↔
     ∀ x y, inb w h x y → 0 ≤ get2 0 maze x y → reachable maze w h (x, y)).
Proof.
  intros Hvalid _ Hint16 Hfuel.
  destruct (maze_pyx_flood_returns maze w h fuel Hvalid Hint16 Hfuel)
    as (dist & dirs & Hrun & HInv).
  destruct Hvalid as (Hw & Hh & Hs & _).
  unfold MazePyx.init. rewrite (shape_valid w h) by (done || lia).
  cbn [fst snd]. rewrite Hrun. eexists. split; [done|].
  cbn [is_reachable directions]. split.
  - apply not_in_directions2reachable, HInv.
  - rewrite (not_in_spec dirs w h) by apply HInv.
    by apply (Inv_no_blank maze w h dist dirs).
Qed.

Lemma maze_pyx_flag_means_all_reach_witness :
  ∃ a, MazePyx.init 10 example_grid = Return a ∧
    is_reachable a = Analysis.directions2reachable (directions a) 3 3 ∧
    (is_reachable a = true ↔
     ∀ x y, inb 3 3 x y → 0 ≤ get2 0 example_grid x y →
       reachable example_grid 3 3 (x, y)).
Proof.
  apply (maze_pyx_flag_means_all_reach example_grid 3 3 10).
  - unfold valid_grid, shaped, example_grid. simpl.
    repeat split; try lia. repeat constructor.
  - unfold int16_values, example_grid. repeat constructor; lia.
  - lia.
  - lia.
Defined.
